(** * Cube-pruning backwards edges and bitmap containers of the Moses decoder

    A shallow embedding of
    [branches/mtm2_cube_pruning/moses/src/BitmapContainer.cpp] and of
    [StaticData::LoadData] (moses/StaticData.cpp) from its head to its
    stack-diversity block, together with the properties of the decoder
    specification that concern them; and of [LoadNonTerminals],
    [LoadChartDecodingParameters], [SetExecPath], [CheckWeights],
    [LoadDecodeGraphs] and [OverrideFeatureNames] of moses/StaticData.cpp,
    with properties of theirs.

    Conventions of the embedding.
    - A C++ pointer to an immutable object (a hypothesis, a translation
      option) is the object itself; a pointer that may be NULL is an [option].
    - Memory errors the C++ code can run into (indexing past a buffer,
      dereferencing NULL, a failed [assert]) are results of type [Fault]; the
      code that runs into one stops there.
    - A [std::vector] has its storage and its logical size.  Writing through
      an iterator into storage that was reserved but holds no element is
      undefined in C++; it is modelled as the common implementations perform
      it: the slot is written and the size stays what it was.
    - [float] scores are integers extended with minus infinity: only their
      order matters below.
    - A function of StaticData returns, throws an exception or reads outside
      a vector: its result is an [outcome]. *)

From Stdlib Require Import ZArith Lia Bool Ascii.
From stdpp Require Import base numbers option list strings gmap.
From stdpp Require Import sorting.

Local Open Scope Z_scope.

(* ================================================================== *)
(** ** Faults and the result type *)

Inductive Buffer := SeenPositions | KBestHypotheses | KBestTranslations.

Inductive Fault :=
| OutOfBounds (b : Buffer) (index : Z)   (* operator[] outside the allocation *)
| UninitialisedRead (b : Buffer) (index : Z)
| BufferOverrun (b : Buffer)             (* std::copy past the allocation *)
| NullDereference
| AssertionViolated
| IllegalCoverage.

Inductive result (A : Type) :=
| Ok (a : A)
| Crash (f : Fault).
Arguments Ok {A} a.
Arguments Crash {A} f.

Definition rbind {A B} (m : result A) (k : A -> result B) : result B :=
  match m with
  | Ok a => k a
  | Crash f => Crash f
  end.

(** [result] is a monad in the sense of stdpp: [x ← m; k] runs [m] and, unless
    it failed, continues with [k]. *)
#[global] Instance result_ret : MRet result := fun A a => Ok a.
#[global] Instance result_bind : MBind result := fun A B k m => rbind m k.
#[global] Instance result_fmap : FMap result := fun A B f m =>
  rbind m (fun a => Ok (f a)).

(* ================================================================== *)
(** ** Scores *)

Inductive Score :=
| NegInf
| Fin (z : Z).

(** [a > b] on scores, with [-std::numeric_limits<float>::infinity()] below
    every other score. *)
Definition score_gt (a b : Score) : bool :=
  match a, b with
  | NegInf, _ => false
  | Fin _, NegInf => true
  | Fin x, Fin y => y <? x
  end.

Definition score_le (a b : Score) : Prop := score_gt a b = false.

(* ================================================================== *)
(** ** Source spans and coverage bitmaps *)

(** Modelled from the spec: WordsRange (WordsRange.h is outside the files
    embedded here) is "a closed integer range [start, end]". *)
Record WordsRange := mkWordsRange { GetStartPos : nat; GetEndPos : nat }.

(** Modelled from the spec: WordsBitmap (WordsBitmap.h is outside the files
    embedded here) is "a fixed-length bit array of size N" that supports
    "test-covered, set-range, [...] overlap test with an arbitrary span". *)
Abbreviation WordsBitmap := (list bool).

(** The positions [start], ..., [end] of a span. *)
Definition positions (r : WordsRange) : list nat :=
  seq (GetStartPos r) (S (GetEndPos r) - GetStartPos r).

(** Modelled from the spec: WordsBitmap::GetValue, "test-covered". *)
Definition GetValue (bm : WordsBitmap) (pos : nat) : bool :=
  default false (bm !! pos).

(** Modelled from the spec: WordsBitmap::Overlap, the "overlap test with an
    arbitrary span": some position of the span is covered. *)
Definition Overlap (bm : WordsBitmap) (r : WordsRange) : bool :=
  existsb (GetValue bm) (positions r).

(** Modelled from the spec: WordsBitmap::SetValue, "set-range": every
    position of the span gets the value [v]. *)
Definition SetValue (bm : WordsBitmap) (r : WordsRange) (v : bool) : WordsBitmap :=
  foldr (fun pos acc => <[pos := v]> acc) bm (positions r).

(** Every word of the span [r] that lies inside the sentence is covered. *)
Definition Covers (bm : WordsBitmap) (r : WordsRange) : Prop :=
  forall pos : nat,
    (GetStartPos r <= pos <= GetEndPos r)%nat -> (pos < length bm)%nat ->
    bm !! pos = Some true.

(* ================================================================== *)
(** ** Translation options and hypotheses *)

#[local] Set Warnings "-register-all".

(** Modelled from the spec: TranslationOption (TranslationOption.h is outside
    the files embedded here) is a "record of: source span, target phrase,
    pre-computed feature scores, optional set of linked options"; the target
    phrase plays no part here. *)
Inductive TranslationOption := mkTranslationOption {
  GetSourceWordsRange : WordsRange;
  GetFutureScore : Z;
  GetLinkedTransOpts : list TranslationOption
}.

(** Modelled from the spec: the class Hypothesis (Hypothesis.h is outside the
    files embedded here), with its "predecessor", "applied translation
    option", "coverage bitmap" and "total score used for ranking".
    [Hypothesis] is a reserved word of Rocq: the type is called [Hypo]. *)
Inductive Hypo := mkHypothesis {
  GetPrevHypo : option Hypo;
  GetTranslationOption : option TranslationOption;
  GetWordsBitmap : WordsBitmap;
  GetTotalScore : Score
}.

(** Modelled from the spec: Hypothesis::CreateNext (Hypothesis.cpp is outside
    the files embedded here).  "Extension [extend(h, opt)] yields a new
    hypothesis with coverage = h.coverage ∪ opt.span (fails with
    IllegalCoverage if not disjoint)"; the scores are only filled in by
    CalcScore. *)
Definition CreateNext (h : Hypo) (transOpt : TranslationOption)
  : result Hypo :=
  if Overlap (GetWordsBitmap h) (GetSourceWordsRange transOpt)
  then Crash IllegalCoverage
  else Ok {| GetPrevHypo := Some h;
             GetTranslationOption := Some transOpt;
             GetWordsBitmap :=
               SetValue (GetWordsBitmap h) (GetSourceWordsRange transOpt) true;
             GetTotalScore := Fin 0 |}.

(* ================================================================== *)
(** ** std::vector with its capacity and its logical size *)

(** A vector owns [capacity] slots of storage, of which the first [size] hold
    constructed elements.  A slot that was reserved but never written is
    [None]. *)
Record vector (A : Type) := mkVector {
  v_slots : list (option A);
  v_size : nat
}.
Arguments mkVector {A} v_slots v_size.
Arguments v_slots {A} v.
Arguments v_size {A} v.

Definition capacity {A} (v : vector A) : nat := length (v_slots v).

(** A default-constructed vector. *)
Definition vector_empty {A} : vector A := mkVector [] 0.

(** [v.reserve(n)]: storage for at least [n] elements; the constructed
    elements move, the size does not change. *)
Definition reserve {A} (n : nat) (v : vector A) : vector A :=
  if (capacity v <? n)%nat
  then mkVector (take (v_size v) (v_slots v) ++ replicate (n - v_size v) None)
                (v_size v)
  else v.

(** [std::copy(first, last, v.begin())]: assigns through the destination
    iterator, slot by slot from slot 0.  Nothing is inserted: the size of [v]
    is what it was.  Writing past the allocation is a fault. *)
Definition std_copy {A} (b : Buffer) (src : list A) (v : vector A)
  : result (vector A) :=
  if (capacity v <? length src)%nat
  then Crash (BufferOverrun b)
  else Ok (mkVector (map Some src ++ drop (length src) (v_slots v)) (v_size v)).

(** Conversion of an [int] to [size_t] (64 bits). *)
Definition to_size_t (x : Z) : Z := x mod 2 ^ 64.

(** [v[i]]: unchecked indexing into the storage. *)
Definition vector_at {A} (b : Buffer) (v : vector A) (i : Z) : result A :=
  match v_slots v !! Z.to_nat (to_size_t i) with
  | Some (Some a) => Ok a
  | Some None => Crash (UninitialisedRead b (to_size_t i))
  | None => Crash (OutOfBounds b (to_size_t i))
  end.

(** [v[i] = a] on a [std::vector<bool>] that was constructed with all its
    elements, and [v[i]] read from it. *)
Definition bits_at (b : Buffer) (v : list bool) (i : Z) : result bool :=
  match v !! Z.to_nat i with
  | Some x => Ok x
  | None => Crash (OutOfBounds b i)
  end.

Definition bits_set (b : Buffer) (v : list bool) (i : Z) (x : bool)
  : result (list bool) :=
  if (Z.to_nat i <? length v)%nat
  then Ok (<[Z.to_nat i := x]> v)
  else Crash (OutOfBounds b i).

(* ================================================================== *)
(** ** Square positions and the priority queue of an edge *)

(** [typedef std::pair<Hypothesis*, std::pair<int, int> > SquarePosition]:
    this is how the code uses [first] and [second]. *)
Definition SquarePosition : Type := option Hypo * (Z * Z).

Definition InvalidSquarePosition : SquarePosition := (None, (-1, -1)).

(** The key of a queued position.  A position without hypothesis has no
    score; [pq_push] below never lets one be compared. *)
Definition position_score (p : SquarePosition) : Score :=
  match p.1 with
  | Some h => GetTotalScore h
  | None => NegInf
  end.

(** Modelled from the spec: the type of [m_queue] is declared in
    BitmapContainer.h, which is outside the files embedded here.  "The
    priority queue is ordered by the hypothesis's total score, highest first",
    "tie-break = insertion sequence number (ascending)".  The queue is the
    list of its entries in insertion order; its top is the first entry of
    maximal score. *)
Fixpoint pq_top (q : list SquarePosition) : option SquarePosition :=
  match q with
  | [] => None
  | p :: q' =>
      match pq_top q' with
      | None => Some p
      | Some p' =>
          if score_gt (position_score p') (position_score p)
          then Some p' else Some p
      end
  end.

(** Modelled from the spec: [m_queue.pop()] removes the top. *)
Fixpoint pq_pop (q : list SquarePosition) : list SquarePosition :=
  match q with
  | [] => []
  | p :: q' =>
      match pq_top q' with
      | None => q'
      | Some p' =>
          if score_gt (position_score p') (position_score p)
          then p :: pq_pop q' else q'
      end
  end.

(** Modelled from the spec: [m_queue.push(chunk)] puts the new entry behind
    those queued.  Ordering a queue of several entries reads their scores
    through their hypothesis pointers: pushing onto a queue that is not empty
    is a NULL dereference when an entry, old or new, has no hypothesis. *)
Definition pq_push (q : list SquarePosition) (p : SquarePosition)
  : result (list SquarePosition) :=
  match q with
  | [] => Ok [p]
  | _ :: _ =>
      if forallb (fun e : SquarePosition => bool_decide (is_Some e.1)) (p :: q)
      then Ok (q ++ [p])
      else Crash NullDereference
  end.

(* ================================================================== *)
(** ** Backwards edges *)

Section CubePruning.

(** The future-cost table ([SquareMatrix]) and the scoring of a hypothesis
    against it ([Hypothesis::CalcScore] and the feature functions behind it)
    are outside the files embedded here: they are parameters of the
    development.
    [CalcTotalScore fs h] is the total score [CalcScore] stores in [h]. *)
Variable SquareMatrix : Type.
Variable CalcTotalScore : SquareMatrix -> Hypo -> Score.

Definition CalcScore (futureScore : SquareMatrix) (h : Hypo) : Hypo :=
  {| GetPrevHypo := GetPrevHypo h;
     GetTranslationOption := GetTranslationOption h;
     GetWordsBitmap := GetWordsBitmap h;
     GetTotalScore := CalcTotalScore futureScore h |}.

(** The edge keeps a reference to the predecessor container only to read its
    hypotheses in the constructor; the record holds what the member functions
    use. *)
Record BackwardsEdge := mkBackwardsEdge {
  m_queue : list SquarePosition;
  m_seenPosition : list bool;
  m_initialized : bool;
  m_futurescore : SquareMatrix;
  m_kbest : nat;
  m_kbest_translations : vector TranslationOption;
  m_kbest_hypotheses : vector Hypo
}.

(** [BackwardsEdge::BackwardsEdge].  [hypotheses] is
    [prevBitmapContainer.GetHypotheses()] in iteration order.  The two loops
    that advance [optionsEnd] and [hypoEnd] have no other effect than to
    delimit the first [k] elements. *)
Definition new_BackwardsEdge (hypotheses : list Hypo)
    (translations : list TranslationOption) (futureScore : SquareMatrix)
    (KBestCubePruning : nat) : result BackwardsEdge :=
  let seen := replicate (Z.to_nat (to_size_t (Z.of_nat KBestCubePruning
                                              * Z.of_nat KBestCubePruning)))
                        false in
  let k := Nat.min KBestCubePruning (length translations) in
  kbest_translations ←
    std_copy KBestTranslations (take k translations) (reserve k vector_empty);
  let k := Nat.min KBestCubePruning (length hypotheses) in
  kbest_hypotheses ←
    std_copy KBestHypotheses (take k hypotheses) (reserve k vector_empty);
  mret {| m_queue := [];
          m_seenPosition := seen;
          m_initialized := false;
          m_futurescore := futureScore;
          m_kbest := KBestCubePruning;
          m_kbest_translations := kbest_translations;
          m_kbest_hypotheses := kbest_hypotheses |}.

Definition set_queue (q : list SquarePosition) (e : BackwardsEdge) :=
  mkBackwardsEdge q (m_seenPosition e) (m_initialized e) (m_futurescore e)
                  (m_kbest e) (m_kbest_translations e) (m_kbest_hypotheses e).

Definition set_seenPosition (s : list bool) (e : BackwardsEdge) :=
  mkBackwardsEdge (m_queue e) s (m_initialized e) (m_futurescore e)
                  (m_kbest e) (m_kbest_translations e) (m_kbest_hypotheses e).

Definition set_initialized (b : bool) (e : BackwardsEdge) :=
  mkBackwardsEdge (m_queue e) (m_seenPosition e) b (m_futurescore e)
                  (m_kbest e) (m_kbest_translations e) (m_kbest_hypotheses e).

(** The index [m_kbest * x + y], computed in [size_t] from the [int]s [x]
    and [y]. *)
Definition seen_index (e : BackwardsEdge) (x y : Z) : Z :=
  to_size_t (Z.of_nat (m_kbest e) * to_size_t x + to_size_t y).

(** [BackwardsEdge::SeenPosition] *)
Definition SeenPosition (x y : Z) (e : BackwardsEdge) : result bool :=
  bits_at SeenPositions (m_seenPosition e) (seen_index e x y).

(** The loop of [BackwardsEdge::CreateHypothesis] over the linked options. *)
Fixpoint CreateHypothesis_linked (futureScore : SquareMatrix)
    (linked : list TranslationOption) (newHypo : Hypo)
  : result (option Hypo) :=
  match linked with
  | [] => mret (Some (CalcScore futureScore newHypo))
  | iterLinked :: linked' =>
      if Overlap (GetWordsBitmap newHypo) (GetSourceWordsRange iterLinked)
      then mret None
      else
        newHypo' ← CreateNext (CalcScore futureScore newHypo) iterLinked;
        CreateHypothesis_linked futureScore linked' newHypo'
  end.

(** [BackwardsEdge::CreateHypothesis] *)
Definition CreateHypothesis (e : BackwardsEdge) (hypothesis : Hypo)
    (transOpt : TranslationOption) : result (option Hypo) :=
  newHypo ← CreateNext hypothesis transOpt;
  CreateHypothesis_linked (m_futurescore e) (GetLinkedTransOpts transOpt) newHypo.

(** [BackwardsEdge::Enqueue] *)
Definition Enqueue (x y : Z) (hypothesis : option Hypo) (e : BackwardsEdge)
  : result BackwardsEdge :=
  q ← pq_push (m_queue e) (hypothesis, (x, y));
  seen ← bits_set SeenPositions (m_seenPosition e) (seen_index e x y) true;
  mret (set_seenPosition seen (set_queue q e)).

(** [BackwardsEdge::Initialize].  The two arguments of [CreateHypothesis] are
    read from left to right. *)
Definition Initialize (e : BackwardsEdge) : result BackwardsEdge :=
  h ← vector_at KBestHypotheses (m_kbest_hypotheses e) 0;
  t ← vector_at KBestTranslations (m_kbest_translations e) 0;
  expanded ← CreateHypothesis e h t;
  e ← Enqueue 0 0 expanded e;
  seen ← bits_set SeenPositions (m_seenPosition e) 0 true;
  mret (set_initialized true (set_seenPosition seen e)).

(** One of the two branches of [BackwardsEdge::PushSuccessors]: the cell
    [(x, y)] is built from hypothesis [x] and option [y] and enqueued, unless
    [SeenPosition] says it was seen. *)
Definition PushSuccessor (x y : Z) (e : BackwardsEdge) : result BackwardsEdge :=
  seen ← SeenPosition x y e;
  if negb seen then
    h ← vector_at KBestHypotheses (m_kbest_hypotheses e) x;
    t ← vector_at KBestTranslations (m_kbest_translations e) y;
    newHypo ← CreateHypothesis e h t;
    match newHypo with
    | Some _ => Enqueue x y newHypo e
    | None => mret e
    end
  else mret e.

(** [BackwardsEdge::PushSuccessors] *)
Definition PushSuccessors (x y : Z) (e : BackwardsEdge) : result BackwardsEdge :=
  e ← PushSuccessor x (y + 1) e;
  PushSuccessor (x + 1) y e.

(** [BackwardsEdge::Empty] and [BackwardsEdge::Size] *)
Definition Empty (e : BackwardsEdge) : bool :=
  bool_decide (m_queue e = []).

Definition Size (e : BackwardsEdge) : nat := length (m_queue e).

(** [BackwardsEdge::Dequeue] *)
Definition Dequeue (keepValue : bool) (e : BackwardsEdge)
  : result (SquarePosition * BackwardsEdge) :=
  e ← (if m_initialized e then mret e else Initialize e);
  match pq_top (m_queue e) with
  | Some ret =>
      mret (ret, if keepValue then e else set_queue (pq_pop (m_queue e)) e)
  | None => mret (InvalidSquarePosition, e)
  end.

(* ================================================================== *)
(** ** Bitmap containers *)

(** What [BitmapContainer::FindKBestHypotheses] does to the objects it calls,
    in the order it does it.  Edges are named by their position in the
    iteration order of [m_edges]. *)
Inductive Event :=
| EvDequeue (edge : nat) (keepValue : bool) (ret : SquarePosition)
| EvAddPrune (hypo : option Hypo)
| EvPushSuccessors (edge : nat) (x y : Z).

(** A computation that records events and may stop on a fault; the events
    recorded before the fault are kept. *)
Definition traced (A : Type) : Type := list Event * result A.

#[global] Instance traced_ret : MRet traced := fun A a => ([], Ok a).
#[global] Instance traced_bind : MBind traced := fun A B k m =>
  match m with
  | (t, Ok a) => let '(t', r) := k a in (t ++ t', r)
  | (t, Crash f) => (t, Crash f)
  end.

Definition emit (ev : Event) : traced unit := ([ev], Ok tt).
Definition lift {A} (r : result A) : traced A := ([], r).

(** [p->member] for a pointer [p] that may be NULL. *)
Definition deref {A} (p : option A) : result A :=
  match p with
  | Some a => Ok a
  | None => Crash NullDereference
  end.

(** The address of an edge object, the key under which [m_edges] holds it. *)
Definition EdgePtr := nat.

(** [m_edges] is the sequence its iterator yields, [m_hypotheses] likewise.
    The owning stack [m_stack] is only ever handed hypotheses through
    [AddPrune] (HypothesisStack.cpp is outside the files embedded here): the
    calls are recorded as [EvAddPrune] events. *)
Record BitmapContainer := mkBitmapContainer {
  m_bitmap : WordsBitmap;
  m_hypotheses : list Hypo;
  m_edges : list (EdgePtr * BackwardsEdge);
  m_kbest_container : nat
}.

(** [BitmapContainer::BitmapContainer] *)
Definition new_BitmapContainer (bitmap : WordsBitmap) (KBestCubePruning : nat)
  : BitmapContainer :=
  {| m_bitmap := bitmap; m_hypotheses := []; m_edges := [];
     m_kbest_container := KBestCubePruning |}.

Definition GetHypotheses (c : BitmapContainer) : list Hypo := m_hypotheses c.
Definition GetBackwardsEdges (c : BitmapContainer) := m_edges c.

Definition set_edges (edges : list (EdgePtr * BackwardsEdge))
    (c : BitmapContainer) : BitmapContainer :=
  mkBitmapContainer (m_bitmap c) (m_hypotheses c) edges (m_kbest_container c).

(** The [for] loop of [FindKBestHypotheses] from the edge at position [i] on:
    every edge is peeked, and [bestEdge] and [bestScore] are updated when its
    top scores strictly higher. *)
Fixpoint FindBestEdge (edges : list (EdgePtr * BackwardsEdge)) (i : nat)
    (bestEdge : option nat) (bestScore : Score)
  : traced (list (EdgePtr * BackwardsEdge) * (option nat * Score)) :=
  match edges with
  | [] => mret ([], (bestEdge, bestScore))
  | (p, e) :: edges' =>
      '(current, e) ← lift (Dequeue true e);
      _ ← emit (EvDequeue i true current);
      h ← lift (deref current.1);
      let better := score_gt (GetTotalScore h) bestScore in
      '(edges', best) ←
        FindBestEdge edges' (S i)
          (if better then Some i else bestEdge)
          (if better then GetTotalScore h else bestScore);
      mret ((p, e) :: edges', best)
  end.

(** [BitmapContainer::FindKBestHypotheses] *)
Definition FindKBestHypotheses (c : BitmapContainer) : traced BitmapContainer :=
  match m_edges c with
  | [] => mret c
  | _ :: _ =>
      '(edges, (bestEdge, bestScore)) ← FindBestEdge (m_edges c) 0 None NegInf;
      match bestEdge with
      | None => lift (Crash AssertionViolated)
      | Some i =>
          '(p, e) ← lift (deref (edges !! i));
          '(pos, e) ← lift (Dequeue false e);
          _ ← emit (EvDequeue i false pos);
          let bestHypo := pos.1 in
          _ ← emit (EvAddPrune bestHypo);
          let x := pos.2.1 in
          let y := pos.2.2 in
          _ ← emit (EvPushSuccessors i x y);
          e ← lift (PushSuccessors x y e);
          mret (set_edges (<[i := (p, e)]> edges) c)
      end
  end.

(** The calls a container makes on one of its edges over successive
    invocations of [FindKBestHypotheses]: the edge is peeked
    ([Dequeue(true)]), or its top is popped ([Dequeue(false)]) and the
    successors of the popped position are pushed.  [run_edge] returns the
    popped positions in the order of the pops. *)
Inductive EdgeOp := OpPeek | OpPop.

Fixpoint run_edge (ops : list EdgeOp) (e : BackwardsEdge)
  : result (list SquarePosition * BackwardsEdge) :=
  match ops with
  | [] => mret ([], e)
  | OpPeek :: ops' =>
      '(_, e) ← Dequeue true e;
      run_edge ops' e
  | OpPop :: ops' =>
      '(pos, e) ← Dequeue false e;
      e ← PushSuccessors pos.2.1 pos.2.2 e;
      '(pops, e) ← run_edge ops' e;
      mret (pos :: pops, e)
  end.

(** The cell [(x, y)] of the grid of an edge: the hypothesis built from
    predecessor hypothesis [x] and translation option [y]. *)
Definition cell (e : BackwardsEdge) (x y : Z) : result (option Hypo) :=
  h ← vector_at KBestHypotheses (m_kbest_hypotheses e) x;
  t ← vector_at KBestTranslations (m_kbest_translations e) y;
  CreateHypothesis e h t.

End CubePruning.

Arguments mkBackwardsEdge {SquareMatrix}.
Arguments m_queue {SquareMatrix} e : rename.
Arguments m_seenPosition {SquareMatrix} e : rename.
Arguments m_initialized {SquareMatrix} e : rename.
Arguments m_futurescore {SquareMatrix} e : rename.
Arguments m_kbest {SquareMatrix} e : rename.
Arguments m_kbest_translations {SquareMatrix} e : rename.
Arguments m_kbest_hypotheses {SquareMatrix} e : rename.
Arguments mkBitmapContainer {SquareMatrix}.
Arguments m_bitmap {SquareMatrix} c : rename.
Arguments m_hypotheses {SquareMatrix} c : rename.
Arguments m_edges {SquareMatrix} c : rename.
Arguments m_kbest_container {SquareMatrix} c : rename.
Arguments CalcScore {SquareMatrix}.
Arguments new_BackwardsEdge {SquareMatrix}.
Arguments set_queue {SquareMatrix}.
Arguments set_seenPosition {SquareMatrix}.
Arguments set_initialized {SquareMatrix}.
Arguments seen_index {SquareMatrix}.
Arguments SeenPosition {SquareMatrix}.
Arguments CreateHypothesis_linked {SquareMatrix}.
Arguments CreateHypothesis {SquareMatrix}.
Arguments Enqueue {SquareMatrix}.
Arguments Initialize {SquareMatrix}.
Arguments PushSuccessor {SquareMatrix}.
Arguments PushSuccessors {SquareMatrix}.
Arguments Empty {SquareMatrix}.
Arguments Size {SquareMatrix}.
Arguments Dequeue {SquareMatrix}.
Arguments new_BitmapContainer {SquareMatrix}.
Arguments GetHypotheses {SquareMatrix}.
Arguments GetBackwardsEdges {SquareMatrix}.
Arguments set_edges {SquareMatrix}.
Arguments FindBestEdge {SquareMatrix}.
Arguments FindKBestHypotheses {SquareMatrix}.
Arguments run_edge {SquareMatrix}.
Arguments cell {SquareMatrix}.

(* ================================================================== *)
(** ** The destructor of a backwards edge *)

(** The loop of [BackwardsEdge::~BackwardsEdge],
    [for (q_iter = 0; q_iter < m_queue.size(); q_iter++)]: each round deletes
    the top of the queue and pops it, and the bound is read again from the
    queue that is left.  [destroy_loop] returns the queue the loop leaves and
    the positions it deleted; a round shortens the queue by one, so [fuel]
    rounds are enough when [fuel] is the size of the queue. *)
Fixpoint destroy_loop (fuel q_iter : nat) (q deleted : list SquarePosition)
  : list SquarePosition * list SquarePosition :=
  match fuel with
  | O => (q, deleted)
  | S fuel =>
      if (q_iter <? length q)%nat then
        match pq_top q with
        | Some ret => destroy_loop fuel (S q_iter) (pq_pop q) (deleted ++ [ret])
        | None => (q, deleted)
        end
      else (q, deleted)
  end.

(** [BackwardsEdge::~BackwardsEdge]: the queue it leaves and the positions
    it deleted. *)
Definition delete_BackwardsEdge {SquareMatrix} (e : BackwardsEdge SquareMatrix)
  : list SquarePosition * list SquarePosition :=
  destroy_loop (length (m_queue e)) 0 (m_queue e) [].

(* ================================================================== *)
(** ** Exceptions and outcomes of the functions of StaticData *)

(** The exceptions the functions throw ([UTIL_THROW], [UTIL_THROW_IF2]). *)
Inductive Exception :=
| IncorrectUnknownLHS (line : string)
| MalformedMapping
| NoPhraseDictionary (index : nat)
| NoGenerationDictionary (index : nat)
| NullFertilityInsertion
| OnlyOneLine
| OldNameNewName.

(** What a call comes to: it returns, it throws, it indexes
    [m_decodeGraphs], which holds [size] graphs, at [index >= size], or it
    indexes [maxChartSpans], which holds [size] spans, at [index >= size]. *)
Inductive outcome (A : Type) :=
| Returned (a : A)
| Thrown (e : Exception)
| OutOfRange (index size : nat)
| SpanOutOfRange (index size : nat).
Arguments Returned {A} a.
Arguments Thrown {A} e.
Arguments OutOfRange {A} index size.
Arguments SpanOutOfRange {A} index size.

#[global] Instance outcome_ret : MRet outcome := fun A a => Returned a.
#[global] Instance outcome_bind : MBind outcome := fun A B k m =>
  match m with
  | Returned a => k a
  | Thrown e => Thrown e
  | OutOfRange index size => OutOfRange index size
  | SpanOutOfRange index size => SpanOutOfRange index size
  end.
#[global] Instance outcome_fmap : FMap outcome := fun A B f m =>
  match m with
  | Returned a => Returned (f a)
  | Thrown e => Thrown e
  | OutOfRange index size => OutOfRange index size
  | SpanOutOfRange index size => SpanOutOfRange index size
  end.

(* ================================================================== *)
(** ** StaticData::LoadData, up to the pruning settings *)

Local Open Scope string_scope.

(** The object of class Parameter: every parameter that was given on the
    command line or in the configuration file, with its values (PARAM_VEC). *)
Abbreviation PARAMS := (gmap string (list string)).

(** [parameter->GetParam(name)]: the values of the parameter, or NULL. *)
Definition GetParam (parameter : PARAMS) (name : string)
  : option (list string) :=
  parameter !! name.

(** The test [params && params->size()]. *)
Definition given (params : option (list string)) : bool :=
  match params with
  | Some (_ :: _) => true
  | _ => false
  end.

(** Modelled from the spec: [Parameter::SetParameter] is declared in
    Parameter.h, which is outside the files embedded here.  A configuration
    option has the value given for it, or its default ("distortionLimit (int,
    default -1 meaning unlimited)"). *)
Definition SetParameter {T} (scan : string -> T) (parameter : PARAMS)
    (name : string) (defaultValue : T) : T :=
  match GetParam parameter name with
  | Some (value :: _) => scan value
  | _ => defaultValue
  end.

(** The values of [InputTypeEnum] (TypeDef.h), as LoadData itself names them:
    input type 1 is a confusion net, 2 a word lattice, 3 a tree. *)
Definition SentenceInput : Z := 0.
Definition ConfusionNetworkInput : Z := 1.
Definition WordLatticeInput : Z := 2.
Definition TreeInputType : Z := 3.

(** The members of StaticData that the statements modelled below read or that
    the properties are about.  A member that was never assigned holds whatever
    the record says. *)
Record StaticData := mkStaticData {
  m_inputType : Z;
  m_maxDistortion : Z;
  m_minHypoStackDiversity : nat
}.

Section LoadData.

(** [Scan<int>], [Scan<size_t>] and [Tokenize] (Util.h), the lines that
    [InputFileStream] and [getline] read from the file of a given path, the
    compile-time switch HAVE_PROTOBUF, the search algorithm [Normal]
    (TypeDef.h) and [IsChart()] (StaticData.h) as a function of the member
    [m_searchAlgorithm], and the statements of LoadData that follow the
    stack-diversity block are parameters. *)
Variable ScanInt : string -> Z.
Variable ScanSizeT : string -> nat.
Variable Tokenize : string -> list string.
Variable InputFileStream : string -> list string.
Variable HAVE_PROTOBUF : bool.
Variable Normal : Z.
Variable IsChart : Z -> bool.
Variable LoadData_rest : PARAMS -> StaticData -> outcome (bool * StaticData).

(** The loop of [StaticData::LoadNonTerminals] over the lines of the file of
    "unknown-lhs": a line that has not two tokens is an exception. *)
Fixpoint LoadNonTerminals_lines (lines : list string) : outcome unit :=
  match lines with
  | [] => mret tt
  | line :: lines' =>
      if negb (length (Tokenize line) =? 2)%nat
      then Thrown (IncorrectUnknownLHS line)
      else LoadNonTerminals_lines lines'
  end.

(** [StaticData::LoadNonTerminals] and
    [StaticData::LoadChartDecodingParameters], as far as they can leave by an
    exception.  The members they assign are read by no statement below. *)
Definition LoadNonTerminals (parameter : PARAMS) : outcome unit :=
  match GetParam parameter "unknown-lhs" with
  | Some (filePath :: _) => LoadNonTerminals_lines (InputFileStream filePath)
  | _ => mret tt
  end.

Definition LoadChartDecodingParameters (parameter : PARAMS) : outcome unit :=
  LoadNonTerminals parameter.

(** The statements [m_parameter->SetParameter(m_searchAlgorithm,
    "search-algorithm", Normal); if (IsChart()) LoadChartDecodingParameters();]
    at the head of LoadData. *)
Definition LoadData_search_algorithm (parameter : PARAMS) : outcome unit :=
  let m_searchAlgorithm :=
    SetParameter ScanInt parameter "search-algorithm" Normal in
  if IsChart m_searchAlgorithm then LoadChartDecodingParameters parameter
  else mret tt.

(** The format checks of LoadData that come before the pruning settings; each
    one that does not hold makes LoadData return false on the spot. *)
Definition n_best_list_ok (parameter : PARAMS) : bool :=
  match GetParam parameter "n-best-list" with
  | Some params => (2 <=? length params)%nat
  | None => true
  end.

Definition lattice_samples_ok (parameter : PARAMS) : bool :=
  match GetParam parameter "lattice-samples" with
  | Some params => (length params =? 2)%nat
  | None => true
  end.

Definition output_search_graph_ok (parameter : PARAMS) : bool :=
  if given (GetParam parameter "output-search-graph")
  then (length (default [] (GetParam parameter "output-search-graph")) =? 1)%nat
  else if given (GetParam parameter "output-search-graph-extended")
  then (length (default [] (GetParam parameter "output-search-graph-extended"))
        =? 1)%nat
  else true.

Definition output_search_graph_pb_ok (parameter : PARAMS) : bool :=
  if HAVE_PROTOBUF && given (GetParam parameter "output-search-graph-pb")
  then (length (default [] (GetParam parameter "output-search-graph-pb")) =? 1)%nat
  else true.

(** [StaticData::LoadData].  Assignments to members that no statement below
    reads are left out. *)
Definition LoadData (parameter : PARAMS) (sd : StaticData)
  : outcome (bool * StaticData) :=
  _ ← LoadData_search_algorithm parameter;
  let sd := mkStaticData (SetParameter ScanInt parameter "inputtype" SentenceInput)
                         (m_maxDistortion sd) (m_minHypoStackDiversity sd) in
  if negb (n_best_list_ok parameter) then mret (false, sd)
  else if negb (lattice_samples_ok parameter) then mret (false, sd)
  else if negb (output_search_graph_ok parameter) then mret (false, sd)
  else if negb (output_search_graph_pb_ok parameter) then mret (false, sd)
  else
    let sd := mkStaticData (m_inputType sd)
                           (SetParameter ScanInt parameter "distortion-limit" (-1)%Z)
                           (m_minHypoStackDiversity sd) in
    let sd := mkStaticData (m_inputType sd) (m_maxDistortion sd) 0%nat in
    let params := GetParam parameter "stack-diversity" in
    if given params then
      if (15 <? m_maxDistortion sd)%Z then mret (false, sd)
      else if (m_inputType sd =? WordLatticeInput)%Z then mret (false, sd)
      else
        let sd := mkStaticData (m_inputType sd) (m_maxDistortion sd)
                    (ScanSizeT (default EmptyString (head (default [] params)))) in
        LoadData_rest parameter sd
    else LoadData_rest parameter sd.

End LoadData.

Local Close Scope string_scope.

(* ================================================================== *)
(** ** StaticData::SetExecPath and StaticData::CheckWeights *)

Local Open Scope string_scope.

(** [s.find(c)] and [s.rfind(c)] for a pattern [c] of one character: the
    index of its first and of its last occurrence in [s], [None] for
    [string::npos]. *)
Fixpoint string_find (c : ascii) (s : string) : option nat :=
  match s with
  | EmptyString => None
  | String a s' => if Ascii.eqb a c then Some 0%nat else S <$> string_find c s'
  end.

Fixpoint string_rfind (c : ascii) (s : string) : option nat :=
  match s with
  | EmptyString => None
  | String a s' =>
      match string_rfind c s' with
      | Some pos => Some (S pos)
      | None => if Ascii.eqb a c then Some 0%nat else None
      end
  end.

(** [s.substr(0, n)]; with [n = string::npos] it is all of [s]. *)
Definition substr_0 (s : string) (n : option nat) : string :=
  match n with
  | Some n => String.substring 0 n s
  | None => s
  end.

(** [StaticData::SetExecPath], as a function of the member [m_binPath] it
    assigns. *)
Definition SetExecPath (path : string) (m_binPath : string) : string :=
  match string_rfind "/" path with
  | Some pos => substr_0 path (Some pos)
  | None => m_binPath
  end.

(** The first loop of [StaticData::CheckWeights], over the descriptions of
    the feature functions: it returns the weight names that are left and the
    feature names. *)
Definition CheckWeights_features (ffs : list string) (weightNames : gset string)
  : gset string * gset string :=
  foldl (fun '(weightNames, featureNames) descr =>
           (weightNames ∖ {[descr]}, featureNames ∪ {[descr]}))
        (weightNames, ∅) ffs.

(** The name of the feature a sparse weight belongs to: the weight name up
    to its first underscore, [substr(0, find)] of the name; all of the name
    when it has no underscore. *)
Definition sparse_feature_name (weight : string) : string :=
  substr_0 weight (string_find "_" weight).

(** [StaticData::CheckWeights].  [weightNames] is
    [m_parameter->GetWeightNames()], [ffs] the descriptions of the feature
    functions in the order of [FeatureFunction::GetFeatureFunctions()].  The
    second loop erases, of the weight names that are left, those whose
    prefix is a feature name.  What is written to [cerr] is left out. *)
Definition CheckWeights (weightNames : gset string) (ffs : list string) : bool :=
  let '(weightNames, featureNames) := CheckWeights_features ffs weightNames in
  let weightNames :=
    filter (fun weight => sparse_feature_name weight ∉ featureNames)
           weightNames in
  bool_decide (weightNames = ∅).

Local Close Scope string_scope.

(* ================================================================== *)
(** ** StaticData::LoadDecodeGraphs and StaticData::OverrideFeatureNames *)

Inductive DecodeType := Translate | Generate | InsertNullFertilityWord.

(** [n + 1] in [size_t]. *)
Definition size_t_succ (n : nat) : nat :=
  Z.to_nat (to_size_t (Z.of_nat n + 1)).

Local Open Scope string_scope.

Section LoadDecodeGraphs.

(** [Tokenize] and [Scan<size_t>] (Util.h), whether the macro
    [VERBOSE(level, ...)] (Util.h) evaluates and writes its argument, the
    feature functions a decoding step is given and those it leaves
    ([FeatureFunction::GetFeatureFunctions],
    [DecodeStep::GetFeaturesRemaining]), [IsChart()],
    [DEFAULT_MAX_CHART_SPAN] and the sizes of [PhraseDictionary::GetColl()]
    and [GenerationDictionary::GetColl()] are parameters. *)
Variable Tokenize : string -> list string.
Variable ScanSizeT : string -> nat.
Variable VERBOSE : nat -> bool.
Variable Features : Type.
Variable GetFeatureFunctions : Features.
Variable IsChart : bool.
Variable DEFAULT_MAX_CHART_SPAN : nat.
Variable pts_size : nat.
Variable gens_size : nat.

(** A decoding step as [LoadDecodeGraphs] constructs it: of the dictionary
    number [index], after the step [prev], with the features remaining. *)
Inductive DecodeStep :=
| mkDecodeStep (decodeType : DecodeType) (index : nat)
               (prev : option DecodeStep) (features : Features).

Variable GetFeaturesRemaining : DecodeStep -> Features.

(** A decoding graph: the position and the maximal chart span it was
    constructed with, the steps added to it, and the backoff once it was
    set. *)
Record DecodeGraph := mkDecodeGraph {
  dg_position : nat;
  dg_maxChartSpan : option nat;
  dg_steps : list DecodeStep;
  dg_backoff : option nat
}.

(** [DecodeGraph::Add] and [DecodeGraph::SetBackoff] *)
Definition Add (decodeStep : DecodeStep) (g : DecodeGraph) : DecodeGraph :=
  mkDecodeGraph (dg_position g) (dg_maxChartSpan g)
                (dg_steps g ++ [decodeStep]) (dg_backoff g).

Definition SetBackoff (backoff : nat) (g : DecodeGraph) : DecodeGraph :=
  mkDecodeGraph (dg_position g) (dg_maxChartSpan g) (dg_steps g) (Some backoff).

(** What the loop over the mapping lines carries from one line to the next. *)
Record MappingState := mkMappingState {
  m_decodeGraphs : list DecodeGraph;
  prev : option DecodeStep;
  prevDecodeGraphInd : nat;
  featuresRemaining : Features
}.

(** The body of the loop of [LoadDecodeGraphs] for the line [mapping].  When
    a graph is created for the chart decoder, [VERBOSE(1, ...)] reads
    [maxChartSpans[decodeGraphInd]] with no test of the index. *)
Definition LoadDecodeGraphs_line (maxChartSpans : list nat) (mapping : string)
    (st : MappingState) : outcome MappingState :=
  let token := Tokenize mapping in
  '(decodeGraphInd, decodeType, index, prev, featuresRemaining) ←
    match token with
    | [token0; token1] =>
        mret (0%nat,
              (if String.eqb token0 "T" then Translate else Generate),
              ScanSizeT token1, prev st, featuresRemaining st)
    | [token0; token1; token2] =>
        let decodeGraphInd := ScanSizeT token0 in
        if negb (decodeGraphInd =? prevDecodeGraphInd st)%nat
           && negb (decodeGraphInd =? size_t_succ (prevDecodeGraphInd st))%nat
        then Thrown MalformedMapping
        else
          let prev := if (prevDecodeGraphInd st <? decodeGraphInd)%nat
                      then None else prev st in
          let featuresRemaining :=
            if (prevDecodeGraphInd st <? decodeGraphInd)%nat
            then GetFeatureFunctions else featuresRemaining st in
          mret (decodeGraphInd,
                (if String.eqb token1 "T" then Translate else Generate),
                ScanSizeT token2, prev, featuresRemaining)
    | _ => Thrown MalformedMapping
    end;
  decodeStep ←
    match decodeType with
    | Translate =>
        if (pts_size <=? index)%nat then Thrown (NoPhraseDictionary index)
        else mret (mkDecodeStep Translate index prev featuresRemaining)
    | Generate =>
        if (gens_size <=? index)%nat then Thrown (NoGenerationDictionary index)
        else mret (mkDecodeStep Generate index prev featuresRemaining)
    | InsertNullFertilityWord => Thrown NullFertilityInsertion
    end;
  let featuresRemaining := GetFeaturesRemaining decodeStep in
  let graphs := m_decodeGraphs st in
  graphs ←
    (if (length graphs <? size_t_succ decodeGraphInd)%nat then
       maxChartSpan ←
         (if IsChart then
            let maxChartSpan :=
              default DEFAULT_MAX_CHART_SPAN (maxChartSpans !! decodeGraphInd) in
            if VERBOSE 1 && (length maxChartSpans <=? decodeGraphInd)%nat
            then SpanOutOfRange decodeGraphInd (length maxChartSpans)
            else mret (Some maxChartSpan)
          else mret None);
       mret (graphs ++ [mkDecodeGraph (length graphs) maxChartSpan [] None])%list
     else mret graphs);
  match graphs !! decodeGraphInd with
  | Some g =>
      mret (mkMappingState (<[decodeGraphInd := Add decodeStep g]> graphs)
                           (Some decodeStep) decodeGraphInd featuresRemaining)
  | None => OutOfRange decodeGraphInd (length graphs)
  end.

(** The loop over the mapping lines. *)
Fixpoint LoadDecodeGraphs_loop (maxChartSpans : list nat)
    (mappingVector : list string) (st : MappingState) : outcome MappingState :=
  match mappingVector with
  | [] => mret st
  | mapping :: mappingVector' =>
      st ← LoadDecodeGraphs_line maxChartSpans mapping st;
      LoadDecodeGraphs_loop maxChartSpans mappingVector' st
  end.

(** [StaticData::LoadDecodeGraphs], as a function of the member
    [m_decodeGraphs]. *)
Definition LoadDecodeGraphs (parameter : PARAMS) (graphs : list DecodeGraph)
  : outcome (bool * list DecodeGraph) :=
  let mappingVector :=
    if given (GetParam parameter "mapping")
    then default [] (GetParam parameter "mapping") else [] in
  let maxChartSpans :=
    if given (GetParam parameter "max-chart-span")
    then ScanSizeT <$> default [] (GetParam parameter "max-chart-span")
    else [] in
  st ← LoadDecodeGraphs_loop maxChartSpans mappingVector
         (mkMappingState graphs None 0 GetFeatureFunctions);
  let backoffVector := default [] (GetParam parameter "decoding-graph-backoff") in
  mret (true,
        imap (fun i decodeGraph =>
                match backoffVector !! i with
                | Some backoff => SetBackoff (ScanSizeT backoff) decodeGraph
                | None => decodeGraph
                end)
             (m_decodeGraphs st)).

(** The loop of [StaticData::OverrideFeatureNames] over the tokens, two at a
    time: [ret[oldName] = newName]. *)
Fixpoint overwrite_names (toks : list string) (ret : gmap string string)
  : gmap string string :=
  match toks with
  | oldName :: newName :: toks' =>
      overwrite_names toks' (<[oldName := newName]> ret)
  | _ => ret
  end.

(** [StaticData::OverrideFeatureNames] *)
Definition OverrideFeatureNames (parameter : PARAMS) (m_useS2TDecoder : bool)
  : outcome (gmap string string) :=
  let params := GetParam parameter "feature-name-overwrite" in
  ret ←
    (if given params then
       if negb (length (default [] params) =? 1)%nat then Thrown OnlyOneLine
       else
         let toks := Tokenize (default EmptyString (head (default [] params))) in
         if negb (length toks mod 2 =? 0)%nat then Thrown OldNameNewName
         else mret (overwrite_names toks ∅)
     else mret ∅);
  mret (if m_useS2TDecoder
        then <["PhraseDictionaryScope3" := "RuleTable"]>
               (<["PhraseDictionaryMemory" := "RuleTable"]> ret)
        else ret).

End LoadDecodeGraphs.

Arguments mkDecodeStep {Features}.
Arguments mkDecodeGraph {Features}.
Arguments dg_position {Features} g : rename.
Arguments dg_maxChartSpan {Features} g : rename.
Arguments dg_steps {Features} g : rename.
Arguments dg_backoff {Features} g : rename.
Arguments Add {Features}.
Arguments SetBackoff {Features}.
Arguments mkMappingState {Features}.
Arguments m_decodeGraphs {Features} st : rename.
Arguments prev {Features} st : rename.
Arguments prevDecodeGraphInd {Features} st : rename.
Arguments featuresRemaining {Features} st : rename.
Arguments LoadDecodeGraphs_line _ _ _ {Features}.
Arguments LoadDecodeGraphs_loop _ _ _ {Features}.
Arguments LoadDecodeGraphs _ _ _ {Features}.

Local Close Scope string_scope.

(* ================================================================== *)
(** ** Notions used in the statements *)

(** The coverage once the linked options [linked] were applied, one after the
    other, to a hypothesis of coverage [bm]. *)
Definition coverage_after (bm : WordsBitmap) (linked : list TranslationOption)
  : WordsBitmap :=
  foldl (fun bm l => SetValue bm (GetSourceWordsRange l) true) bm linked.

(** Some linked option overlaps the coverage accumulated at the moment it is
    applied: the coverage [bm] extended by the linked options before it. *)
Definition linked_overlap (bm : WordsBitmap) (linked : list TranslationOption)
  : Prop :=
  exists (i : nat) (l : TranslationOption),
    linked !! i = Some l /\
    Overlap (coverage_after bm (take i linked)) (GetSourceWordsRange l) = true.

(** The same, as a test. *)
Fixpoint linked_overlapb (bm : WordsBitmap) (linked : list TranslationOption)
  : bool :=
  match linked with
  | [] => false
  | l :: linked' =>
      Overlap bm (GetSourceWordsRange l)
      || linked_overlapb (SetValue bm (GetSourceWordsRange l) true) linked'
  end.

(** The queue holds positions with a hypothesis, or the single position that
    [Initialize] enqueued without one. *)
Definition queue_ok (q : list SquarePosition) : Prop :=
  Forall (fun pos : SquarePosition => is_Some pos.1) q
  \/ exists xy, q = [(None, xy)].

(** [e'] has the grid of [e]: the same snapshots and future scores. *)
Definition same_grid {SquareMatrix} (e e' : BackwardsEdge SquareMatrix)
  : Prop :=
  m_kbest_hypotheses e' = m_kbest_hypotheses e
  /\ m_kbest_translations e' = m_kbest_translations e
  /\ m_futurescore e' = m_futurescore e.

(** What holds of an edge between the calls of [run_edge], when [last] is the
    score of the last popped hypothesis. *)
Definition edge_inv {SquareMatrix}
    (CalcTotalScore : SquareMatrix -> Hypo -> Score)
    (e : BackwardsEdge SquareMatrix) (last : option Score) : Prop :=
  Z.of_nat (capacity (m_kbest_hypotheses e)) < 2 ^ 64
  /\ Z.of_nat (capacity (m_kbest_translations e)) < 2 ^ 64
  /\ (forall pos h, pos ∈ m_queue e -> pos.1 = Some h ->
                    cell CalcTotalScore e pos.2.1 pos.2.2 = Ok (Some h))
  /\ queue_ok (m_queue e)
  /\ (forall s, last = Some s ->
                Forall (fun pos => is_Some pos.1
                                   /\ score_le (position_score pos) s)
                       (m_queue e))
  /\ (m_initialized e = false -> m_queue e = [] /\ last = None).

(** The format checks that come before the pruning settings all hold. *)
Definition format_ok (HAVE_PROTOBUF : bool) (parameter : PARAMS) : bool :=
  n_best_list_ok parameter && lattice_samples_ok parameter
  && output_search_graph_ok parameter
  && output_search_graph_pb_ok HAVE_PROTOBUF parameter.

(** The total scores of the popped positions that carry a hypothesis. *)
Definition pop_scores (pops : list SquarePosition) : list Score :=
  omap (fun pos : SquarePosition => GetTotalScore <$> pos.1) pops.

(** No cell of the grid of [e] scores higher than the cell to its left or
    the cell above it. *)
Definition grid_monotone {SquareMatrix}
    (CalcTotalScore : SquareMatrix -> Hypo -> Score)
    (e : BackwardsEdge SquareMatrix) : Prop :=
  forall (x y : Z) (h : Hypo),
    cell CalcTotalScore e x y = Ok (Some h) ->
    (forall h', cell CalcTotalScore e x (y + 1) = Ok (Some h') ->
                score_le (GetTotalScore h') (GetTotalScore h)) /\
    (forall h', cell CalcTotalScore e (x + 1) y = Ok (Some h') ->
                score_le (GetTotalScore h') (GetTotalScore h)).

(** [edges'] and [tops] are what peeking every edge of [edges] gives. *)
Definition peeked {SquareMatrix}
    (CalcTotalScore : SquareMatrix -> Hypo -> Score)
    (edges edges' : list (EdgePtr * BackwardsEdge SquareMatrix))
    (tops : list SquarePosition) : Prop :=
  Forall3 (fun pe pe' top =>
             pe'.1 = pe.1 /\ is_Some (top.1) /\
             Dequeue CalcTotalScore true pe.2 = Ok (top, pe'.2))
          edges edges' tops.

(** The best edge and best score the loop ends with, from the tops it saw. *)
Fixpoint best_of (tops : list SquarePosition) (i : nat)
    (bestEdge : option nat) (bestScore : Score) : option nat * Score :=
  match tops with
  | [] => (bestEdge, bestScore)
  | top :: tops' =>
      let better := score_gt (position_score top) bestScore in
      best_of tops' (S i) (if better then Some i else bestEdge)
              (if better then position_score top else bestScore)
  end.

(** The events of peeking the edges one after the other. *)
Definition peek_events (tops : list SquarePosition) : list Event :=
  imap (fun i top => EvDequeue i true top) tops.

Definition is_AddPrune (ev : Event) : bool :=
  match ev with EvAddPrune _ => true | _ => false end.

Definition is_pop (ev : Event) : bool :=
  match ev with EvDequeue _ false _ => true | _ => false end.

(** [e'] has the seen marks of [e] and possibly more: the vector of marks
    has the length it had, and no mark was cleared. *)
Definition seen_grows {SquareMatrix} (e e' : BackwardsEdge SquareMatrix)
  : Prop :=
  m_kbest e' = m_kbest e
  /\ same_grid e e'
  /\ length (m_seenPosition e') = length (m_seenPosition e)
  /\ (forall i, m_seenPosition e !! i = Some true ->
                m_seenPosition e' !! i = Some true).

(** The result of a pop is a position of the grid, not the sentinel
    [(NULL, (-1, -1))] of an empty queue. *)
Definition real_position (pos : SquarePosition) : Prop := pos.2 <> (-1, -1).

#[global] Instance real_position_dec (pos : SquarePosition)
  : Decision (real_position pos) :=
  decide (pos.2 <> (-1, -1)).

(** What holds between the calls of [run_edge] of an edge and the grid
    positions [popped] from it so far: the positions popped or queued are
    marked seen, and no two of them share an index of the vector of marks. *)
Definition pops_inv {SquareMatrix} (e : BackwardsEdge SquareMatrix)
    (popped : list SquarePosition) : Prop :=
  Z.of_nat (capacity (m_kbest_hypotheses e)) < 2 ^ 64
  /\ Z.of_nat (capacity (m_kbest_translations e)) < 2 ^ 64
  /\ (forall pos, pos ∈ popped ++ m_queue e ->
                  real_position pos
                  /\ SeenPosition pos.2.1 pos.2.2 e = Ok true)
  /\ NoDup ((fun pos : SquarePosition => seen_index e pos.2.1 pos.2.2)
              <$> (popped ++ m_queue e))
  /\ (m_initialized e = false -> m_queue e = [] /\ popped = []).

(** The character [c] occurs in [s]. *)
Fixpoint has_char (c : ascii) (s : string) : bool :=
  match s with
  | EmptyString => false
  | String a s' => Ascii.eqb a c || has_char c s'
  end.

(** The first mapping line has three tokens and names the decoding graph 1. *)
Definition starts_at_graph_one (Tokenize : string -> list string)
    (ScanSizeT : string -> nat) (mappingVector : list string) : bool :=
  match mappingVector with
  | mapping :: _ =>
      match Tokenize mapping with
      | [token0; _; _] => (ScanSizeT token0 =? 1)%nat
      | _ => false
      end
  | [] => false
  end.

(** Every graph is at the position it was constructed for and holds a
    step. *)
Definition graphs_ok {Features} (graphs : list (DecodeGraph Features)) : Prop :=
  forall k g, graphs !! k = Some g -> dg_position g = k /\ dg_steps g <> [].

(** The number of steps of all the graphs. *)
Definition count_steps {Features} (graphs : list (DecodeGraph Features)) : nat :=
  sum_list_with (fun g => length (dg_steps g)) graphs.

(** What a call of the loop of [LoadDecodeGraphs] can come to: when it
    returns, [P] holds of what it returns; it may throw; it never indexes
    [m_decodeGraphs] out of range; and it reads [maxChartSpans] out of range
    only for the log of the chart decoder. *)
Definition graphs_outcome {A} (IsChart : bool) (VERBOSE : nat -> bool)
    (maxChartSpans : list nat) (P : A -> Prop) (o : outcome A) : Prop :=
  match o with
  | Returned a => P a
  | Thrown _ => True
  | OutOfRange _ _ => False
  | SpanOutOfRange index size =>
      IsChart = true /\ VERBOSE 1%nat = true
      /\ size = length maxChartSpans /\ (size <= index)%nat
  end.

(** What holds of the state of the loop of [LoadDecodeGraphs] after [n]
    lines. *)
Definition mapping_inv {Features} (st : MappingState Features) (n : nat)
  : Prop :=
  (prevDecodeGraphInd st < length (m_decodeGraphs st))%nat
  /\ (length (m_decodeGraphs st) <= n)%nat
  /\ graphs_ok (m_decodeGraphs st)
  /\ count_steps (m_decodeGraphs st) = n.

(** The tokens of a line of "feature-name-overwrite" that lists the given
    pairs of an old and a new name. *)
Fixpoint tokens_of (pairs : list (string * string)) : list string :=
  match pairs with
  | [] => []
  | (oldName, newName) :: pairs' => oldName :: newName :: tokens_of pairs'
  end.

(** The snapshots of the edge hold at most K elements each, and K is a
    [size_t]: so the constructor builds an edge, and no member function
    changes K or a snapshot. *)
Definition snapshots_within_K {SquareMatrix} (e : BackwardsEdge SquareMatrix)
  : Prop :=
  (capacity (m_kbest_hypotheses e) <= m_kbest e)%nat
  /\ (capacity (m_kbest_translations e) <= m_kbest e)%nat
  /\ Z.of_nat (m_kbest e) < 2 ^ 64.

(* ================================================================== *)
(** ** Example data *)

Definition opt (s e : nat) (score : Z) (linked : list TranslationOption)
  : TranslationOption :=
  mkTranslationOption (mkWordsRange s e) score linked.

(** The total score of a hypothesis in the examples: the scores of the
    options applied along its chain of predecessors. *)
Fixpoint chain_score (h : Hypo) : Z :=
  match h with
  | mkHypothesis prev o _ _ =>
      match o with Some o => GetFutureScore o | None => 0 end
      + match prev with Some p => chain_score p | None => 0 end
  end.

Definition sum_score (_ : unit) (h : Hypo) : Score := Fin (chain_score h).

(** Two hypotheses that cover word 0 of a three-word sentence. *)
Definition hypo_a : Hypo :=
  mkHypothesis None (Some (opt 0 0 (-1) [])) [true; false; false] (Fin (-1)).
Definition hypo_b : Hypo :=
  mkHypothesis None (Some (opt 0 0 (-2) [])) [true; false; false] (Fin (-2)).

(** The empty hypothesis of a three-word sentence. *)
Definition hypo_seed : Hypo :=
  mkHypothesis None None [false; false; false] (Fin 0).

(** An option for word 1; one whose linked option is for word 2; one whose
    linked option is for word 1 again. *)
Definition opt_1 (score : Z) : TranslationOption := opt 1 1 score [].
Definition opt_linked : TranslationOption := opt 0 0 (-1) [opt 2 2 (-1) []].
Definition opt_clash : TranslationOption := opt 1 1 (-3) [opt 1 1 (-1) []].

(** The value of a computation that is known to complete. *)
Definition from_ok {A} (d : A) (r : result A) : A :=
  match r with
  | Ok a => a
  | Crash _ => d
  end.

(** An edge with nothing in it, the default of [from_ok] below. *)
Definition edge_none : BackwardsEdge unit :=
  mkBackwardsEdge [] [] false tt 0 vector_empty vector_empty.

(** The edge of two hypotheses and one option, with K = 2, after its first
    pop. *)
Definition edge_2x1_popped : BackwardsEdge unit :=
  from_ok edge_none
    ('(_, e) ← (e ← new_BackwardsEdge [hypo_a; hypo_b] [opt_1 (-1)] tt 2;
                Dequeue sum_score false e);
     mret e).

(** The edge of two hypotheses and two options of which the second cannot be
    applied, with K = 2, after its first pop. *)
Definition edge_clash_popped : BackwardsEdge unit :=
  from_ok edge_none
    ('(_, e) ← (e ← new_BackwardsEdge [hypo_a; hypo_b] [opt_1 (-1); opt_clash] tt 2;
                Dequeue sum_score false e);
     mret e).

Definition hypo_c : Hypo :=
  mkHypothesis None (Some (opt 0 0 (-5) [])) [true; false; false] (Fin (-5)).

(** The edge of three hypotheses and three options, with K = 3. *)
Definition edge_3x3 : BackwardsEdge unit :=
  from_ok edge_none
    (new_BackwardsEdge [hypo_a; hypo_b; hypo_c]
       [opt_1 (-1); opt_1 (-3); opt_1 (-4)] tt 3).

(** That edge once initialised and with no position left in its queue. *)
Definition edge_drained : BackwardsEdge unit :=
  set_initialized true edge_3x3.

(** An edge whose first cell scores -4. *)
Definition edge_tie_a : BackwardsEdge unit :=
  from_ok edge_none
    (new_BackwardsEdge [hypo_a; hypo_b] [opt_1 (-3); opt_1 (-4)] tt 3).

(** A container for the coverage of words 0 and 1, with the given edges. *)
Definition container (edges : list (EdgePtr * BackwardsEdge unit))
  : BitmapContainer unit :=
  mkBitmapContainer [true; true; false] [] edges 3.

Definition container_two_edges : BitmapContainer unit :=
  container [(1%nat, edge_tie_a); (2%nat, edge_3x3)].

(** A peek and five rounds on an edge, and the positions they pop from
    [edge_3x3]. *)
Definition five_pops : list EdgeOp :=
  [OpPeek; OpPop; OpPop; OpPop; OpPop; OpPop].

Definition run_3x3 : list SquarePosition * BackwardsEdge unit :=
  from_ok ([], edge_none) (run_edge sum_score five_pops edge_3x3).

(** [edge_3x3] once peeked, with its top. *)
Definition peek_3x3 : SquarePosition * BackwardsEdge unit :=
  from_ok (InvalidSquarePosition, edge_none) (Dequeue sum_score true edge_3x3).


(** Decimal numerals, for [Scan<int>] and [Scan<size_t>] in the examples. *)
Fixpoint scan_digits (s : string) (acc : Z) : Z :=
  match s with
  | EmptyString => acc
  | String c s' =>
      scan_digits s' (10 * acc + (Z.of_nat (Ascii.nat_of_ascii c) - 48))
  end.

Definition scan_int (s : string) : Z :=
  match s with
  | String "-"%char s' => - scan_digits s' 0
  | _ => scan_digits s 0
  end.

Definition scan_size_t (s : string) : nat := Z.to_nat (scan_digits s 0).

(** The statements after the stack-diversity block, in the examples: none. *)
Definition no_rest (_ : PARAMS) (sd : StaticData)
  : outcome (bool * StaticData) :=
  Returned (true, sd).

Definition params_diversity_far : PARAMS :=
  <["stack-diversity"%string := ["5"%string]]>
    (<["distortion-limit"%string := ["20"%string]]> ∅).


(** An edge whose predecessor container holds no hypothesis. *)
Definition edge_no_hypotheses : BackwardsEdge unit :=
  from_ok edge_none (new_BackwardsEdge [] [opt_1 (-1)] tt 3).

(** An edge whose first cell cannot be built: the linked option of its only
    option is for the word the option covers itself. *)
Definition edge_null_first : BackwardsEdge unit :=
  from_ok edge_none (new_BackwardsEdge [hypo_a] [opt_clash] tt 1).

(** A scoring under which every hypothesis scores minus infinity. *)
Definition minus_infinity_score (_ : unit) (_ : Hypo) : Score := NegInf.

Definition peek_minus_infinity : SquarePosition * BackwardsEdge unit :=
  from_ok (InvalidSquarePosition, edge_none)
          (Dequeue minus_infinity_score true edge_3x3).

(** One round of the container of two edges. *)
Definition round_two_edges : list Event * BitmapContainer unit :=
  let r := FindKBestHypotheses sum_score container_two_edges in
  (r.1, from_ok (container []) r.2).

(** [edge_3x3] with its first three cells queued, as the first pop and its
    successors leave it. *)
Definition edge_3x3_queued : BackwardsEdge unit :=
  from_ok edge_none
    (e ← Initialize sum_score edge_3x3;
     e ← Enqueue 0 1 (from_ok None (cell sum_score edge_3x3 0 1)) e;
     Enqueue 1 0 (from_ok None (cell sum_score edge_3x3 1 0)) e).

(** One value for "n-best-list", which needs two; "stack-diversity" with a
    distortion limit of 6. *)
Definition params_short_n_best : PARAMS :=
  <["n-best-list"%string := ["nbest.txt"%string]]>
    (<["stack-diversity"%string := ["5"%string]]> ∅).

Definition params_diversity_near : PARAMS :=
  <["stack-diversity"%string := ["5"%string; "9"%string]]>
    (<["distortion-limit"%string := ["6"%string]]> ∅).

(** The tokens of a line, separated by spaces, for [Tokenize] in the
    examples; [word] is the token being read. *)
Fixpoint tokenize_from (s : string) (word : string) : list string :=
  match s with
  | EmptyString => if String.eqb word EmptyString then [] else [word]
  | String c s' =>
      if Ascii.eqb c " "
      then if String.eqb word EmptyString then tokenize_from s' EmptyString
           else word :: tokenize_from s' EmptyString
      else tokenize_from s' (word +:+ String c EmptyString)
  end.

Definition tokenize (s : string) : list string := tokenize_from s EmptyString.

(** Three mapping lines for the graphs 0 and 1; one line that names graph
    1. *)
Definition params_mapping : PARAMS :=
  <["mapping"%string := ["0 T 0"%string; "1 T 1"%string; "1 G 0"%string]]> ∅.

Definition params_mapping_from_one : PARAMS :=
  <["mapping"%string := ["1 T 0"%string]]> ∅.

(** A line that gives KENLM a new name twice. *)
Definition params_overwrite : PARAMS :=
  <["feature-name-overwrite"%string :=
      ["KENLM LM0 Distortion D0 KENLM LM1"%string]]> ∅.

(** In the examples the search algorithm 3 is the chart decoder, and two
    files exist: "lhs.txt", well formed, and "bad.txt", whose second line has
    one token. *)
Definition chart_search (m_searchAlgorithm : Z) : bool :=
  (m_searchAlgorithm =? 3)%Z.

Definition unknown_lhs_file (filePath : string) : list string :=
  if String.eqb filePath "lhs.txt" then ["X 0.5"%string; "S 0.5"%string]
  else if String.eqb filePath "bad.txt" then ["X 0.5"%string; "S"%string]
  else [].


Definition params_chart_malformed : PARAMS :=
  <["search-algorithm"%string := ["3"%string]]>
    (<["unknown-lhs"%string := ["bad.txt"%string]]> params_diversity_far).

(** The mapping lines with a maximal chart span for each of the two
    graphs. *)
Definition params_mapping_chart : PARAMS :=
  <["max-chart-span"%string := ["20"%string; "30"%string]]> params_mapping.

(** In the examples the verbosity is 1: [VERBOSE(1, ...)] writes. *)
Definition verbose_1 (level : nat) : bool := (level <=? 1)%nat.

(** No feature is tracked in the examples. *)
Definition no_features (_ : DecodeStep unit) : unit := tt.

(* ================================================================== *)
(** * Properties *)

(** ** Scores *)

Lemma score_le_refl (a : Score) : score_le a a.
Proof. destruct a; unfold score_le; simpl; [done | apply Z.ltb_irrefl]. Qed.

Lemma score_le_trans (a b c : Score) :
  score_le a b -> score_le b c -> score_le a c.
Proof.
  unfold score_le; destruct a, b, c; simpl; try done.
  rewrite !Z.ltb_ge. lia.
Qed.

Lemma score_le_total (a b : Score) : score_le a b \/ score_le b a.
Proof.
  unfold score_le; destruct a, b; simpl; auto.
  rewrite !Z.ltb_ge. lia.
Qed.

Lemma score_gt_le (a b : Score) : score_gt a b = true -> score_le b a.
Proof.
  unfold score_le; destruct a, b; simpl; try done.
  rewrite Z.ltb_lt, Z.ltb_ge. lia.
Qed.

Lemma score_le_NegInf (a : Score) : score_le NegInf a.
Proof. done. Qed.

(** ** Coverage bitmaps *)

Lemma elem_of_positions (r : WordsRange) (pos : nat) :
  pos ∈ positions r <-> (GetStartPos r <= pos <= GetEndPos r)%nat.
Proof. unfold positions. rewrite elem_of_seq. lia. Qed.

Lemma length_foldr_insert (ps : list nat) (bm : WordsBitmap) (v : bool) :
  length (foldr (fun pos acc => <[pos := v]> acc) bm ps) = length bm.
Proof.
  induction ps as [|p ps IH]; [done|].
  cbn [foldr]. by rewrite length_insert.
Qed.

Lemma length_SetValue (bm : WordsBitmap) (r : WordsRange) (v : bool) :
  length (SetValue bm r v) = length bm.
Proof. apply length_foldr_insert. Qed.

Lemma lookup_SetValue_true (bm : WordsBitmap) (r : WordsRange) (pos : nat) :
  (pos ∈ positions r /\ (pos < length bm)%nat) \/ bm !! pos = Some true ->
  SetValue bm r true !! pos = Some true.
Proof.
  unfold SetValue. induction (positions r) as [|p ps IH]; cbn [foldr]; intros H.
  - destruct H as [[H _]|H]; [by apply elem_of_nil in H | done].
  - destruct (decide (p = pos)) as [->|Hne].
    + apply list_lookup_insert_eq. rewrite length_foldr_insert.
      destruct H as [[_ H]|H]; [done | by apply lookup_lt_Some in H].
    + rewrite list_lookup_insert_ne by done. apply IH.
      destruct H as [[H Hlt]|H]; [left | by right].
      split; [|done]. apply elem_of_cons in H as [H|H]; [congruence | done].
Qed.

Lemma Covers_SetValue_self (bm : WordsBitmap) (r : WordsRange) :
  Covers (SetValue bm r true) r.
Proof.
  intros pos Hpos Hlt. rewrite length_SetValue in Hlt.
  apply lookup_SetValue_true. left. by rewrite elem_of_positions.
Qed.

Lemma Covers_SetValue_mono (bm : WordsBitmap) (r r' : WordsRange) :
  Covers bm r -> Covers (SetValue bm r' true) r.
Proof.
  intros H pos Hpos Hlt. rewrite length_SetValue in Hlt.
  apply lookup_SetValue_true. right. by apply H.
Qed.

Lemma Covers_coverage_after (linked : list TranslationOption)
    (bm : WordsBitmap) (r : WordsRange) :
  Covers bm r -> Covers (coverage_after bm linked) r.
Proof.
  revert bm. induction linked as [|l linked IH]; intros bm H; [done|].
  simpl. apply IH. by apply Covers_SetValue_mono.
Qed.

Lemma Covers_coverage_after_linked (linked : list TranslationOption)
    (bm : WordsBitmap) :
  Forall (fun l => Covers (coverage_after bm linked) (GetSourceWordsRange l))
         linked.
Proof.
  revert bm. induction linked as [|l linked IH]; intros bm; [constructor|].
  constructor; [|apply IH].
  simpl. apply Covers_coverage_after, Covers_SetValue_self.
Qed.

Lemma linked_overlapb_spec (linked : list TranslationOption) (bm : WordsBitmap) :
  linked_overlapb bm linked = true <-> linked_overlap bm linked.
Proof.
  revert bm. induction linked as [|l linked IH]; intros bm; simpl.
  - split; [done|]. intros (i & l & H & _). by rewrite lookup_nil in H.
  - rewrite orb_true_iff, IH. split.
    + intros [H|(i & l' & Hl & H)].
      * by exists 0%nat, l.
      * by exists (S i), l'.
    + intros ([|i] & l' & Hl & H); simpl in *.
      * left. congruence.
      * right. by exists i, l'.
Qed.

(** ** Hypothesis creation *)

Section CreateHypothesisProperties.

Context {SquareMatrix : Type} (CalcTotalScore : SquareMatrix -> Hypo -> Score).

Lemma CreateHypothesis_linked_spec (futureScore : SquareMatrix)
    (linked : list TranslationOption) (newHypo : Hypo) :
  if linked_overlapb (GetWordsBitmap newHypo) linked
  then CreateHypothesis_linked CalcTotalScore futureScore linked newHypo = Ok None
  else exists h,
      CreateHypothesis_linked CalcTotalScore futureScore linked newHypo
      = Ok (Some h)
      /\ GetWordsBitmap h = coverage_after (GetWordsBitmap newHypo) linked.
Proof.
  revert newHypo. induction linked as [|l linked IH]; intros newHypo; simpl.
  - by eexists.
  - destruct (Overlap (GetWordsBitmap newHypo) (GetSourceWordsRange l)) eqn:Hov;
      simpl; [done|].
    unfold CreateNext. simpl. rewrite Hov. simpl.
    match goal with |- context [CreateHypothesis_linked _ _ _ ?h] =>
      specialize (IH h) end.
    simpl in IH. exact IH.
Qed.

(** C8.  Extension by an option with linked options is atomic: when the
    option's own span is free in [h], [CreateHypothesis] returns NULL if some
    linked option overlaps the coverage accumulated at the moment it is
    applied, and otherwise returns a hypothesis that covers the option's span
    and the span of every linked option; a hypothesis it returns always
    covers the whole group. *)
Theorem CreateHypothesis_atomic (e : BackwardsEdge SquareMatrix)
    (h : Hypo) (transOpt : TranslationOption) :
  Overlap (GetWordsBitmap h) (GetSourceWordsRange transOpt) = false ->
  let linked := GetLinkedTransOpts transOpt in
  let covered := SetValue (GetWordsBitmap h) (GetSourceWordsRange transOpt) true in
  let whole (h' : Hypo) :=
    Covers (GetWordsBitmap h') (GetSourceWordsRange transOpt)
    /\ Forall (fun l => Covers (GetWordsBitmap h') (GetSourceWordsRange l)) linked in
  (linked_overlap covered linked ->
   CreateHypothesis CalcTotalScore e h transOpt = Ok None)
  /\ (~ linked_overlap covered linked ->
      exists h', CreateHypothesis CalcTotalScore e h transOpt = Ok (Some h')
                 /\ whole h')
  /\ (forall h', CreateHypothesis CalcTotalScore e h transOpt = Ok (Some h') ->
                 whole h').
Proof.
  intros Hfree linked covered whole.
  unfold CreateHypothesis, CreateNext. rewrite Hfree. simpl.
  match goal with |- context [CreateHypothesis_linked _ ?fs ?ls ?h0] =>
    pose proof (CreateHypothesis_linked_spec fs ls h0) as Hspec end.
  simpl in Hspec. fold linked covered in Hspec |- *.
  rewrite <- linked_overlapb_spec.
  destruct (linked_overlapb covered linked) eqn:Hb.
  - rewrite Hspec. split; [done|]. split; [by intros [] | done].
  - destruct Hspec as (h' & -> & Hbm).
    assert (whole h') as Hwhole.
    { unfold whole. rewrite Hbm. split.
      - apply Covers_coverage_after, Covers_SetValue_self.
      - apply Covers_coverage_after_linked. }
    split; [done|]. split; [by exists h' | by intros ? [= <-]].
Qed.

End CreateHypothesisProperties.

(** The linked group of the specification's scenario: an option for word 0
    linked to an option for word 2, applied to the empty hypothesis. *)
Lemma CreateHypothesis_atomic_witness :
  Overlap (GetWordsBitmap hypo_seed) (GetSourceWordsRange opt_linked) = false
  /\ exists h', CreateHypothesis sum_score edge_none hypo_seed opt_linked
                = Ok (Some h')
                /\ Covers (GetWordsBitmap h') (GetSourceWordsRange opt_linked)
                /\ Forall (fun l => Covers (GetWordsBitmap h') (GetSourceWordsRange l))
                          (GetLinkedTransOpts opt_linked).
Proof.
  split; [reflexivity|].
  destruct (CreateHypothesis_atomic sum_score edge_none hypo_seed opt_linked
              eq_refl) as (_ & Hsome & _).
  apply Hsome. rewrite <- linked_overlapb_spec. vm_compute. discriminate.
Defined.

(** ** Construction of a backwards edge *)

Lemma std_copy_reserve {A} (b : Buffer) (src : list A) :
  std_copy b src (reserve (length src) vector_empty)
  = Ok (mkVector (Some <$> src) 0).
Proof.
  unfold std_copy, reserve, capacity, vector_empty; cbn [v_slots v_size length].
  destruct src as [|a src]; [reflexivity|].
  replace (0 <? length (a :: src))%nat with true by done.
  cbn [v_slots v_size take app]. rewrite Nat.sub_0_r.
  rewrite length_replicate, Nat.ltb_irrefl.
  rewrite drop_ge by (rewrite length_replicate; lia).
  by rewrite app_nil_r.
Qed.

Lemma new_BackwardsEdge_eq {SquareMatrix} (hypotheses : list Hypo)
    (translations : list TranslationOption) (futureScore : SquareMatrix)
    (K : nat) :
  new_BackwardsEdge hypotheses translations futureScore K
  = Ok {| m_queue := [];
          m_seenPosition :=
            replicate (Z.to_nat (to_size_t (Z.of_nat K * Z.of_nat K))) false;
          m_initialized := false;
          m_futurescore := futureScore;
          m_kbest := K;
          m_kbest_translations :=
            mkVector (Some <$> take (Nat.min K (length translations))
                                    translations) 0;
          m_kbest_hypotheses :=
            mkVector (Some <$> take (Nat.min K (length hypotheses))
                                    hypotheses) 0 |}.
Proof.
  unfold new_BackwardsEdge.
  pose proof (std_copy_reserve KBestTranslations
                (take (Nat.min K (length translations)) translations)) as Ht.
  pose proof (std_copy_reserve KBestHypotheses
                (take (Nat.min K (length hypotheses)) hypotheses)) as Hh.
  rewrite length_take in Ht. rewrite length_take in Hh.
  rewrite (Nat.min_l (Nat.min K (length translations))) in Ht by lia.
  rewrite (Nat.min_l (Nat.min K (length hypotheses))) in Hh by lia.
  rewrite Ht. cbn [mbind result_bind rbind]. rewrite Hh. reflexivity.
Qed.

(** C1.  A backwards edge can always be constructed, and in the edge that
    results the logical size of both snapshot vectors is 0, whatever K and
    the numbers of options and hypotheses are: [std::copy] writes the first
    min(K, n) options and min(K, m) hypotheses into the reserved storage and
    inserts nothing. *)
Theorem new_BackwardsEdge_snapshot_size {SquareMatrix} (hypotheses : list Hypo)
    (translations : list TranslationOption) (futureScore : SquareMatrix)
    (K : nat) :
  exists e,
    new_BackwardsEdge hypotheses translations futureScore K = Ok e
    /\ v_size (m_kbest_translations e) = 0%nat
    /\ v_size (m_kbest_hypotheses e) = 0%nat
    /\ v_slots (m_kbest_translations e)
       = Some <$> take (Nat.min K (length translations)) translations
    /\ v_slots (m_kbest_hypotheses e)
       = Some <$> take (Nat.min K (length hypotheses)) hypotheses.
Proof.
  rewrite new_BackwardsEdge_eq. eexists. split; [reflexivity|]. done.
Qed.

(** With K = 1, one option and one hypothesis, min(K, available) is 1 and the
    size of either snapshot is 0. *)
Example new_BackwardsEdge_one_by_one :
  exists e,
    new_BackwardsEdge [hypo_a] [opt_1 (-1)] tt 1 = Ok e
    /\ Nat.min 1 (length [opt_1 (-1)]) = 1%nat
    /\ v_size (m_kbest_translations e) = 0%nat
    /\ v_size (m_kbest_hypotheses e) = 0%nat.
Proof. eexists. split; [reflexivity|]. done. Qed.

(** ** Pushing the successors of a position *)

Section PushSuccessorsProperties.

Context {SquareMatrix : Type} (CalcTotalScore : SquareMatrix -> Hypo -> Score).

Lemma vector_at_out_of_bounds {A} (b : Buffer) (v : vector A) (i : Z) :
  (capacity v <= Z.to_nat (to_size_t i))%nat ->
  vector_at b v i = Crash (OutOfBounds b (to_size_t i)).
Proof.
  intros H. unfold vector_at. by rewrite lookup_ge_None_2.
Qed.

Lemma to_size_t_nonneg (x : Z) : 0 <= to_size_t x.
Proof. unfold to_size_t. apply Z.mod_pos_bound. lia. Qed.

Lemma seen_index_nonneg (e : BackwardsEdge SquareMatrix) (x y : Z) :
  0 <= seen_index e x y.
Proof. apply to_size_t_nonneg. Qed.

Lemma bits_at_insert_eq (b : Buffer) (v : list bool) (i : Z) (x : bool) :
  (Z.to_nat i < length v)%nat -> bits_at b (<[Z.to_nat i := x]> v) i = Ok x.
Proof. intros H. unfold bits_at. by rewrite list_lookup_insert_eq. Qed.

Lemma bits_at_insert_ne (b : Buffer) (v : list bool) (i j : Z) (x : bool) :
  0 <= i -> 0 <= j -> i <> j ->
  bits_at b (<[Z.to_nat i := x]> v) j = bits_at b v j.
Proof.
  intros Hi Hj Hne. unfold bits_at.
  rewrite list_lookup_insert_ne; [done | lia].
Qed.

Lemma pq_push_inv (q q' : list SquarePosition) (p : SquarePosition) :
  pq_push q p = Ok q' -> q' = q ++ [p].
Proof.
  unfold pq_push. destruct q; [by intros [= <-]|].
  destruct (forallb _ _); [by intros [= <-] | done].
Qed.

Lemma Enqueue_inv (e e' : BackwardsEdge SquareMatrix) (x y : Z)
    (hypothesis : option Hypo) :
  Enqueue x y hypothesis e = Ok e' ->
  e' = set_seenPosition
         (<[Z.to_nat (seen_index e x y) := true]> (m_seenPosition e))
         (set_queue (m_queue e ++ [(hypothesis, (x, y))]) e)
  /\ (Z.to_nat (seen_index e x y) < length (m_seenPosition e))%nat.
Proof.
  unfold Enqueue. destruct (pq_push _ _) as [q|] eqn:Hq; [|done].
  apply pq_push_inv in Hq as ->. cbn [mbind result_bind rbind].
  unfold bits_set.
  destruct (Z.to_nat (seen_index e x y) <? length (m_seenPosition e))%nat
    eqn:Hlt; [|done].
  cbn [mbind result_bind rbind mret result_ret]. intros [= <-].
  split; [done|]. by apply Nat.ltb_lt.
Qed.

(** What a completed [PushSuccessor] did. *)
Lemma PushSuccessor_inv (e e' : BackwardsEdge SquareMatrix) (x y : Z) :
  PushSuccessor CalcTotalScore x y e = Ok e' ->
  (SeenPosition x y e = Ok true /\ e' = e)
  \/ (SeenPosition x y e = Ok false
      /\ exists r, cell CalcTotalScore e x y = Ok r
                   /\ match r with
                      | Some h => Enqueue x y (Some h) e = Ok e'
                      | None => e' = e
                      end).
Proof.
  unfold PushSuccessor, cell.
  destruct (SeenPosition x y e) as [[]|] eqn:Hseen; [| |done];
    cbn [mbind result_bind rbind negb mret result_ret].
  { intros [= <-]. by left. }
  intros H. right. split; [done|].
  destruct (vector_at KBestHypotheses _ x) as [h|]; [|done].
  cbn [mbind result_bind rbind] in *.
  destruct (vector_at KBestTranslations _ y) as [t|]; [|done].
  cbn [mbind result_bind rbind] in *.
  destruct (CreateHypothesis _ e h t) as [r|]; [|done].
  cbn [mbind result_bind rbind] in *.
  exists r. split; [done|]. destruct r; [done | by injection H].
Qed.

Lemma cell_Enqueue (e e' : BackwardsEdge SquareMatrix) (x y x' y' : Z)
    (hypothesis : option Hypo) :
  Enqueue x y hypothesis e = Ok e' ->
  cell CalcTotalScore e' x' y' = cell CalcTotalScore e x' y'.
Proof. intros [-> _]%Enqueue_inv. reflexivity. Qed.

Lemma SeenPosition_Enqueue_eq (e e' : BackwardsEdge SquareMatrix) (x y : Z)
    (hypothesis : option Hypo) :
  Enqueue x y hypothesis e = Ok e' -> SeenPosition x y e' = Ok true.
Proof.
  intros [-> Hlt]%Enqueue_inv. unfold SeenPosition.
  by apply bits_at_insert_eq.
Qed.

Lemma SeenPosition_Enqueue_ne (e e' : BackwardsEdge SquareMatrix)
    (x y x' y' : Z) (hypothesis : option Hypo) :
  Enqueue x y hypothesis e = Ok e' ->
  seen_index e x y <> seen_index e x' y' ->
  SeenPosition x' y' e' = SeenPosition x' y' e.
Proof.
  intros [-> Hlt]%Enqueue_inv Hne. unfold SeenPosition.
  apply bits_at_insert_ne; [apply seen_index_nonneg.. | done].
Qed.

(** C2.  [PushSuccessors] checks no bound.  Where the cell [(x, y + 1)] is not
    marked seen and [y + 1] lies outside the translation-option snapshot, the
    code reads [m_kbest_translations[y + 1]] outside the snapshot; likewise,
    once the first neighbour is dealt with, where [(x + 1, y)] is not marked
    seen and [x + 1] lies outside the hypothesis snapshot, it reads
    [m_kbest_hypotheses[x + 1]] outside the snapshot. *)
Theorem PushSuccessors_checks_no_bound (e : BackwardsEdge SquareMatrix)
    (x y : Z) :
  (forall h,
      SeenPosition x (y + 1) e = Ok false ->
      vector_at KBestHypotheses (m_kbest_hypotheses e) x = Ok h ->
      (capacity (m_kbest_translations e) <= Z.to_nat (to_size_t (y + 1)))%nat ->
      PushSuccessors CalcTotalScore x y e
      = Crash (OutOfBounds KBestTranslations (to_size_t (y + 1))))
  /\ (forall e1,
        PushSuccessor CalcTotalScore x (y + 1) e = Ok e1 ->
        SeenPosition (x + 1) y e1 = Ok false ->
        (capacity (m_kbest_hypotheses e1) <= Z.to_nat (to_size_t (x + 1)))%nat ->
        PushSuccessors CalcTotalScore x y e
        = Crash (OutOfBounds KBestHypotheses (to_size_t (x + 1)))).
Proof.
  split.
  - intros h Hseen Hh Hcap. unfold PushSuccessors, PushSuccessor.
    rewrite Hseen. cbn [mbind result_bind rbind negb].
    rewrite Hh. cbn [mbind result_bind rbind].
    by rewrite (vector_at_out_of_bounds KBestTranslations).
  - intros e1 He1 Hseen Hcap. unfold PushSuccessors. rewrite He1.
    cbn [mbind result_bind rbind]. unfold PushSuccessor.
    rewrite Hseen. cbn [mbind result_bind rbind negb].
    by rewrite (vector_at_out_of_bounds KBestHypotheses).
Qed.

End PushSuccessorsProperties.

(** K = 2, two hypotheses and a single translation option: the first pop
    returns [(0, 0)], and [PushSuccessors(0, 0)] reads option 1 of a snapshot
    that holds one option. *)
Lemma PushSuccessors_checks_no_bound_witness :
  Dequeue sum_score false
    (from_ok edge_none
       (new_BackwardsEdge [hypo_a; hypo_b] [opt_1 (-1)] tt 2))
  = Ok ((from_ok None (CreateHypothesis sum_score edge_none hypo_a (opt_1 (-1))),
         (0, 0)), edge_2x1_popped)
  /\ capacity (m_kbest_translations edge_2x1_popped) = 1%nat
  /\ PushSuccessors sum_score 0 0 edge_2x1_popped
     = Crash (OutOfBounds KBestTranslations 1).
Proof.
  split; [reflexivity|]. split; [reflexivity|].
  apply (proj1 (PushSuccessors_checks_no_bound sum_score edge_2x1_popped 0 0)
           hypo_a); [reflexivity | reflexivity | vm_compute; lia].
Defined.

(** ** One round of a bitmap container *)

Section FindKBestProperties.

Context {SquareMatrix : Type} (CalcTotalScore : SquareMatrix -> Hypo -> Score).

Lemma FindBestEdge_cons (p : EdgePtr) (e : BackwardsEdge SquareMatrix)
    (edges : list (EdgePtr * BackwardsEdge SquareMatrix)) (i : nat)
    (bestEdge : option nat) (bestScore : Score) :
  FindBestEdge CalcTotalScore ((p, e) :: edges) i bestEdge bestScore
  = match Dequeue CalcTotalScore true e with
    | Crash f => ([], Crash f)
    | Ok (current, e1) =>
        match current.1 with
        | None => ([EvDequeue i true current], Crash NullDereference)
        | Some h =>
            let better := score_gt (GetTotalScore h) bestScore in
            match FindBestEdge CalcTotalScore edges (S i)
                    (if better then Some i else bestEdge)
                    (if better then GetTotalScore h else bestScore) with
            | (t, Ok (edges', best)) =>
                (EvDequeue i true current :: t, Ok ((p, e1) :: edges', best))
            | (t, Crash f) => (EvDequeue i true current :: t, Crash f)
            end
        end
    end.
Proof.
  cbn [FindBestEdge]. unfold lift, emit, deref.
  cbn [mbind traced_bind].
  destruct (Dequeue CalcTotalScore true e) as [[current e1]|f]; [|reflexivity].
  destruct (current.1) as [h|]; [|reflexivity].
  cbn zeta.
  destruct (FindBestEdge _ _ _ _ _) as [t [[edges' best]|f]]; cbn.
  - by rewrite app_nil_r.
  - reflexivity.
Qed.

Lemma FindBestEdge_inv (edges edges' : list (EdgePtr * BackwardsEdge SquareMatrix))
    (i : nat) (bestEdge : option nat) (bestScore : Score) (t : list Event)
    (best : option nat * Score) :
  FindBestEdge CalcTotalScore edges i bestEdge bestScore = (t, Ok (edges', best)) ->
  exists tops,
    peeked CalcTotalScore edges edges' tops
    /\ t = imap (fun k top => EvDequeue (i + k) true top) tops
    /\ best = best_of tops i bestEdge bestScore.
Proof.
  revert edges' i bestEdge bestScore t best.
  induction edges as [|[p e] edges IH]; intros edges' i bestEdge bestScore t best.
  - intros [= <- <- <-]. exists []. split; [constructor | done].
  - rewrite FindBestEdge_cons.
    destruct (Dequeue CalcTotalScore true e) as [[current e1]|f] eqn:Hpeek;
      [|done].
    destruct (current.1) as [h|] eqn:Hh; [|done]. cbn zeta.
    destruct (FindBestEdge _ _ _ _ _) as [t' [[edges1 best1]|f]] eqn:Hrest;
      [|done].
    intros [= <- <- <-]. apply IH in Hrest as (tops & Hpeeked & -> & ->).
    exists (current :: tops). split; [|split].
    + constructor; [|done]. cbn. by rewrite Hh.
    + cbn [imap]. rewrite Nat.add_0_r. f_equal.
      apply imap_ext. intros k top _. cbn. f_equal. lia.
    + cbn [best_of]. unfold position_score. by rewrite Hh.
Qed.

Lemma score_gt_trans (a b c : Score) :
  score_gt a b = true -> score_gt b c = true -> score_gt a c = true.
Proof. destruct a, b, c; cbn; try done. rewrite !Z.ltb_lt. lia. Qed.

Lemma score_gt_le_trans (a b c : Score) :
  score_gt a b = true -> score_le c b -> score_gt a c = true.
Proof.
  unfold score_le. destruct a, b, c; cbn; try done.
  rewrite !Z.ltb_lt, Z.ltb_ge. lia.
Qed.

(** Either the loop never updated [bestEdge], and no top scored higher than
    [bestScore]; or it ends at the first top of maximal score. *)
Lemma best_of_spec (tops : list SquarePosition) (i : nat)
    (bestEdge : option nat) (bestScore : Score) :
  (best_of tops i bestEdge bestScore = (bestEdge, bestScore)
   /\ forall k top, tops !! k = Some top ->
                    score_le (position_score top) bestScore)
  \/ exists k top,
      tops !! k = Some top
      /\ best_of tops i bestEdge bestScore = (Some (i + k)%nat, position_score top)
      /\ score_gt (position_score top) bestScore = true
      /\ (forall k' top', tops !! k' = Some top' ->
                          score_le (position_score top') (position_score top))
      /\ (forall k' top', (k' < k)%nat -> tops !! k' = Some top' ->
                          score_gt (position_score top) (position_score top')
                          = true).
Proof.
  revert i bestEdge bestScore.
  induction tops as [|top tops IH]; intros i bestEdge bestScore.
  - left. split; [done|]. intros k top. by rewrite lookup_nil.
  - cbn [best_of].
    destruct (score_gt (position_score top) bestScore) eqn:Hgt; cbn zeta.
    + right.
      destruct (IH (S i) (Some i) (position_score top))
        as [[-> Hle]|(k & top' & Hk & -> & Hgt' & Hmax & Hfirst)].
      * exists 0%nat, top. rewrite Nat.add_0_r. repeat split; [done|..].
        -- intros [|k'] top'; cbn; [intros [= <-]; apply score_le_refl|].
           apply Hle.
        -- intros k' top' Hlt. lia.
      * exists (S k), top'. repeat split; [done|f_equal; f_equal; lia|..].
        -- by eapply score_gt_trans.
        -- intros [|k'] top''; cbn; [intros [= <-]; by apply score_gt_le|].
           apply Hmax.
        -- intros [|k'] top'' Hlt; cbn; [by intros [= <-]|].
           apply Hfirst. lia.
    + destruct (IH (S i) bestEdge bestScore)
        as [[-> Hle]|(k & top' & Hk & -> & Hgt' & Hmax & Hfirst)].
      * left. split; [done|]. intros [|k'] top'; cbn; [by intros [= <-]|].
        apply Hle.
      * right. exists (S k), top'. repeat split; [done|f_equal; f_equal; lia|done|..].
        -- intros [|k'] top''; cbn; [intros [= <-]|by apply Hmax].
           apply score_gt_le. by eapply score_gt_le_trans.
        -- intros [|k'] top'' Hlt; cbn; [intros [= <-]|apply Hfirst; lia].
           by eapply score_gt_le_trans.
Qed.


Lemma Initialize_initialized (e e' : BackwardsEdge SquareMatrix) :
  Initialize CalcTotalScore e = Ok e' -> m_initialized e' = true.
Proof.
  unfold Initialize.
  destruct (vector_at KBestHypotheses _ 0) as [h|]; [|done].
  cbn [mbind result_bind rbind].
  destruct (vector_at KBestTranslations _ 0) as [t|]; [|done].
  cbn [mbind result_bind rbind].
  destruct (CreateHypothesis _ e h t) as [r|]; [|done].
  cbn [mbind result_bind rbind].
  destruct (Enqueue 0 0 r e) as [e1|]; [|done].
  cbn [mbind result_bind rbind].
  destruct (bits_set _ _ 0 true) as [seen|]; [|done].
  by intros [= <-].
Qed.


(** [FindKBestHypotheses], statement by statement. *)
Lemma FindKBestHypotheses_unfold (c : BitmapContainer SquareMatrix) :
  m_edges c <> [] ->
  FindKBestHypotheses CalcTotalScore c
  = match FindBestEdge CalcTotalScore (m_edges c) 0 None NegInf with
    | (t, Crash f) => (t, Crash f)
    | (t, Ok (edges, (None, _))) => (t, Crash AssertionViolated)
    | (t, Ok (edges, (Some i, _))) =>
        match edges !! i with
        | None => (t, Crash NullDereference)
        | Some (p, e) =>
            match Dequeue CalcTotalScore false e with
            | Crash f => (t, Crash f)
            | Ok (pos, e1) =>
                let round := [EvDequeue i false pos; EvAddPrune pos.1;
                              EvPushSuccessors i pos.2.1 pos.2.2] in
                match PushSuccessors CalcTotalScore pos.2.1 pos.2.2 e1 with
                | Crash f => (t ++ round, Crash f)
                | Ok e2 => (t ++ round, Ok (set_edges (<[i := (p, e2)]> edges) c))
                end
            end
        end
    end.
Proof.
  intros Hne. unfold FindKBestHypotheses.
  destruct (m_edges c) as [|pe edges0] eqn:Hedges; [done|].
  unfold lift, emit, deref. cbn [mbind traced_bind].
  destruct (FindBestEdge _ _ _ _ _) as [t [[edges [[i|] bestScore]]|f]];
    cbn [mbind traced_bind]; [| by rewrite app_nil_r | reflexivity].
  destruct (edges !! i) as [[p e]|]; [|by rewrite app_nil_r].
  destruct (Dequeue CalcTotalScore false e) as [[pos e1]|f];
    [|by rewrite app_nil_r].
  cbn zeta.
  destruct (PushSuccessors _ _ _ e1) as [e2|f]; cbn;
    by rewrite ?app_nil_r.
Qed.


Lemma FindBestEdge_events (edges : list (EdgePtr * BackwardsEdge SquareMatrix))
    (i : nat) (bestEdge : option nat) (bestScore : Score) :
  Forall (fun ev => is_AddPrune ev = false /\ is_pop ev = false)
         (FindBestEdge CalcTotalScore edges i bestEdge bestScore).1.
Proof.
  revert i bestEdge bestScore.
  induction edges as [|[p e] edges IH]; intros i bestEdge bestScore.
  - constructor.
  - rewrite FindBestEdge_cons.
    destruct (Dequeue CalcTotalScore true e) as [[current e1]|f];
      [|constructor].
    destruct (current.1) as [h|]; [|by repeat constructor]. cbn zeta.
    match goal with |- context [FindBestEdge _ edges ?j ?b ?s] =>
      specialize (IH j b s);
      destruct (FindBestEdge CalcTotalScore edges j b s) as [t [[]|]] end;
      by constructor.
Qed.

Lemma filter_none {A} (f : A -> bool) (l : list A) :
  Forall (fun a => f a = false) l -> List.filter f l = [].
Proof.
  induction 1 as [|a l Ha _ IH]; [done|]. cbn. by rewrite Ha.
Qed.

(** C4.  One invocation of [FindKBestHypotheses] pops at most one position
    and hands at most one hypothesis to [AddPrune], whatever the edges still
    hold: it makes one round and returns. *)
Theorem FindKBestHypotheses_single_round (c : BitmapContainer SquareMatrix) :
  (length (List.filter is_pop (FindKBestHypotheses CalcTotalScore c).1) <= 1)%nat
  /\ (length (List.filter is_AddPrune (FindKBestHypotheses CalcTotalScore c).1)
      <= 1)%nat.
Proof.
  destruct (decide (m_edges c = [])) as [Hnil|Hne].
  { unfold FindKBestHypotheses. rewrite Hnil. cbn. lia. }
  rewrite FindKBestHypotheses_unfold by done.
  pose proof (FindBestEdge_events (m_edges c) 0 None NegInf) as Hev.
  destruct (FindBestEdge _ _ _ _ _) as [t r]. cbn [fst] in Hev.
  assert (List.filter is_pop t = []) as Hpop.
  { apply filter_none. eapply Forall_impl; [exact Hev|]. by intros ? []. }
  assert (List.filter is_AddPrune t = []) as Hadd.
  { apply filter_none. eapply Forall_impl; [exact Hev|]. by intros ? []. }
  destruct r as [[edges [[i|] bestScore]]|f]; cbn [fst];
    [| rewrite Hpop, Hadd; cbn; lia..].
  destruct (edges !! i) as [[p e]|]; cbn [fst];
    [| rewrite Hpop, Hadd; cbn; lia].
  destruct (Dequeue CalcTotalScore false e) as [[pos e1]|f]; cbn [fst];
    [| rewrite Hpop, Hadd; cbn; lia].
  cbn zeta.
  destruct (PushSuccessors _ _ _ e1) as [e2|f]; cbn [fst];
    rewrite !List.filter_app, Hpop, Hadd; cbn; lia.
Qed.

Lemma FindBestEdge_app (pre pre' : list (EdgePtr * BackwardsEdge SquareMatrix))
    (tops : list SquarePosition)
    (rest : list (EdgePtr * BackwardsEdge SquareMatrix)) (i : nat)
    (bestEdge : option nat) (bestScore : Score) :
  peeked CalcTotalScore pre pre' tops ->
  FindBestEdge CalcTotalScore (pre ++ rest) i bestEdge bestScore
  = let '(bestEdge', bestScore') := best_of tops i bestEdge bestScore in
    let events := imap (fun k top => EvDequeue (i + k) true top) tops in
    match FindBestEdge CalcTotalScore rest (i + length pre)
            bestEdge' bestScore' with
    | (t, Ok (edges', best)) => (events ++ t, Ok (pre' ++ edges', best))
    | (t, Crash f) => (events ++ t, Crash f)
    end.
Proof.
  intros Hpeeked. revert i bestEdge bestScore.
  induction Hpeeked as [|[p e] [p' e'] top pre pre' tops (Hp & [h Hh] & Hpeek) _ IH];
    intros i bestEdge bestScore.
  - cbn. rewrite Nat.add_0_r.
    by destruct (FindBestEdge _ _ _ _ _) as [t [[]|]].
  - cbn [app fst snd] in *. subst p'. rewrite FindBestEdge_cons, Hpeek, Hh.
    cbn zeta. rewrite IH. cbn [best_of].
    assert (position_score top = GetTotalScore h) as ->
      by (unfold position_score; by rewrite Hh).
    destruct (best_of tops (S i) _ _) as [bestEdge' bestScore'].
    cbn [length]. replace (S i + length pre)%nat with (i + S (length pre))%nat by lia.
    assert (imap (fun k top0 => EvDequeue (i + k) true top0) (top :: tops)
            = EvDequeue i true top
              :: imap (fun k top0 => EvDequeue (S i + k) true top0) tops) as ->.
    { cbn [imap]. rewrite Nat.add_0_r. f_equal.
      apply imap_ext. intros k ? _. cbn. f_equal. lia. }
    by destruct (FindBestEdge _ _ _ _ _) as [t [[]|]].
Qed.

(** C3.  [FindKBestHypotheses] reads the score of every peeked position
    through its hypothesis pointer, the sentinel included.  When the edges
    before [e] can be peeked and [e] is drained (initialised, with an empty
    queue), the peek of [e] returns the sentinel [(NULL, (-1, -1))] and the
    read of its score dereferences the NULL pointer. *)
Theorem FindKBestHypotheses_drained_edge (c : BitmapContainer SquareMatrix)
    (pre pre' post : list (EdgePtr * BackwardsEdge SquareMatrix))
    (tops : list SquarePosition) (p : EdgePtr) (e : BackwardsEdge SquareMatrix) :
  m_edges c = pre ++ (p, e) :: post ->
  peeked CalcTotalScore pre pre' tops ->
  m_initialized e = true ->
  m_queue e = [] ->
  Dequeue CalcTotalScore true e = Ok (InvalidSquarePosition, e)
  /\ InvalidSquarePosition.1 = None
  /\ FindKBestHypotheses CalcTotalScore c
     = (peek_events tops
        ++ [EvDequeue (length pre) true InvalidSquarePosition],
        Crash NullDereference).
Proof.
  intros Hedges Hpeeked Hinit Hqueue.
  assert (Dequeue CalcTotalScore true e = Ok (InvalidSquarePosition, e)) as Hpeek.
  { unfold Dequeue. rewrite Hinit. cbn [mbind result_bind rbind mret result_ret].
    by rewrite Hqueue. }
  split; [done|]. split; [done|].
  rewrite FindKBestHypotheses_unfold by (rewrite Hedges; by destruct pre).
  rewrite Hedges, (FindBestEdge_app _ _ _ _ _ _ _ Hpeeked).
  destruct (best_of tops 0 None NegInf) as [bestEdge' bestScore'].
  rewrite FindBestEdge_cons, Hpeek. cbn. done.
Qed.

(** A round on a non-empty edge set either finds every edge peekable with a
    hypothesis on top and one of the tops above minus infinity, or stops on a
    fault (of a peek, of the read of a NULL top, or of the assertion) before
    it has popped a position or called [AddPrune]. *)
Lemma FindKBestHypotheses_faults_before_pop (c : BitmapContainer SquareMatrix) :
  m_edges c <> [] ->
  (exists edges tops,
      peeked CalcTotalScore (m_edges c) edges tops
      /\ Exists (fun top => score_gt (position_score top) NegInf = true) tops)
  \/ (exists t f,
         FindKBestHypotheses CalcTotalScore c = (t, Crash f)
         /\ Forall (fun ev => is_AddPrune ev = false /\ is_pop ev = false) t).
Proof.
  intros Hne. rewrite FindKBestHypotheses_unfold by done.
  pose proof (FindBestEdge_events (m_edges c) 0 None NegInf) as Hev.
  destruct (FindBestEdge _ _ _ _ _) as [t0 [[edges [[i|] s]]|f]] eqn:Hbest;
    cbn [fst] in Hev; [|right; by eexists _, _..].
  left. apply FindBestEdge_inv in Hbest as (tops & Hpeeked & _ & Hbest).
  exists edges, tops. split; [done|].
  destruct (best_of_spec tops 0 None NegInf)
    as [[Hsame _]|(k & top & Hk & _ & Hgt & _)]; [congruence|].
  apply Exists_exists. exists top. split; [|done].
  by eapply list_elem_of_lookup_2.
Qed.


End FindKBestProperties.

(** ** The order of the pops of an edge *)

Section PopOrder.

Context {SquareMatrix : Type} (CalcTotalScore : SquareMatrix -> Hypo -> Score).

Lemma pq_top_None (q : list SquarePosition) : pq_top q = None -> q = [].
Proof.
  destruct q as [|p q]; [done|]. cbn.
  destruct (pq_top q) as [p'|]; [|done]. by destruct (score_gt _ _).
Qed.

Lemma pq_top_elem (q : list SquarePosition) (p : SquarePosition) :
  pq_top q = Some p -> p ∈ q.
Proof.
  revert p. induction q as [|p0 q IH]; intros p; [done|]. cbn.
  destruct (pq_top q) as [p'|].
  - destruct (score_gt _ _); intros [= <-]; [right; by apply IH | left].
  - intros [= <-]. left.
Qed.

Lemma pq_top_max (q : list SquarePosition) (p : SquarePosition) :
  pq_top q = Some p ->
  forall p', p' ∈ q -> score_le (position_score p') (position_score p).
Proof.
  revert p. induction q as [|p0 q IH]; intros p; [done|]. cbn.
  destruct (pq_top q) as [p1|] eqn:Htop.
  - specialize (IH p1 eq_refl).
    destruct (score_gt (position_score p1) (position_score p0)) eqn:Hgt;
      intros [= <-] p' [->|Hin]%elem_of_cons.
    + by apply score_gt_le.
    + by apply IH.
    + apply score_le_refl.
    + eapply score_le_trans; [by apply IH | done].
  - apply pq_top_None in Htop as ->.
    intros [= <-] p' [->|Hin]%elem_of_cons; [apply score_le_refl|].
    by apply elem_of_nil in Hin.
Qed.

Lemma pq_pop_subseteq (q : list SquarePosition) (p : SquarePosition) :
  p ∈ pq_pop q -> p ∈ q.
Proof.
  revert p. induction q as [|p0 q IH]; intros p; [done|]. cbn.
  destruct (pq_top q) as [p1|]; [|by right].
  destruct (score_gt _ _); [|by right].
  intros [->|Hin]%elem_of_cons; [left | right; by apply IH].
Qed.

Lemma pq_push_ok (q q' : list SquarePosition) (p : SquarePosition) :
  pq_push q p = Ok q' -> queue_ok q' /\ q' = q ++ [p].
Proof.
  unfold pq_push. destruct q as [|p0 q].
  - intros [= <-]. split; [|done]. destruct p as [[h|] xy].
    + left. by repeat constructor.
    + right. by exists xy.
  - destruct (forallb _ _) eqn:Hall; [|done]. intros [= <-]. split; [|done].
    left. apply Is_true_true_2, forallb_True in Hall.
    apply Forall_cons in Hall as [Hp Hq].
    change (Forall (fun pos : SquarePosition => is_Some pos.1)
              ((p0 :: q) ++ [p])).
    apply Forall_app. split.
    + eapply Forall_impl; [exact Hq|]. intros pos H.
      by apply bool_decide_unpack in H.
    + repeat constructor. by apply bool_decide_unpack in Hp.
Qed.


Lemma cell_same_grid (e e' : BackwardsEdge SquareMatrix) (x y : Z) :
  same_grid e e' -> cell CalcTotalScore e' x y = cell CalcTotalScore e x y.
Proof.
  intros (Hh & Ht & Hf). unfold cell, CreateHypothesis. by rewrite Hh, Ht, Hf.
Qed.

Lemma Enqueue_facts (e e' : BackwardsEdge SquareMatrix) (x y : Z)
    (hypothesis : option Hypo) :
  Enqueue x y hypothesis e = Ok e' ->
  same_grid e e' /\ m_initialized e' = m_initialized e
  /\ queue_ok (m_queue e')
  /\ m_queue e' = m_queue e ++ [(hypothesis, (x, y))].
Proof.
  intros H. pose proof H as [-> _]%Enqueue_inv.
  unfold Enqueue in H. destruct (pq_push _ _) as [q|] eqn:Hq; [|done].
  apply pq_push_ok in Hq as [Hok ->]. clear H.
  unfold same_grid. by cbn.
Qed.

Lemma Initialize_inv (e e' : BackwardsEdge SquareMatrix) :
  Initialize CalcTotalScore e = Ok e' ->
  exists r, cell CalcTotalScore e 0 0 = Ok r
            /\ same_grid e e' /\ m_initialized e' = true
            /\ queue_ok (m_queue e')
            /\ m_queue e' = m_queue e ++ [(r, (0, 0))].
Proof.
  unfold Initialize, cell.
  destruct (vector_at KBestHypotheses _ 0) as [h|]; [|done].
  cbn [mbind result_bind rbind].
  destruct (vector_at KBestTranslations _ 0) as [t|]; [|done].
  cbn [mbind result_bind rbind].
  destruct (CreateHypothesis _ e h t) as [r|]; [|done].
  cbn [mbind result_bind rbind].
  destruct (Enqueue 0 0 r e) as [e1|] eqn:He1; [|done].
  cbn [mbind result_bind rbind].
  destruct (bits_set _ _ 0 true) as [seen|]; [|done].
  intros [= <-]. exists r.
  apply Enqueue_facts in He1 as ((? & ? & ?) & _ & Hok & Hq).
  unfold same_grid. by cbn.
Qed.

Lemma edge_inv_Initialize (e e' : BackwardsEdge SquareMatrix)
    (last : option Score) :
  edge_inv CalcTotalScore e last -> m_initialized e = false ->
  Initialize CalcTotalScore e = Ok e' ->
  edge_inv CalcTotalScore e' None /\ last = None.
Proof.
  intros (Hch & Hct & Hcell & Hok & Hlast & Hinit) Hfalse HI.
  destruct (Hinit Hfalse) as [Hnil ->]. split; [|done].
  apply Initialize_inv in HI as (r & Hr & Hgrid & Htrue & Hok' & Hq).
  rewrite Hnil in Hq. cbn in Hq.
  pose proof Hgrid as (Hh & Ht & _).
  unfold edge_inv. rewrite Hh, Ht. split_and!; try done; try congruence.
  intros pos h. rewrite Hq. intros ->%list_elem_of_singleton. cbn.
  intros ->. by rewrite (cell_same_grid e).
Qed.

(** The positions a completed [PushSuccessor] queued. *)
Lemma same_grid_refl (e : BackwardsEdge SquareMatrix) : same_grid e e.
Proof. done. Qed.

Lemma PushSuccessor_queue (e e' : BackwardsEdge SquareMatrix) (x y : Z) :
  PushSuccessor CalcTotalScore x y e = Ok e' ->
  same_grid e e' /\ m_initialized e' = m_initialized e
  /\ (m_queue e' = m_queue e
      \/ exists h, cell CalcTotalScore e x y = Ok (Some h)
                   /\ queue_ok (m_queue e')
                   /\ m_queue e' = m_queue e ++ [(Some h, (x, y))]).
Proof.
  intros [[_ ->]|[_ (r & Hr & Hq)]]%PushSuccessor_inv.
  { split; [apply same_grid_refl|]. split; [done | by left]. }
  destruct r as [h|]; [|subst].
  - apply Enqueue_facts in Hq as (? & ? & ? & ?).
    split; [done|]. split; [done|]. right. by exists h.
  - split; [apply same_grid_refl|]. split; [done | by left].
Qed.

Lemma edge_inv_PushSuccessor (e e' : BackwardsEdge SquareMatrix) (x y : Z)
    (last : option Score) :
  edge_inv CalcTotalScore e last -> m_initialized e = true ->
  (forall s h, last = Some s -> cell CalcTotalScore e x y = Ok (Some h) ->
               score_le (GetTotalScore h) s) ->
  PushSuccessor CalcTotalScore x y e = Ok e' ->
  edge_inv CalcTotalScore e' last /\ m_initialized e' = true /\ same_grid e e'.
Proof.
  intros (Hch & Hct & Hcell & Hok & Hlast & Hinit) Htrue Hbound Hpush.
  apply PushSuccessor_queue in Hpush as (Hgrid & Hi & Hq).
  pose proof Hgrid as (Hh & Ht & _).
  split; [|split; [congruence | done]].
  unfold edge_inv. rewrite Hh, Ht.
  destruct Hq as [Hq|(h & Hc & Hok' & Hq)]; rewrite Hq;
    split_and!; try done; try congruence.
  - intros pos h' Hin Hpos. rewrite (cell_same_grid e) by done.
    by apply Hcell.
  - intros pos h'. rewrite (cell_same_grid e) by done.
    intros [Hin| ->%list_elem_of_singleton]%elem_of_app; [by apply Hcell|].
    cbn. by intros [= <-].
  - intros s ->. apply Forall_app. split; [by apply Hlast|].
    repeat constructor; [done|]. cbn. by eapply Hbound.
Qed.


Lemma same_grid_trans (e1 e2 e3 : BackwardsEdge SquareMatrix) :
  same_grid e1 e2 -> same_grid e2 e3 -> same_grid e1 e3.
Proof. intros (? & ? & ?) (? & ? & ?). unfold same_grid. split_and!; congruence. Qed.

Lemma grid_monotone_same_grid (e e' : BackwardsEdge SquareMatrix) :
  same_grid e e' -> grid_monotone CalcTotalScore e ->
  grid_monotone CalcTotalScore e'.
Proof.
  intros Hgrid Hmono x y h. rewrite (cell_same_grid e) by done. intros Hc.
  destruct (Hmono x y h Hc) as [H1 H2].
  split; intros h'; rewrite (cell_same_grid e) by done; auto.
Qed.

Lemma edge_inv_PushSuccessors (e e' : BackwardsEdge SquareMatrix) (x y : Z)
    (last : option Score) :
  edge_inv CalcTotalScore e last -> m_initialized e = true ->
  (forall s h, last = Some s ->
               cell CalcTotalScore e x (y + 1) = Ok (Some h) ->
               score_le (GetTotalScore h) s) ->
  (forall s h, last = Some s ->
               cell CalcTotalScore e (x + 1) y = Ok (Some h) ->
               score_le (GetTotalScore h) s) ->
  PushSuccessors CalcTotalScore x y e = Ok e' ->
  edge_inv CalcTotalScore e' last /\ m_initialized e' = true /\ same_grid e e'.
Proof.
  intros Hinv Htrue Hb1 Hb2. unfold PushSuccessors.
  destruct (PushSuccessor _ x (y + 1) e) as [e1|] eqn:H1; [|done].
  cbn [mbind result_bind rbind]. intros H2.
  destruct (edge_inv_PushSuccessor _ _ _ _ _ Hinv Htrue Hb1 H1)
    as (Hinv1 & Htrue1 & Hgrid1).
  assert (forall s h, last = Some s ->
                      cell CalcTotalScore e1 (x + 1) y = Ok (Some h) ->
                      score_le (GetTotalScore h) s) as Hb2'.
  { intros s h. rewrite (cell_same_grid e) by done. apply Hb2. }
  destruct (edge_inv_PushSuccessor _ _ _ _ _ Hinv1 Htrue1 Hb2' H2)
    as (Hinv2 & Htrue2 & Hgrid2).
  split; [done|]. split; [done|]. by eapply same_grid_trans.
Qed.

Lemma Dequeue_inv (keepValue : bool) (e e' : BackwardsEdge SquareMatrix)
    (pos : SquarePosition) :
  Dequeue CalcTotalScore keepValue e = Ok (pos, e') ->
  exists e1,
    ((m_initialized e = true /\ e1 = e)
     \/ (m_initialized e = false /\ Initialize CalcTotalScore e = Ok e1))
    /\ m_initialized e1 = true
    /\ ((pq_top (m_queue e1) = Some pos
         /\ e' = if keepValue then e1
                 else set_queue (pq_pop (m_queue e1)) e1)
        \/ (m_queue e1 = [] /\ pos = InvalidSquarePosition /\ e' = e1)).
Proof.
  unfold Dequeue. intros H.
  assert (exists e1, (if m_initialized e then mret e
                      else Initialize CalcTotalScore e) = Ok e1
                     /\ ((m_initialized e = true /\ e1 = e)
                         \/ (m_initialized e = false
                             /\ Initialize CalcTotalScore e = Ok e1))
                     /\ m_initialized e1 = true) as (e1 & He1 & Hcase & Hinit).
  { destruct (m_initialized e) eqn:Hi.
    - exists e. split; [done|]. split; [by left | done].
    - destruct (Initialize CalcTotalScore e) as [e1|] eqn:HI; [|done].
      exists e1. split; [done|]. split; [by right|].
      by eapply Initialize_initialized. }
  rewrite He1 in H. cbn [mbind result_bind rbind] in H.
  exists e1. split; [done|]. split; [done|].
  destruct (pq_top (m_queue e1)) as [ret|] eqn:Htop.
  - injection H as <- <-. by left.
  - injection H as <- <-. right. by apply pq_top_None in Htop.
Qed.

Lemma edge_inv_initialised (e e1 : BackwardsEdge SquareMatrix)
    (last : option Score) :
  edge_inv CalcTotalScore e last ->
  (m_initialized e = true /\ e1 = e)
  \/ (m_initialized e = false /\ Initialize CalcTotalScore e = Ok e1) ->
  edge_inv CalcTotalScore e1 last /\ same_grid e e1.
Proof.
  intros Hinv [[_ ->]|[Hfalse HI]]; [split; [done | apply same_grid_refl]|].
  destruct (edge_inv_Initialize _ _ _ Hinv Hfalse HI) as [Hinv1 ->].
  split; [done|]. by apply Initialize_inv in HI as (r & _ & Hgrid & _).
Qed.

Lemma edge_inv_peek (e e' : BackwardsEdge SquareMatrix) (pos : SquarePosition)
    (last : option Score) :
  edge_inv CalcTotalScore e last -> Dequeue CalcTotalScore true e = Ok (pos, e') ->
  edge_inv CalcTotalScore e' last /\ same_grid e e'.
Proof.
  intros Hinv (e1 & Hcase & _ & Hres)%Dequeue_inv.
  destruct (edge_inv_initialised _ _ _ Hinv Hcase) as [Hinv1 Hgrid].
  by destruct Hres as [[_ ->]|(_ & _ & ->)].
Qed.

Lemma vector_at_minus_one {A} (b : Buffer) (v : vector A) (a : A) :
  Z.of_nat (capacity v) < 2 ^ 64 -> vector_at b v (-1) <> Ok a.
Proof.
  intros Hcap. rewrite vector_at_out_of_bounds; [done|].
  unfold to_size_t. change (-1 mod 2 ^ 64) with (2 ^ 64 - 1). lia.
Qed.

Lemma cell_minus_one (e : BackwardsEdge SquareMatrix) (z : Z)
    (r : option Hypo) :
  Z.of_nat (capacity (m_kbest_hypotheses e)) < 2 ^ 64 ->
  Z.of_nat (capacity (m_kbest_translations e)) < 2 ^ 64 ->
  cell CalcTotalScore e (-1) z <> Ok r /\ cell CalcTotalScore e z (-1) <> Ok r.
Proof.
  intros Hh Ht. unfold cell. split.
  - destruct (vector_at KBestHypotheses _ (-1)) as [h|] eqn:Hv; [|done].
    by apply vector_at_minus_one in Hv.
  - destruct (vector_at KBestHypotheses _ z) as [h|]; [|done].
    cbn [mbind result_bind rbind].
    destruct (vector_at KBestTranslations _ (-1)) as [t|] eqn:Hv; [|done].
    by apply vector_at_minus_one in Hv.
Qed.


(** A pop and the push of the successors of the popped position. *)
Lemma edge_inv_pop (e e1 e2 : BackwardsEdge SquareMatrix)
    (pos : SquarePosition) (last : option Score) :
  edge_inv CalcTotalScore e last -> grid_monotone CalcTotalScore e ->
  Dequeue CalcTotalScore false e = Ok (pos, e1) ->
  PushSuccessors CalcTotalScore pos.2.1 pos.2.2 e1 = Ok e2 ->
  same_grid e e2
  /\ match pos.1 with
     | Some h =>
         (forall s, last = Some s -> score_le (GetTotalScore h) s)
         /\ edge_inv CalcTotalScore e2 (Some (GetTotalScore h))
     | None => edge_inv CalcTotalScore e2 last
     end.
Proof.
  intros Hinv Hmono (e0 & Hcase & Htrue & Hres)%Dequeue_inv Hpush.
  destruct (edge_inv_initialised _ _ _ Hinv Hcase) as [Hinv0 Hgrid0].
  apply (grid_monotone_same_grid _ _ Hgrid0) in Hmono.
  clear Hinv Hcase.
  destruct Hinv0 as (Hch & Hct & Hcell & Hok & Hlast & Hinit).
  destruct Hres as [[Htop ->]|(Hnil & -> & ->)].
  - pose proof (pq_top_elem _ _ Htop) as Hin.
    pose proof (pq_top_max _ _ Htop) as Hmax.
    destruct pos as [[h|] [x y]]; cbn [fst snd] in *.
    + (* a position with a hypothesis *)
      assert (Forall (fun p : SquarePosition => is_Some p.1) (m_queue e0))
        as Hsome.
      { destruct Hok as [Hok|[xy Hq]]; [done|].
        rewrite Hq in Hin. by apply list_elem_of_singleton in Hin. }
      assert (edge_inv CalcTotalScore (set_queue (pq_pop (m_queue e0)) e0)
                (Some (GetTotalScore h))) as Hinv1.
      { rewrite Forall_forall in Hsome.
        unfold edge_inv. cbn. split_and!; try done; try congruence.
        - intros p h' Hp. apply Hcell. by apply pq_pop_subseteq.
        - left. apply Forall_forall. intros p Hp%pq_pop_subseteq. auto.
        - intros s [= <-]. apply Forall_forall. intros p Hp%pq_pop_subseteq.
          split; [auto|]. by apply Hmax in Hp. }
      pose proof (Hcell _ h Hin eq_refl) as Hc. cbn in Hc.
      destruct (Hmono x y h Hc) as [Hm1 Hm2].
      destruct (edge_inv_PushSuccessors _ e2 x y _ Hinv1 Htrue)
        as (Hinv2 & _ & Hgrid2); [| |done|].
      { intros s h' [= <-]. apply Hm1. }
      { intros s h' [= <-]. apply Hm2. }
      split; [by eapply same_grid_trans|]. split; [|done].
      intros s ->. specialize (Hlast s eq_refl). rewrite Forall_forall in Hlast.
      by destruct (Hlast _ Hin) as [_ Hle].
    + (* the position [Initialize] queued without hypothesis *)
      assert (m_queue e0 = [(None, (x, y))] /\ last = None) as [Hq ->].
      { destruct Hok as [Hok|[xy Hq]].
        - rewrite Forall_forall in Hok. by destruct (Hok _ Hin).
        - pose proof Hin as Hin'. rewrite Hq in Hin'.
          apply list_elem_of_singleton in Hin' as [= <-].
          split; [done|]. destruct last as [s|]; [|done].
          specialize (Hlast s eq_refl). rewrite Hq in Hlast.
          apply Forall_cons in Hlast as [[[] _] _]. done. }
      assert (edge_inv CalcTotalScore (set_queue (pq_pop (m_queue e0)) e0) None) as Hinv1.
      { unfold edge_inv. cbn. rewrite Hq. cbn. split_and!; try done; try congruence.
        - intros p h' Hp. by apply elem_of_nil in Hp.
        - by left. }
      destruct (edge_inv_PushSuccessors _ e2 x y _ Hinv1 Htrue)
        as (Hinv2 & _ & Hgrid2); [done..|].
      split; [by eapply same_grid_trans | done].
  - (* the sentinel: nothing can be pushed from (-1, -1) *)
    cbn [fst snd] in *.
    destruct (edge_inv_PushSuccessors e0 e2 (-1) (-1) last) as (Hinv2 & _ & Hgrid2);
      try done.
    + intros s h _ Hc. by apply cell_minus_one in Hc.
    + intros s h _ Hc. by apply cell_minus_one in Hc.
    + split; [by eapply same_grid_trans | done].
Qed.

Lemma pop_scores_cons (pos : SquarePosition) (pops : list SquarePosition) :
  pop_scores (pos :: pops)
  = match pos.1 with
    | Some h => GetTotalScore h :: pop_scores pops
    | None => pop_scores pops
    end.
Proof. unfold pop_scores. cbn. by destruct (pos.1). Qed.

Lemma run_edge_sorted (ops : list EdgeOp) (e e' : BackwardsEdge SquareMatrix)
    (last : option Score) (pops : list SquarePosition) :
  edge_inv CalcTotalScore e last -> grid_monotone CalcTotalScore e ->
  run_edge CalcTotalScore ops e = Ok (pops, e') ->
  Sorted (flip score_le) (pop_scores pops)
  /\ forall s, last = Some s ->
               Forall (fun s' => score_le s' s) (pop_scores pops).
Proof.
  revert e e' last pops.
  induction ops as [|op ops IH]; intros e e' last pops Hinv Hmono.
  - intros [= <- <-]. split; [constructor | by constructor].
  - destruct op; cbn [run_edge].
    + destruct (Dequeue CalcTotalScore true e) as [[pos e1]|] eqn:Hpeek; [|done].
      cbn [mbind result_bind rbind].
      destruct (edge_inv_peek _ _ _ _ Hinv Hpeek) as [Hinv1 Hgrid1].
      apply IH; [done|]. by eapply grid_monotone_same_grid.
    + destruct (Dequeue CalcTotalScore false e) as [[pos e1]|] eqn:Hpop; [|done].
      cbn [mbind result_bind rbind].
      destruct (PushSuccessors _ _ _ e1) as [e2|] eqn:Hpush; [|done].
      cbn [mbind result_bind rbind].
      destruct (run_edge _ ops e2) as [[pops' e3]|] eqn:Hrun; [|done].
      cbn [mbind result_bind rbind]. intros [= <- <-].
      destruct (edge_inv_pop _ _ _ _ _ Hinv Hmono Hpop Hpush) as [Hgrid2 Hcase].
      apply (grid_monotone_same_grid _ _ Hgrid2) in Hmono.
      rewrite pop_scores_cons. destruct (pos.1) as [h|].
      * destruct Hcase as [Hle Hinv2].
        destruct (IH _ _ _ _ Hinv2 Hmono Hrun) as [Hsorted Hbound].
        specialize (Hbound _ eq_refl). split.
        -- constructor; [done|]. destruct Hbound; by constructor.
        -- intros s Hs. constructor; [by apply Hle|].
           eapply Forall_impl; [exact Hbound|]. intros s' Hs'.
           eapply score_le_trans; [exact Hs' | by apply Hle].
      * by apply (IH _ _ _ _ Hcase Hmono Hrun).
Qed.


Lemma edge_inv_new (hypotheses : list Hypo)
    (translations : list TranslationOption) (futureScore : SquareMatrix)
    (K : nat) (e : BackwardsEdge SquareMatrix) :
  Z.of_nat K < 2 ^ 64 ->
  new_BackwardsEdge hypotheses translations futureScore K = Ok e ->
  edge_inv CalcTotalScore e None.
Proof.
  intros HK. rewrite new_BackwardsEdge_eq. intros [= <-].
  unfold edge_inv, capacity. cbn. rewrite !length_fmap, !length_take.
  split_and!; try done; try lia.
  - intros pos h Hin. by apply elem_of_nil in Hin.
  - left. constructor.
Qed.

(** C9.  Take an edge as its constructor leaves it (K being a [size_t]), and
    let no cell of its grid score higher than the cell to its left or the
    cell above it.  Whatever sequence of peeks and of pops (each followed by
    the push of the successors of the popped position) the container runs on
    the edge, the total scores of the hypotheses popped, in the order of the
    pops, never increase. *)
Theorem pops_non_increasing (hypotheses : list Hypo)
    (translations : list TranslationOption) (futureScore : SquareMatrix)
    (K : nat) (e e' : BackwardsEdge SquareMatrix) (ops : list EdgeOp)
    (pops : list SquarePosition) :
  Z.of_nat K < 2 ^ 64 ->
  new_BackwardsEdge hypotheses translations futureScore K = Ok e ->
  grid_monotone CalcTotalScore e ->
  run_edge CalcTotalScore ops e = Ok (pops, e') ->
  Sorted (flip score_le) (pop_scores pops).
Proof.
  intros HK Hnew Hmono Hrun.
  eapply run_edge_sorted; [by eapply edge_inv_new | done..].
Qed.

Lemma to_size_t_idemp (x : Z) : to_size_t (to_size_t x) = to_size_t x.
Proof. unfold to_size_t. apply Z.mod_mod. lia. Qed.

Lemma vector_at_Ok_lt {A} (b : Buffer) (v : vector A) (i : Z) (a : A) :
  vector_at b v i = Ok a -> (Z.to_nat (to_size_t i) < capacity v)%nat.
Proof.
  unfold vector_at, capacity.
  destruct (v_slots v !! _) as [[a'|]|] eqn:Hl; [|done..].
  intros _. by apply lookup_lt_Some in Hl.
Qed.

Lemma vector_at_to_size_t {A} (b : Buffer) (v : vector A) (i : Z) :
  vector_at b v (to_size_t i) = vector_at b v i.
Proof. unfold vector_at. by rewrite to_size_t_idemp. Qed.

Lemma cell_to_size_t (e : BackwardsEdge SquareMatrix) (x y : Z) :
  cell CalcTotalScore e (to_size_t x) (to_size_t y) = cell CalcTotalScore e x y.
Proof. unfold cell. by rewrite !vector_at_to_size_t. Qed.

Lemma to_size_t_succ (x : Z) (n : nat) :
  Z.of_nat n < 2 ^ 64 -> (Z.to_nat (to_size_t x) < n)%nat ->
  to_size_t (x + 1) = Z.of_nat (S (Z.to_nat (to_size_t x))).
Proof.
  intros Hn Hx. pose proof (to_size_t_nonneg x) as H0.
  unfold to_size_t in *. rewrite <- Zplus_mod_idemp_l.
  rewrite Z.mod_small; lia.
Qed.

(** [grid_monotone] need only be checked on the cells inside the snapshots. *)
Lemma grid_monotone_intro (e : BackwardsEdge SquareMatrix) :
  Z.of_nat (capacity (m_kbest_hypotheses e)) < 2 ^ 64 ->
  Z.of_nat (capacity (m_kbest_translations e)) < 2 ^ 64 ->
  (forall (i j : nat) (h : Hypo),
      (i < capacity (m_kbest_hypotheses e))%nat ->
      (j < capacity (m_kbest_translations e))%nat ->
      cell CalcTotalScore e (Z.of_nat i) (Z.of_nat j) = Ok (Some h) ->
      (forall h', cell CalcTotalScore e (Z.of_nat i) (Z.of_nat (S j))
                  = Ok (Some h') ->
                  score_le (GetTotalScore h') (GetTotalScore h))
      /\ (forall h', cell CalcTotalScore e (Z.of_nat (S i)) (Z.of_nat j)
                     = Ok (Some h') ->
                     score_le (GetTotalScore h') (GetTotalScore h))) ->
  grid_monotone CalcTotalScore e.
Proof.
  intros Hch Hct Hgrid x y h Hc.
  assert ((Z.to_nat (to_size_t x) < capacity (m_kbest_hypotheses e))%nat
          /\ (Z.to_nat (to_size_t y) < capacity (m_kbest_translations e))%nat)
    as [Hx Hy].
  { unfold cell in Hc.
    destruct (vector_at KBestHypotheses _ x) as [hx|] eqn:Hvx; [|done].
    cbn [mbind result_bind rbind] in Hc.
    destruct (vector_at KBestTranslations _ y) as [ty|] eqn:Hvy; [|done].
    split; by eapply vector_at_Ok_lt. }
  pose proof (to_size_t_nonneg x). pose proof (to_size_t_nonneg y).
  rewrite <- cell_to_size_t in Hc.
  rewrite <- (Z2Nat.id (to_size_t x)), <- (Z2Nat.id (to_size_t y)) in Hc by done.
  destruct (Hgrid _ _ h Hx Hy Hc) as [H1 H2].
  split; intros h'; rewrite <- cell_to_size_t.
  - rewrite (to_size_t_succ y _ Hct Hy).
    rewrite <- (Z2Nat.id (to_size_t x)) by done. apply H1.
  - rewrite (to_size_t_succ x _ Hch Hx).
    rewrite <- (Z2Nat.id (to_size_t y)) by done. apply H2.
Qed.

End PopOrder.

(** ** Loading the pruning settings *)

Section LoadDataProperties.

Context (ScanInt : string -> Z) (ScanSizeT : string -> nat)
        (Tokenize InputFileStream : string -> list string)
        (HAVE_PROTOBUF : bool) (Normal : Z) (IsChart : Z -> bool)
        (LoadData_rest : PARAMS -> StaticData -> outcome (bool * StaticData)).

(** With a chart search algorithm and a file of "unknown-lhs" that has a
    line of other than two tokens, LoadData leaves by the exception of
    [LoadNonTerminals] before it reads any other setting. *)
Lemma LoadData_chart_exception (parameter : PARAMS) (sd : StaticData)
    (e : Exception) :
  LoadData_search_algorithm ScanInt Tokenize InputFileStream Normal IsChart
    parameter = Thrown e ->
  LoadData ScanInt ScanSizeT Tokenize InputFileStream HAVE_PROTOBUF Normal
    IsChart LoadData_rest parameter sd = Thrown e.
Proof. unfold LoadData. by intros ->. Qed.


End LoadDataProperties.

(** C5 as stated does not hold: the cell [(0, 1)] of the edge
    [edge_clash_popped] is in bounds, was not seen, its construction returns
    NULL, and after [PushSuccessors(0, 0)] its entry in the seen-vector is
    still false. *)
Lemma PushSuccessors_leaves_null_cell_unseen :
  capacity (m_kbest_hypotheses edge_clash_popped) = 2%nat
  /\ capacity (m_kbest_translations edge_clash_popped) = 2%nat
  /\ SeenPosition 0 1 edge_clash_popped = Ok false
  /\ cell sum_score edge_clash_popped 0 1 = Ok None
  /\ (SeenPosition 0 1 <$> PushSuccessors sum_score 0 0 edge_clash_popped)
     = Ok (Ok false).
Proof. repeat split. Qed.

(** ** The examples of the properties of a round *)

(** A container whose second edge is drained: the peek of that edge returns
    the sentinel and the round stops on the NULL hypothesis. *)
Lemma FindKBestHypotheses_drained_edge_witness :
  FindKBestHypotheses sum_score
    (container [(1%nat, edge_3x3); (2%nat, edge_drained)])
  = ([EvDequeue 0 true peek_3x3.1; EvDequeue 1 true InvalidSquarePosition],
     Crash NullDereference).
Proof.
  refine (proj2 (proj2
    (FindKBestHypotheses_drained_edge sum_score
       (container [(1%nat, edge_3x3); (2%nat, edge_drained)])
       [(1%nat, edge_3x3)] [(1%nat, peek_3x3.2)] [] [peek_3x3.1]
       2%nat edge_drained eq_refl _ eq_refl eq_refl))).
  repeat constructor. by eexists.
Defined.

(** One call on a container with the single edge [edge_3x3]: one position is
    popped and one hypothesis admitted, and the call returns although the
    queue of the edge holds two positions. *)
Example FindKBestHypotheses_leaves_queued_positions :
  let r := FindKBestHypotheses sum_score (container [(1%nat, edge_3x3)]) in
  length (List.filter is_pop r.1) = 1%nat
  /\ length (List.filter is_AddPrune r.1) = 1%nat
  /\ ((fun c => Size <$> (snd <$> m_edges c)) <$> r.2) = Ok [2%nat].
Proof. repeat split. Qed.


(** ** The example of the order of pops *)

Example grid_3x3_monotone : grid_monotone sum_score edge_3x3.
Proof.
  apply grid_monotone_intro; [done..|].
  intros i j h Hi Hj.
  change (capacity (m_kbest_hypotheses edge_3x3)) with 3%nat in Hi.
  change (capacity (m_kbest_translations edge_3x3)) with 3%nat in Hj.
  destruct i as [|[|[|i]]]; [| | |lia];
    (destruct j as [|[|[|j]]]; [| | |lia]);
    intros Hc; vm_compute in Hc; injection Hc as <-;
    (split; intros h' Hc'; vm_compute in Hc'; [|]);
    try discriminate; injection Hc' as <-; reflexivity.
Qed.

(** The five pops of [edge_3x3] score -2, -3, -4, -5 and -5. *)
Lemma pops_non_increasing_witness :
  pop_scores run_3x3.1 = [Fin (-2); Fin (-3); Fin (-4); Fin (-5); Fin (-5)]
  /\ Sorted (flip score_le) (pop_scores run_3x3.1).
Proof.
  split; [reflexivity|].
  apply (pops_non_increasing sum_score [hypo_a; hypo_b; hypo_c]
           [opt_1 (-1); opt_1 (-3); opt_1 (-4)] tt 3 edge_3x3 run_3x3.2
           five_pops run_3x3.1).
  - reflexivity.
  - reflexivity.
  - apply grid_3x3_monotone.
  - vm_compute. reflexivity.
Defined.

(** ** The examples of the pruning settings *)


(** The same settings with a file of "unknown-lhs" whose second line has one
    token: LoadData throws. *)
Example LoadData_malformed_unknown_lhs :
  LoadData scan_int scan_size_t tokenize unknown_lhs_file false 0
    chart_search no_rest params_chart_malformed (mkStaticData 0 0 7)
  = Thrown (IncorrectUnknownLHS "S").
Proof. reflexivity. Qed.

(** ** The destructor of an edge *)


Lemma pq_pop_perm (q : list SquarePosition) (p : SquarePosition) :
  pq_top q = Some p -> q ≡ₚ p :: pq_pop q.
Proof.
  revert p. induction q as [|p0 q IH]; intros p; [done|].
  cbn [pq_top pq_pop]. destruct (pq_top q) as [p'|] eqn:Ht.
  - destruct (score_gt _ _).
    + intros [= <-]. rewrite (IH p') at 1 by done. apply Permutation_swap.
    + by intros [= <-].
  - by intros [= <-].
Qed.





(** Of the three positions queued in [edge_3x3_queued] the destructor deletes
    two. *)
Example delete_BackwardsEdge_three :
  length (delete_BackwardsEdge edge_3x3_queued).2 = 2%nat
  /\ length (delete_BackwardsEdge edge_3x3_queued).1 = 1%nat.
Proof. split; reflexivity. Qed.

(** ** The operations of an edge *)

Section EdgeOperations.

Context {SquareMatrix : Type} (CalcTotalScore : SquareMatrix -> Hypo -> Score).

Lemma seen_index_mod (e : BackwardsEdge SquareMatrix) (x y : Z) :
  seen_index e x y = (Z.of_nat (m_kbest e) * x + y) mod 2 ^ 64.
Proof.
  unfold seen_index, to_size_t.
  rewrite Z.add_mod_idemp_r by done.
  rewrite <- Z.add_mod_idemp_l by done.
  rewrite Z.mul_mod_idemp_r by done.
  by rewrite Z.add_mod_idemp_l by done.
Qed.

(** X2.  The index of a mark is [m_kbest * x + y]: column [m_kbest] of row
    [x] has the mark of column 0 of row [x + 1].  [SeenPosition] answers for
    a cell to the right of the grid with the mark of a cell of the next
    row. *)
Theorem SeenPosition_row_overflow (e : BackwardsEdge SquareMatrix) (x y : Z) :
  SeenPosition x (y + Z.of_nat (m_kbest e)) e = SeenPosition (x + 1) y e.
Proof.
  unfold SeenPosition. f_equal. rewrite !seen_index_mod. f_equal. lia.
Qed.

(** X6.  A peek can be repeated: peeking the edge that a peek returned
    gives the same position and the same edge, which is initialised; peeking
    an initialised edge does not change it. *)
Theorem Dequeue_peek_repeatable (e e' : BackwardsEdge SquareMatrix)
    (pos : SquarePosition) :
  Dequeue CalcTotalScore true e = Ok (pos, e') ->
  Dequeue CalcTotalScore true e' = Ok (pos, e')
  /\ m_initialized e' = true
  /\ (m_initialized e = true -> e' = e).
Proof.
  intros Hd. destruct (Dequeue_inv CalcTotalScore _ _ _ _ Hd)
    as (e1 & Hinit & Hi1 & Htop).
  assert (e' = e1) as -> by (by destruct Htop as [[_ ->]|(_ & _ & ->)]).
  split_and!; [|done|].
  - unfold Dequeue. rewrite Hi1. cbn [mret result_ret mbind result_bind rbind].
    destruct Htop as [[-> _]|(-> & -> & _)]; done.
  - intros Hi. destruct Hinit as [[_ ->]|[Hf _]]; [done|congruence].
Qed.

(** X7.  [Dequeue(false)] on an initialised edge never faults and leaves
    the grid and the seen marks as they are.  On an empty queue it returns
    the sentinel and the edge unchanged; otherwise it returns a queued
    position of maximal score and removes this one position from the
    queue. *)
Theorem Dequeue_pop_initialised (e : BackwardsEdge SquareMatrix) :
  m_initialized e = true ->
  exists pos e',
    Dequeue CalcTotalScore false e = Ok (pos, e')
    /\ same_grid e e' /\ m_seenPosition e' = m_seenPosition e
    /\ if Empty e
       then pos = InvalidSquarePosition /\ e' = e
       else pos ∈ m_queue e
            /\ (forall p, p ∈ m_queue e ->
                          score_le (position_score p) (position_score pos))
            /\ m_queue e ≡ₚ pos :: m_queue e'
            /\ S (Size e') = Size e.
Proof.
  intros Hi. unfold Dequeue, Empty. rewrite Hi.
  cbn [mret result_ret mbind result_bind rbind].
  destruct (pq_top (m_queue e)) as [pos|] eqn:Htop.
  - eexists _, _. split; [done|]. split; [done|]. split; [done|].
    rewrite bool_decide_eq_false_2
      by (intros Hq; by rewrite Hq in Htop).
    split_and!.
    + by apply pq_top_elem.
    + by apply pq_top_max.
    + by apply pq_pop_perm.
    + unfold Size. cbn [set_queue m_queue].
      apply pq_pop_perm, Permutation_length in Htop. by rewrite Htop.
  - apply pq_top_None in Htop. eexists _, _. split; [done|].
    split; [done|]. split; [done|].
    by rewrite bool_decide_eq_true_2.
Qed.

(** X8.  An edge constructed with no predecessor hypothesis, with no
    translation option or with K = 0 has an empty snapshot: its first
    [Dequeue], which initialises it, reads slot 0 outside the snapshot. *)
Theorem Dequeue_empty_snapshot (hypotheses : list Hypo)
    (translations : list TranslationOption) (futureScore : SquareMatrix)
    (K : nat) (e : BackwardsEdge SquareMatrix) (keepValue : bool) :
  new_BackwardsEdge hypotheses translations futureScore K = Ok e ->
  Nat.min K (length hypotheses) = 0%nat
  \/ Nat.min K (length translations) = 0%nat ->
  exists b, Dequeue CalcTotalScore keepValue e = Crash (OutOfBounds b 0).
Proof.
  rewrite new_BackwardsEdge_eq. intros [= <-] Hmin.
  unfold Dequeue. cbn [m_initialized mret result_ret mbind result_bind rbind].
  unfold Initialize. cbn [m_kbest_hypotheses m_kbest_translations].
  destruct (decide (Nat.min K (length hypotheses) = 0%nat)) as [Hh|Hh].
  - exists KBestHypotheses.
    rewrite (vector_at_out_of_bounds KBestHypotheses); [done|].
    unfold capacity. cbn [v_slots]. rewrite length_fmap, length_take.
    change (Z.to_nat (to_size_t 0)) with 0%nat. lia.
  - destruct Hmin as [?|Ht]; [done|].
    exists KBestTranslations.
    destruct (take (Nat.min K (length hypotheses)) hypotheses)
      as [|h l] eqn:Htake.
    { apply (f_equal length) in Htake. rewrite length_take in Htake.
      cbn [length] in Htake. lia. }
    change (vector_at KBestHypotheses (mkVector (Some <$> h :: l) 0) 0)
      with (Ok (A:=Hypo) h).
    cbn [mbind result_bind rbind].
    rewrite (vector_at_out_of_bounds KBestTranslations); [done|].
    unfold capacity. cbn [v_slots]. rewrite length_fmap, length_take.
    change (Z.to_nat (to_size_t 0)) with 0%nat. lia.
Qed.

End EdgeOperations.

(** ** The seen marks *)

Section SeenMarks.

Context {SquareMatrix : Type} (CalcTotalScore : SquareMatrix -> Hypo -> Score).

Lemma seen_grows_refl (e : BackwardsEdge SquareMatrix) : seen_grows e e.
Proof. by split_and!. Qed.

Lemma seen_grows_trans (e1 e2 e3 : BackwardsEdge SquareMatrix) :
  seen_grows e1 e2 -> seen_grows e2 e3 -> seen_grows e1 e3.
Proof.
  intros (Hk & Hg & Hl & Hm) (Hk' & Hg' & Hl' & Hm').
  split_and!; [congruence|by eapply same_grid_trans|congruence|auto].
Qed.

Lemma seen_grows_set_queue (e : BackwardsEdge SquareMatrix)
    (q : list SquarePosition) :
  seen_grows e (set_queue q e).
Proof. by split_and!. Qed.

Lemma seen_grows_mark (e : BackwardsEdge SquareMatrix) (i : nat) :
  seen_grows e (set_seenPosition (<[i := true]> (m_seenPosition e)) e).
Proof.
  split_and!; [done|done|apply length_insert|].
  cbn [set_seenPosition m_seenPosition]. intros j Hj.
  destruct (decide (i = j)) as [->|Hne].
  - rewrite list_lookup_insert_eq; [done|]. by eapply lookup_lt_Some.
  - by rewrite list_lookup_insert_ne.
Qed.

Lemma seen_grows_SeenPosition (e e' : BackwardsEdge SquareMatrix) (x y : Z) :
  seen_grows e e' ->
  SeenPosition x y e = Ok true -> SeenPosition x y e' = Ok true.
Proof.
  intros (Hk & _ & _ & Hm). unfold SeenPosition, seen_index, bits_at.
  rewrite Hk.
  destruct (m_seenPosition e !! _) as [[]|] eqn:Hl; [|done..].
  intros _. by rewrite (Hm _ Hl).
Qed.

Lemma Enqueue_grows (e e' : BackwardsEdge SquareMatrix) (x y : Z)
    (hypothesis : option Hypo) :
  Enqueue x y hypothesis e = Ok e' -> seen_grows e e'.
Proof.
  intros [-> _]%Enqueue_inv.
  eapply seen_grows_trans; [apply seen_grows_set_queue|].
  apply (seen_grows_mark (set_queue _ e)).
Qed.

Lemma Initialize_steps (e e' : BackwardsEdge SquareMatrix) :
  Initialize CalcTotalScore e = Ok e' ->
  exists r e1,
    Enqueue 0 0 r e = Ok e1
    /\ e' = set_initialized true
              (set_seenPosition (<[0%nat := true]> (m_seenPosition e1)) e1).
Proof.
  unfold Initialize.
  destruct (vector_at KBestHypotheses _ 0) as [h|]; [|done].
  cbn [mbind result_bind rbind].
  destruct (vector_at KBestTranslations _ 0) as [t|]; [|done].
  cbn [mbind result_bind rbind].
  destruct (CreateHypothesis _ _ _ _) as [r|]; [|done].
  cbn [mbind result_bind rbind].
  destruct (Enqueue 0 0 r e) as [e1|] eqn:He; [|done].
  cbn [mbind result_bind rbind]. unfold bits_set.
  destruct (_ <? _)%nat; [|done].
  cbn [mbind result_bind rbind mret result_ret]. intros [= <-].
  by eexists _, _.
Qed.

Lemma Initialize_grows (e e' : BackwardsEdge SquareMatrix) :
  Initialize CalcTotalScore e = Ok e' -> seen_grows e e'.
Proof.
  intros (r & e1 & He & ->)%Initialize_steps.
  eapply seen_grows_trans; [by eapply Enqueue_grows|].
  eapply seen_grows_trans; [apply (seen_grows_mark e1 0)|].
  by split_and!.
Qed.

Lemma PushSuccessor_grows (e e' : BackwardsEdge SquareMatrix) (x y : Z) :
  PushSuccessor CalcTotalScore x y e = Ok e' -> seen_grows e e'.
Proof.
  intros [[_ ->]|(_ & r & _ & Hr)]%PushSuccessor_inv;
    [apply seen_grows_refl|].
  destruct r as [h|]; [by eapply Enqueue_grows|].
  subst. apply seen_grows_refl.
Qed.

Lemma PushSuccessors_steps (e e' : BackwardsEdge SquareMatrix) (x y : Z) :
  PushSuccessors CalcTotalScore x y e = Ok e' ->
  exists e1, PushSuccessor CalcTotalScore x (y + 1) e = Ok e1
             /\ PushSuccessor CalcTotalScore (x + 1) y e1 = Ok e'.
Proof.
  unfold PushSuccessors.
  destruct (PushSuccessor CalcTotalScore x (y + 1) e) as [e1|]; [|done].
  cbn [mbind result_bind rbind]. by exists e1.
Qed.

Lemma PushSuccessors_grows (e e' : BackwardsEdge SquareMatrix) (x y : Z) :
  PushSuccessors CalcTotalScore x y e = Ok e' -> seen_grows e e'.
Proof.
  intros (e1 & H1 & H2)%PushSuccessors_steps.
  eapply seen_grows_trans; by eapply PushSuccessor_grows.
Qed.

Lemma Dequeue_grows (keepValue : bool) (e e' : BackwardsEdge SquareMatrix)
    (pos : SquarePosition) :
  Dequeue CalcTotalScore keepValue e = Ok (pos, e') -> seen_grows e e'.
Proof.
  intros (e1 & Hinit & _ & Htop)%Dequeue_inv.
  assert (seen_grows e e1) as H1.
  { destruct Hinit as [[_ ->]|[_ Hi]];
      [apply seen_grows_refl|by apply Initialize_grows]. }
  eapply seen_grows_trans; [done|].
  destruct Htop as [[_ ->]|(_ & _ & ->)]; [|apply seen_grows_refl].
  destruct keepValue; [apply seen_grows_refl|apply seen_grows_set_queue].
Qed.

Lemma run_edge_grows (ops : list EdgeOp) (e e' : BackwardsEdge SquareMatrix)
    (pops : list SquarePosition) :
  run_edge CalcTotalScore ops e = Ok (pops, e') -> seen_grows e e'.
Proof.
  revert e pops. induction ops as [|[] ops IH]; intros e pops; cbn [run_edge].
  - intros [= _ <-]. apply seen_grows_refl.
  - destruct (Dequeue CalcTotalScore true e) as [[pos e1]|] eqn:Hd; [|done].
    cbn [mbind result_bind rbind]. intros Hrun.
    eapply seen_grows_trans; [by eapply Dequeue_grows|by eapply IH].
  - destruct (Dequeue CalcTotalScore false e) as [[pos e1]|] eqn:Hd; [|done].
    cbn [mbind result_bind rbind].
    destruct (PushSuccessors _ _ _ e1) as [e2|] eqn:Hp; [|done].
    cbn [mbind result_bind rbind].
    destruct (run_edge _ ops e2) as [[pops' e3]|] eqn:Hrun; [|done].
    cbn [mbind result_bind rbind mret result_ret]. intros [= _ <-].
    eapply seen_grows_trans; [by eapply Dequeue_grows|].
    eapply seen_grows_trans; [by eapply PushSuccessors_grows|by eapply IH].
Qed.

(** X3.  Whatever peeks and rounds an edge goes through, the vector of seen
    marks keeps its length, K and the grid stay what they were, and no mark
    is ever cleared: a cell that [SeenPosition] reports seen is reported seen
    ever after. *)
Theorem run_edge_keeps_seen_marks (ops : list EdgeOp)
    (e e' : BackwardsEdge SquareMatrix) (pops : list SquarePosition) :
  run_edge CalcTotalScore ops e = Ok (pops, e') ->
  length (m_seenPosition e') = length (m_seenPosition e)
  /\ m_kbest e' = m_kbest e
  /\ same_grid e e'
  /\ (forall x y, SeenPosition x y e = Ok true -> SeenPosition x y e' = Ok true).
Proof.
  intros Hg%run_edge_grows. pose proof Hg as (Hk & Hgrid & Hl & _).
  split_and!; [done..|]. intros x y. by apply seen_grows_SeenPosition.
Qed.

End SeenMarks.

(** ** A neighbour that cannot be built *)

Section NullNeighbour.

Context {SquareMatrix : Type} (CalcTotalScore : SquareMatrix -> Hypo -> Score).

(** The constructor builds edges whose snapshots are within K, and the
    operations on an edge keep them so. *)
Lemma snapshots_within_K_new (hypotheses : list Hypo)
    (translations : list TranslationOption) (futureScore : SquareMatrix)
    (K : nat) (e : BackwardsEdge SquareMatrix) :
  Z.of_nat K < 2 ^ 64 ->
  new_BackwardsEdge hypotheses translations futureScore K = Ok e ->
  snapshots_within_K e.
Proof.
  intros HK. rewrite new_BackwardsEdge_eq. intros [= <-].
  unfold snapshots_within_K, capacity.
  cbn [m_kbest m_kbest_hypotheses m_kbest_translations v_slots].
  rewrite !length_fmap, !length_take. split_and!; [lia|lia|done].
Qed.

Lemma snapshots_within_K_grows (e e' : BackwardsEdge SquareMatrix) :
  seen_grows e e' -> snapshots_within_K e -> snapshots_within_K e'.
Proof.
  intros (Hk & (Hh & Ht & _) & _) (Hch & Hct & HK).
  unfold snapshots_within_K. by rewrite Hk, Hh, Ht.
Qed.

Lemma snapshots_within_K_run_edge (hypotheses : list Hypo)
    (translations : list TranslationOption) (futureScore : SquareMatrix)
    (K : nat) (ops : list EdgeOp) (e0 e e1 : BackwardsEdge SquareMatrix)
    (pops : list SquarePosition) (pos : SquarePosition) :
  Z.of_nat K < 2 ^ 64 ->
  new_BackwardsEdge hypotheses translations futureScore K = Ok e0 ->
  run_edge CalcTotalScore ops e0 = Ok (pops, e) ->
  Dequeue CalcTotalScore false e = Ok (pos, e1) ->
  snapshots_within_K e1.
Proof.
  intros HK Hnew Hrun Hpop.
  eapply snapshots_within_K_grows; [by eapply Dequeue_grows|].
  eapply snapshots_within_K_grows; [by eapply run_edge_grows|].
  by eapply snapshots_within_K_new.
Qed.

Lemma cell_in_bounds (e : BackwardsEdge SquareMatrix) (x y : Z)
    (r : option Hypo) :
  cell CalcTotalScore e x y = Ok r ->
  (Z.to_nat (to_size_t x) < capacity (m_kbest_hypotheses e))%nat
  /\ (Z.to_nat (to_size_t y) < capacity (m_kbest_translations e))%nat.
Proof.
  unfold cell.
  destruct (vector_at KBestHypotheses _ x) as [h|] eqn:Hh; [|done].
  cbn [mbind result_bind rbind].
  destruct (vector_at KBestTranslations _ y) as [t|] eqn:Ht; [|done].
  intros _. split; by eapply vector_at_Ok_lt.
Qed.

(** The two neighbours of a position have different marks when both lie
    inside snapshots that are within K. *)
Lemma neighbour_marks_differ (e : BackwardsEdge SquareMatrix) (x y : Z)
    (r1 r2 : option Hypo) :
  snapshots_within_K e ->
  cell CalcTotalScore e x (y + 1) = Ok r1 ->
  cell CalcTotalScore e (x + 1) y = Ok r2 ->
  seen_index e x (y + 1) <> seen_index e (x + 1) y.
Proof.
  intros (Hch & _ & HK) [Hx _]%cell_in_bounds [Hx1 _]%cell_in_bounds.
  assert (Z.to_nat (to_size_t x) < m_kbest e)%nat as HxK by lia.
  rewrite (to_size_t_succ x (m_kbest e) HK HxK) in Hx1.
  rewrite Nat2Z.id in Hx1.
  assert (2 <= Z.of_nat (m_kbest e)) as H2 by lia.
  rewrite !seen_index_mod. intros Heq.
  pose proof (Z.div_mod (Z.of_nat (m_kbest e) * x + (y + 1)) (2 ^ 64)
                ltac:(done)) as Ha.
  pose proof (Z.div_mod (Z.of_nat (m_kbest e) * (x + 1) + y) (2 ^ 64)
                ltac:(done)) as Hb.
  rewrite Heq in Ha.
  set (qa := (Z.of_nat (m_kbest e) * x + (y + 1)) / 2 ^ 64) in *.
  set (qb := (Z.of_nat (m_kbest e) * (x + 1) + y) / 2 ^ 64) in *.
  set (rb := (Z.of_nat (m_kbest e) * (x + 1) + y) mod 2 ^ 64) in *.
  clearbody qa qb rb. clear Heq Hx Hx1 HxK Hch.
  assert (Z.of_nat (m_kbest e) - 1 = 2 ^ 64 * (qb - qa)) as Hdiff by lia.
  clear Ha Hb. change (2 ^ 64) with 18446744073709551616 in *. lia.
Qed.

(** On an edge whose snapshots are within K, after a call
    [PushSuccessors(x, y)] that completes, a neighbour cell that was not
    marked seen, lies inside the snapshots and could not be built is still
    not marked seen, and no position of that cell was put on the queue. *)
Lemma null_neighbour_within_K (e e' : BackwardsEdge SquareMatrix)
    (x y x' y' : Z) :
  snapshots_within_K e ->
  PushSuccessors CalcTotalScore x y e = Ok e' ->
  (x', y') = (x, y + 1) \/ (x', y') = (x + 1, y) ->
  SeenPosition x' y' e = Ok false ->
  cell CalcTotalScore e x' y' = Ok None ->
  SeenPosition x' y' e' = Ok false
  /\ exists new,
      m_queue e' = m_queue e ++ new
      /\ Forall (fun pos : SquarePosition => pos.2 <> (x', y')) new.
Proof.
  intros Hin (e1 & H1 & H2)%PushSuccessors_steps Hxy Hunseen Hnull.
  assert (forall e0 : BackwardsEdge SquareMatrix,
            SeenPosition x' y' e0 = Ok false ->
            SeenPosition x' y' e0 = Ok false
            /\ exists new, m_queue e0 = m_queue e0 ++ new
                           /\ Forall (fun pos : SquarePosition =>
                                        pos.2 <> (x', y')) new) as Hsame.
  { intros e0 ?. split; [done|]. exists [].
    by rewrite (right_id_L [] (++)). }
  destruct Hxy as [[= -> ->]|[= -> ->]].
  - apply PushSuccessor_inv in H1 as [[Hs _]|(_ & r & Hr & He1)];
      [congruence|].
    rewrite Hnull in Hr. injection Hr as <-. subst e1.
    apply PushSuccessor_inv in H2 as [[_ ->]|(_ & r & Hr & He)];
      [by apply Hsame|].
    destruct r as [h|]; [|subst; by apply Hsame].
    pose proof (neighbour_marks_differ e x y _ _ Hin Hnull Hr) as Hne.
    split.
    + by rewrite (SeenPosition_Enqueue_ne _ _ _ _ _ _ _ He
                    (not_eq_sym Hne)).
    + exists [(Some h, (x + 1, y))]. split.
      * by apply Enqueue_facts in He as (_ & _ & _ & ?).
      * apply Forall_singleton. cbn [snd]. intros [= ? ?]. lia.
  - apply PushSuccessor_inv in H1 as [[_ ->]|(_ & r & Hr & He1)].
    { apply PushSuccessor_inv in H2 as [[Hs _]|(_ & r & Hr & He)];
        [congruence|].
      rewrite Hnull in Hr. injection Hr as <-. subst. by apply Hsame. }
    destruct r as [h|].
    2:{ subst e1.
        apply PushSuccessor_inv in H2 as [[Hs _]|(_ & r & Hr2 & He)];
          [congruence|].
        rewrite Hnull in Hr2. injection Hr2 as <-. subst. by apply Hsame. }
    pose proof (neighbour_marks_differ e x y _ _ Hin Hr Hnull) as Hne.
    pose proof (SeenPosition_Enqueue_ne _ _ _ _ (x + 1) y _ He1 Hne) as Hs1.
    pose proof (cell_Enqueue CalcTotalScore _ _ _ _ (x + 1) y _ He1) as Hc1.
    rewrite Hunseen in Hs1. rewrite Hnull in Hc1.
    apply PushSuccessor_inv in H2 as [[Hs _]|(_ & r & Hr2 & He)];
      [congruence|].
    rewrite Hc1 in Hr2. injection Hr2 as <-. subst e'.
    split; [done|]. exists [(Some h, (x, y + 1))]. split.
    + by apply Enqueue_facts in He1 as (_ & _ & _ & ?).
    + apply Forall_singleton. cbn [snd]. intros [= ? ?]. lia.
Qed.

(** C5, as the code has it.  On an edge built by the constructor, after any
    peeks and pops and the pop that precedes it, a call
    [PushSuccessors(x, y)] that completes leaves a neighbour cell that was
    not marked seen, lies inside the snapshots and could not be built
    ([CreateHypothesis] returned NULL) not marked seen, and puts no position
    of that cell on the queue: [Enqueue], which sets the mark, is called only
    for a hypothesis that is not NULL. *)
Theorem PushSuccessors_null_neighbour (hypotheses : list Hypo)
    (translations : list TranslationOption) (futureScore : SquareMatrix)
    (K : nat) (ops : list EdgeOp) (e0 e e1 e' : BackwardsEdge SquareMatrix)
    (pops : list SquarePosition) (popped : SquarePosition) (x y x' y' : Z) :
  Z.of_nat K < 2 ^ 64 ->
  new_BackwardsEdge hypotheses translations futureScore K = Ok e0 ->
  run_edge CalcTotalScore ops e0 = Ok (pops, e) ->
  Dequeue CalcTotalScore false e = Ok (popped, e1) ->
  PushSuccessors CalcTotalScore x y e1 = Ok e' ->
  (x', y') = (x, y + 1) \/ (x', y') = (x + 1, y) ->
  SeenPosition x' y' e1 = Ok false ->
  cell CalcTotalScore e1 x' y' = Ok None ->
  SeenPosition x' y' e' = Ok false
  /\ exists new,
      m_queue e' = m_queue e1 ++ new
      /\ Forall (fun pos : SquarePosition => pos.2 <> (x', y')) new.
Proof.
  intros HK Hnew Hrun Hpop. apply null_neighbour_within_K.
  by eapply snapshots_within_K_run_edge.
Qed.

End NullNeighbour.

(** K = 2, two hypotheses and two options; option 1 is linked to an option for
    the word it covers itself, so that the cell [(0, 1)] cannot be built.
    [PushSuccessors(0, 0)] completes, queues [(1, 0)] and neither marks nor
    queues [(0, 1)]. *)
Lemma PushSuccessors_null_neighbour_witness :
  exists e',
    PushSuccessors sum_score 0 0 edge_clash_popped = Ok e'
    /\ cell sum_score edge_clash_popped 0 1 = Ok None
    /\ SeenPosition 0 1 e' = Ok false
    /\ exists new,
        m_queue e' = m_queue edge_clash_popped ++ new
        /\ Forall (fun pos : SquarePosition => pos.2 <> (0, 1)) new.
Proof.
  eexists. split; [reflexivity|]. split; [reflexivity|].
  eapply (PushSuccessors_null_neighbour sum_score [hypo_a; hypo_b]
           [opt_1 (-1); opt_clash] tt 2 []
           (from_ok edge_none
              (new_BackwardsEdge [hypo_a; hypo_b] [opt_1 (-1); opt_clash]
                 tt 2))
           (from_ok edge_none
              (new_BackwardsEdge [hypo_a; hypo_b] [opt_1 (-1); opt_clash]
                 tt 2))
           edge_clash_popped _ [] _ 0 0 0 1).
  - reflexivity.
  - reflexivity.
  - reflexivity.
  - reflexivity.
  - reflexivity.
  - left. reflexivity.
  - reflexivity.
  - reflexivity.
Defined.

(** ** No cell is popped twice *)

Section PopsOnce.

Context {SquareMatrix : Type} (CalcTotalScore : SquareMatrix -> Hypo -> Score).

Lemma SeenPosition_same_index (e : BackwardsEdge SquareMatrix)
    (x y x' y' : Z) :
  seen_index e x y = seen_index e x' y' ->
  SeenPosition x y e = SeenPosition x' y' e.
Proof. unfold SeenPosition. by intros ->. Qed.

Lemma pops_inv_grows (e e' : BackwardsEdge SquareMatrix)
    (popped : list SquarePosition) :
  pops_inv e popped -> seen_grows e e' ->
  m_queue e' = m_queue e -> m_initialized e' = m_initialized e ->
  pops_inv e' popped.
Proof.
  intros (Hh & Ht & Hseen & Hnd & Hini) Hg Hq Hi.
  pose proof Hg as (Hk & (Hgh & Hgt & _) & _ & _).
  split_and!.
  - by rewrite Hgh.
  - by rewrite Hgt.
  - rewrite Hq. intros pos Hpos. destruct (Hseen pos Hpos) as [Hr Hs].
    split; [done|]. by eapply seen_grows_SeenPosition.
  - rewrite Hq. unfold seen_index in *. by rewrite Hk.
  - rewrite Hq, Hi. done.
Qed.

Lemma pops_inv_Enqueue (e e' : BackwardsEdge SquareMatrix)
    (popped : list SquarePosition) (x y : Z) (hypothesis : option Hypo) :
  pops_inv e popped ->
  (m_initialized e = false -> popped = []) ->
  SeenPosition x y e = Ok false -> (x, y) <> (-1, -1) ->
  Enqueue x y hypothesis e = Ok e' ->
  (forall pos, pos ∈ popped ++ m_queue e' ->
               real_position pos /\ SeenPosition pos.2.1 pos.2.2 e' = Ok true)
  /\ NoDup ((fun pos : SquarePosition => seen_index e' pos.2.1 pos.2.2)
              <$> (popped ++ m_queue e'))
  /\ seen_grows e e'
  /\ m_queue e' = m_queue e ++ [(hypothesis, (x, y))]
  /\ m_initialized e' = m_initialized e.
Proof.
  intros (Hh & Ht & Hseen & Hnd & Hini) Hpop Hfalse Hreal He.
  pose proof (Enqueue_grows _ _ _ _ _ He) as Hg.
  pose proof (SeenPosition_Enqueue_eq _ _ _ _ _ He) as Hnew.
  destruct (Enqueue_facts _ _ _ _ _ He) as (_ & Hi & _ & Hq).
  pose proof Hg as (Hk & _ & _ & _).
  assert (forall a b, seen_index e' a b = seen_index e a b) as Hidx.
  { intros a b. unfold seen_index. by rewrite Hk. }
  split_and!; [| |done..].
  - rewrite Hq, (assoc_L (++)). intros pos [Hpos|Hpos]%elem_of_app.
    + destruct (Hseen pos Hpos) as [Hr Hs].
      split; [done|]. by eapply seen_grows_SeenPosition.
    + apply list_elem_of_singleton in Hpos as ->. by split.
  - rewrite Hq, (assoc_L (++)), fmap_app. apply NoDup_app. split_and!.
    + erewrite list_fmap_ext; [exact Hnd|]. intros _ pos _. apply Hidx.
    + intros i (pos & -> & Hpos)%list_elem_of_fmap Hin.
      cbn [fmap list_fmap] in Hin. apply list_elem_of_singleton in Hin.
      cbn [fst snd] in Hin. rewrite !Hidx in Hin.
      destruct (Hseen pos Hpos) as [_ Hs].
      rewrite (SeenPosition_same_index _ _ _ _ _ Hin) in Hs. congruence.
    + apply NoDup_singleton.
Qed.

Lemma pops_inv_Initialize (e e' : BackwardsEdge SquareMatrix) :
  pops_inv e [] -> m_initialized e = false ->
  Initialize CalcTotalScore e = Ok e' -> pops_inv e' [].
Proof.
  intros Hinv Hi Hinit. pose proof Hinv as (Hh & Ht & Hseen & Hnd & Hini).
  destruct (Hini Hi) as [Hq _].
  pose proof (Initialize_grows CalcTotalScore _ _ Hinit) as Hg.
  destruct (Initialize_inv CalcTotalScore _ _ Hinit)
    as (r & _ & (Hgh & Hgt & _) & Hi' & _ & Hq').
  rewrite Hq in Hq'. cbn [app] in Hq'.
  destruct (Initialize_steps CalcTotalScore _ _ Hinit) as (r' & e1 & He & ->).
  pose proof (SeenPosition_Enqueue_eq _ _ _ _ _ He) as Hnew.
  pose proof (Enqueue_grows _ _ _ _ _ He) as Hg1.
  split_and!.
  - by rewrite Hgh.
  - by rewrite Hgt.
  - rewrite Hq'. cbn [app]. intros pos ->%list_elem_of_singleton.
    split; [done|]. cbn [fst snd].
    eapply (seen_grows_SeenPosition e1); [|done].
    eapply seen_grows_trans; [apply (seen_grows_mark e1 0)|by split_and!].
  - rewrite Hq'. apply NoDup_singleton.
  - by rewrite Hi'.
Qed.

Lemma pops_inv_PushSuccessor (e e' : BackwardsEdge SquareMatrix)
    (popped : list SquarePosition) (x y : Z) :
  pops_inv e popped -> m_initialized e = true ->
  PushSuccessor CalcTotalScore x y e = Ok e' ->
  pops_inv e' popped /\ m_initialized e' = true.
Proof.
  intros Hinv Hi [[_ ->]|(Hfalse & r & Hcell & Hr)]%PushSuccessor_inv; [done|].
  destruct r as [h|]; [|by subst].
  pose proof Hinv as (Hh & Ht & _).
  assert ((x, y) <> (-1, -1)) as Hreal.
  { intros [= -> ->].
    by destruct (cell_minus_one CalcTotalScore e (-1) (Some h) Hh Ht)
      as [Hc _]. }
  destruct (pops_inv_Enqueue _ _ popped _ _ _ Hinv ltac:(congruence)
              Hfalse Hreal Hr) as (Hs & Hnd & Hg & Hq & Hi').
  pose proof Hg as (Hk & (Hgh & Hgt & _) & _ & _).
  split; [|congruence]. split_and!; [by rewrite Hgh|by rewrite Hgt|done..|].
  intros ?; congruence.
Qed.

Lemma pops_inv_PushSuccessors (e e' : BackwardsEdge SquareMatrix)
    (popped : list SquarePosition) (x y : Z) :
  pops_inv e popped -> m_initialized e = true ->
  PushSuccessors CalcTotalScore x y e = Ok e' ->
  pops_inv e' popped /\ m_initialized e' = true.
Proof.
  intros Hinv Hi (e1 & H1 & H2)%PushSuccessors_steps.
  destruct (pops_inv_PushSuccessor _ _ _ _ _ Hinv Hi H1) as [Hinv1 Hi1].
  by eapply pops_inv_PushSuccessor.
Qed.

Lemma pops_inv_initialised (e e1 : BackwardsEdge SquareMatrix)
    (popped : list SquarePosition) :
  pops_inv e popped ->
  (m_initialized e = true /\ e1 = e)
  \/ (m_initialized e = false /\ Initialize CalcTotalScore e = Ok e1) ->
  pops_inv e1 popped.
Proof.
  intros Hinv [[_ ->]|[Hi Hinit]]; [done|].
  pose proof Hinv as (_ & _ & _ & _ & Hini). destruct (Hini Hi) as [_ ->].
  by eapply pops_inv_Initialize.
Qed.

Lemma pops_inv_peek (e e' : BackwardsEdge SquareMatrix)
    (popped : list SquarePosition) (pos : SquarePosition) :
  pops_inv e popped ->
  Dequeue CalcTotalScore true e = Ok (pos, e') ->
  pops_inv e' popped.
Proof.
  intros Hinv (e1 & Hinit & _ & Htop)%Dequeue_inv.
  assert (e' = e1) as -> by (by destruct Htop as [[_ ->]|(_ & _ & ->)]).
  by eapply pops_inv_initialised.
Qed.

Lemma pops_inv_pop (e e' : BackwardsEdge SquareMatrix)
    (popped : list SquarePosition) (pos : SquarePosition) :
  pops_inv e popped ->
  Dequeue CalcTotalScore false e = Ok (pos, e') ->
  m_initialized e' = true
  /\ ((real_position pos /\ pops_inv e' (popped ++ [pos]))
      \/ (pos = InvalidSquarePosition /\ pops_inv e' popped)).
Proof.
  intros Hinv (e1 & Hinit & Hi1 & Htop)%Dequeue_inv.
  pose proof (pops_inv_initialised _ _ _ Hinv Hinit)
    as (Hh & Ht & Hseen & Hnd & Hini).
  destruct Htop as [[Htop ->]|(_ & -> & ->)]; [|by split; [|right]].
  split; [done|]. left.
  pose proof (pq_pop_perm _ _ Htop) as Hperm.
  assert (popped ++ m_queue e1 ≡ₚ (popped ++ [pos]) ++ pq_pop (m_queue e1))
    as Hperm'.
  { rewrite <- (assoc_L (++)). cbn [app]. by rewrite <- Hperm. }
  split.
  - apply Hseen, elem_of_app. right. by apply pq_top_elem.
  - split_and!; [done..| | |].
    + cbn [set_queue m_queue]. intros p Hp. rewrite <- Hperm' in Hp.
      by apply Hseen.
    + cbn [set_queue m_queue]. by rewrite <- Hperm'.
    + cbn [set_queue m_initialized]. congruence.
Qed.

Lemma run_edge_pops_inv (ops : list EdgeOp)
    (e e' : BackwardsEdge SquareMatrix) (popped pops : list SquarePosition) :
  pops_inv e popped ->
  run_edge CalcTotalScore ops e = Ok (pops, e') ->
  pops_inv e' (popped ++ filter real_position pops)
  /\ (forall pos, pos ∈ pops -> ~ real_position pos ->
                  pos = InvalidSquarePosition).
Proof.
  revert e popped pops.
  induction ops as [|[] ops IH]; intros e popped pops Hinv; cbn [run_edge].
  - intros [= <- <-]. rewrite filter_nil, (right_id_L [] (++)).
    split; [done|]. by intros pos ?%elem_of_nil.
  - destruct (Dequeue CalcTotalScore true e) as [[pos e1]|] eqn:Hd; [|done].
    cbn [mbind result_bind rbind]. apply IH. by eapply pops_inv_peek.
  - destruct (Dequeue CalcTotalScore false e) as [[pos e1]|] eqn:Hd; [|done].
    cbn [mbind result_bind rbind].
    destruct (PushSuccessors _ _ _ e1) as [e2|] eqn:Hp; [|done].
    cbn [mbind result_bind rbind].
    destruct (run_edge _ ops e2) as [[pops' e3]|] eqn:Hrun; [|done].
    cbn [mbind result_bind rbind mret result_ret]. intros [= <- <-].
    destruct (pops_inv_pop _ _ _ _ Hinv Hd) as [Hi1 [[Hreal H1]|[-> H1]]].
    + destruct (pops_inv_PushSuccessors _ _ _ _ _ H1 Hi1 Hp) as [H2 _].
      destruct (IH _ _ _ H2 Hrun) as [H3 Hsent].
      rewrite filter_cons_True by done.
      rewrite <- (assoc_L (++)) in H3. split; [done|].
      intros p [->|Hp']%elem_of_cons Hnr; [done|by apply Hsent].
    + destruct (pops_inv_PushSuccessors _ _ _ _ _ H1 Hi1 Hp) as [H2 _].
      destruct (IH _ _ _ H2 Hrun) as [H3 Hsent].
      rewrite filter_cons_False by (intros Hr; by apply Hr).
      split; [done|].
      intros p [->|Hp']%elem_of_cons Hnr; [done|by apply Hsent].
Qed.

Lemma pops_inv_new (hypotheses : list Hypo)
    (translations : list TranslationOption) (futureScore : SquareMatrix)
    (K : nat) (e : BackwardsEdge SquareMatrix) :
  Z.of_nat K < 2 ^ 64 ->
  new_BackwardsEdge hypotheses translations futureScore K = Ok e ->
  pops_inv e [].
Proof.
  intros HK He.
  destruct (edge_inv_new CalcTotalScore _ _ _ _ _ HK He)
    as (Hh & Ht & _).
  revert He. rewrite new_BackwardsEdge_eq. intros [= <-].
  split_and!; [done|done| |apply NoDup_nil_2|done].
  by intros pos ?%elem_of_nil.
Qed.

(** X4.  Over any run of peeks and rounds on a constructed edge that does
    not fault, no cell of the grid is popped twice: the coordinates of the
    popped grid positions are pairwise different.  A popped position with
    the coordinates (-1, -1) is the sentinel of an empty queue. *)
Theorem run_edge_pops_each_cell_once (hypotheses : list Hypo)
    (translations : list TranslationOption) (futureScore : SquareMatrix)
    (K : nat) (ops : list EdgeOp) (e e' : BackwardsEdge SquareMatrix)
    (pops : list SquarePosition) :
  Z.of_nat K < 2 ^ 64 ->
  new_BackwardsEdge hypotheses translations futureScore K = Ok e ->
  run_edge CalcTotalScore ops e = Ok (pops, e') ->
  NoDup (snd <$> filter real_position pops)
  /\ (forall pos, pos ∈ pops -> ~ real_position pos ->
                  pos = InvalidSquarePosition).
Proof.
  intros HK He Hrun.
  destruct (run_edge_pops_inv _ _ _ [] _ (pops_inv_new _ _ _ _ _ HK He) Hrun)
    as [(_ & _ & _ & Hnd & _) Hsent].
  split; [|done]. cbn [app] in Hnd. rewrite fmap_app in Hnd.
  apply NoDup_app in Hnd as (Hnd & _ & _).
  apply (NoDup_fmap_1 (fun xy : Z * Z => seen_index e' xy.1 xy.2)).
  by rewrite <- list_fmap_compose.
Qed.

End PopsOnce.

(** ** What a round does to the edges *)

Section RoundEdges.

Context {SquareMatrix : Type} (CalcTotalScore : SquareMatrix -> Hypo -> Score).

Lemma PushSuccessor_new (e e' : BackwardsEdge SquareMatrix) (x y : Z) :
  PushSuccessor CalcTotalScore x y e = Ok e' ->
  exists new,
    m_queue e' = m_queue e ++ new
    /\ (length new <= 1)%nat
    /\ Forall (fun pos : SquarePosition =>
                 pos.2 = (x, y)
                 /\ (exists h, pos.1 = Some h
                               /\ cell CalcTotalScore e x y = Ok (Some h))
                 /\ SeenPosition x y e' = Ok true) new.
Proof.
  intros [[_ ->]|(_ & r & Hcell & Hr)]%PushSuccessor_inv.
  { exists []. rewrite (right_id_L [] (++)).
    split_and!; [done|cbn [length]; lia|constructor]. }
  destruct r as [h|].
  2:{ subst. exists []. rewrite (right_id_L [] (++)).
      split_and!; [done|cbn [length]; lia|constructor]. }
  exists [(Some h, (x, y))]. split_and!.
  - by apply Enqueue_facts in Hr as (_ & _ & _ & Hq).
  - cbn [length]. lia.
  - apply Forall_singleton. split_and!; [done|by exists h|].
    by eapply SeenPosition_Enqueue_eq.
Qed.

(** X5.  A call [PushSuccessors(x, y)] that completes appends at most two
    positions to the queue and removes none.  Each new position is the right
    or the lower neighbour of [(x, y)], carries the hypothesis of its cell,
    never NULL, and is marked seen afterwards. *)
Theorem PushSuccessors_queues_at_most_two (e e' : BackwardsEdge SquareMatrix)
    (x y : Z) :
  PushSuccessors CalcTotalScore x y e = Ok e' ->
  exists new,
    m_queue e' = m_queue e ++ new
    /\ (length new <= 2)%nat
    /\ Forall (fun pos : SquarePosition =>
                 (pos.2 = (x, y + 1) \/ pos.2 = (x + 1, y))
                 /\ (exists h, pos.1 = Some h
                               /\ cell CalcTotalScore e pos.2.1 pos.2.2
                                  = Ok (Some h))
                 /\ SeenPosition pos.2.1 pos.2.2 e' = Ok true) new.
Proof.
  intros (e1 & H1 & H2)%PushSuccessors_steps.
  pose proof (PushSuccessor_grows CalcTotalScore _ _ _ _ H2) as Hg2.
  destruct (PushSuccessor_queue CalcTotalScore _ _ _ _ H1) as (Hgrid1 & _).
  destruct (PushSuccessor_new _ _ _ _ H1) as (new1 & Hq1 & Hl1 & Hn1).
  destruct (PushSuccessor_new _ _ _ _ H2) as (new2 & Hq2 & Hl2 & Hn2).
  exists (new1 ++ new2). split_and!.
  - by rewrite Hq2, Hq1, (assoc_L (++)).
  - rewrite length_app. lia.
  - apply Forall_app. split.
    + eapply Forall_impl; [exact Hn1|]. intros pos (Hxy & Hh & Hs).
      rewrite Hxy. cbn [fst snd]. split_and!; [by left|done|].
      by eapply seen_grows_SeenPosition.
    + eapply Forall_impl; [exact Hn2|]. intros pos (Hxy & (h & Hh & Hc) & Hs).
      rewrite Hxy. cbn [fst snd]. split_and!; [by right| |done].
      exists h. by rewrite <- (cell_same_grid CalcTotalScore e e1).
Qed.

(** X9.  [Initialize] enqueues the first cell also when it cannot be built
    (a linked option overlaps): the position [(NULL, (0, 0))] is queued.  A
    round of a container whose first edge is such an edge stops on the NULL
    dereference of the peeked position, before any pop. *)
Theorem FindKBestHypotheses_null_first_cell (c : BitmapContainer SquareMatrix)
    (p : EdgePtr) (e : BackwardsEdge SquareMatrix)
    (rest : list (EdgePtr * BackwardsEdge SquareMatrix)) :
  m_edges c = (p, e) :: rest ->
  m_initialized e = false -> m_queue e = [] ->
  (0 < length (m_seenPosition e))%nat ->
  cell CalcTotalScore e 0 0 = Ok None ->
  (exists e', Dequeue CalcTotalScore true e = Ok ((None, (0, 0)), e')
              /\ Size e' = 1%nat)
  /\ FindKBestHypotheses CalcTotalScore c
     = ([EvDequeue 0 true (None, (0, 0))], Crash NullDereference).
Proof.
  intros Hedges Hi Hq Hlen Hcell.
  assert (exists e', Dequeue CalcTotalScore true e = Ok ((None, (0, 0)), e')
                     /\ Size e' = 1%nat) as (e' & Hd & Hsize).
  { unfold Dequeue, Initialize. rewrite Hi.
    revert Hcell. unfold cell.
    destruct (vector_at KBestHypotheses _ 0) as [h|]; [|done].
    cbn [mbind result_bind rbind].
    destruct (vector_at KBestTranslations _ 0) as [t|]; [|done].
    cbn [mbind result_bind rbind]. intros ->.
    cbn [mbind result_bind rbind]. unfold Enqueue. rewrite Hq.
    cbn [pq_push mbind result_bind rbind].
    assert (seen_index e 0 0 = 0) as ->.
    { unfold seen_index. by rewrite Z.mul_0_r. }
    unfold bits_set. change (Z.to_nat 0) with 0%nat.
    destruct (Nat.ltb_spec 0 (length (m_seenPosition e))); [|lia].
    cbn [mbind result_bind rbind mret result_ret set_seenPosition set_queue
         m_seenPosition].
    rewrite length_insert.
    destruct (Nat.ltb_spec 0 (length (m_seenPosition e))); [|lia].
    cbn [mbind result_bind rbind mret result_ret set_seenPosition set_queue
         set_initialized m_queue pq_top].
    by eexists. }
  split; [by exists e'|].
  rewrite FindKBestHypotheses_unfold by (by rewrite Hedges).
  by rewrite Hedges, FindBestEdge_cons, Hd.
Qed.

Lemma peeked_facts (edges edges' : list (EdgePtr * BackwardsEdge SquareMatrix))
    (tops : list SquarePosition) :
  peeked CalcTotalScore edges edges' tops ->
  fst <$> edges' = fst <$> edges
  /\ Forall (fun pe => m_initialized pe.2 = true) edges'
  /\ Forall2 (fun pe pe' => seen_grows pe.2 pe'.2) edges edges'.
Proof.
  induction 1 as [|pe pe' top es es' tops' (Hp & _ & Hd) _ (IH1 & IH2 & IH3)];
    [by split_and!|].
  cbn [fmap list_fmap]. split_and!.
  - by rewrite Hp, <- IH1.
  - constructor; [|done].
    destruct (Dequeue_inv CalcTotalScore _ _ _ _ Hd) as (e1 & _ & Hi1 & Ht).
    by destruct Ht as [[_ ->]|(_ & _ & ->)].
  - constructor; [|done]. by eapply Dequeue_grows.
Qed.

(** X10.  A round that completes leaves the container with the same edges
    under the same addresses in the same order; if there is an edge at all,
    every edge is initialised afterwards; and no edge has changed its grid or
    lost a seen mark.  (What [AddPrune] does to the stack and to the
    hypotheses of its containers is outside the files embedded here and is
    no part of the statement.) *)
Theorem FindKBestHypotheses_initialises_edges
    (c c' : BitmapContainer SquareMatrix) (t : list Event) :
  FindKBestHypotheses CalcTotalScore c = (t, Ok c') ->
  fst <$> m_edges c' = fst <$> m_edges c
  /\ (m_edges c <> [] ->
      Forall (fun pe => m_initialized pe.2 = true) (m_edges c'))
  /\ Forall2 (fun pe pe' => seen_grows pe.2 pe'.2) (m_edges c) (m_edges c').
Proof.
  destruct (decide (m_edges c = [])) as [He|Hne].
  { unfold FindKBestHypotheses. rewrite He. intros [= _ <-].
    rewrite He. split_and!; [done|done|constructor]. }
  intros Hrun. rewrite FindKBestHypotheses_unfold in Hrun by done.
  destruct (FindBestEdge _ _ _ _ _) as [t0 [[edges [[i|] s]]|]] eqn:Hbest;
    [|done..].
  destruct (edges !! i) as [[p e]|] eqn:Hi; [|done].
  destruct (Dequeue _ false e) as [[pos e1]|] eqn:Hd; [|done].
  destruct (PushSuccessors _ _ _ e1) as [e2|] eqn:Hp; [|done].
  injection Hrun as _ <-. cbn [set_edges m_edges].
  destruct (FindBestEdge_inv CalcTotalScore _ _ _ _ _ _ _ Hbest)
    as (tops & Hpeek & _ & _).
  destruct (peeked_facts _ _ _ Hpeek) as (Hfst & Hinit & Hgrow).
  pose proof (Dequeue_grows CalcTotalScore _ _ _ _ Hd) as Hg1.
  pose proof (PushSuccessors_grows CalcTotalScore _ _ _ _ Hp) as Hg2.
  assert (m_initialized e2 = true) as Hi2.
  { destruct (Dequeue_inv CalcTotalScore _ _ _ _ Hd) as (e0 & _ & Hi0 & Ht).
    assert (m_initialized e1 = true) as Hi1.
    { by destruct Ht as [[_ ->]|(_ & _ & ->)]. }
    destruct (PushSuccessors_steps CalcTotalScore _ _ _ _ Hp)
      as (e1' & Hp1 & Hp2).
    apply PushSuccessor_queue in Hp1 as (_ & Hi1' & _).
    apply PushSuccessor_queue in Hp2 as (_ & Hi2' & _). congruence. }
  split_and!.
  - rewrite list_fmap_insert, list_insert_id; [done|].
    by rewrite list_lookup_fmap, Hi.
  - intros _. by apply Forall_insert.
  - destruct (Forall2_lookup_r _ _ _ _ _ Hgrow Hi) as (pe & Hpe & Hg0).
    rewrite <- (list_insert_id (m_edges c) i pe) by done.
    apply Forall2_insert; [done|]. cbn [snd] in *.
    eapply seen_grows_trans; [done|]. by eapply seen_grows_trans.
Qed.

Lemma best_of_minus_infinity (tops : list SquarePosition) (i : nat) :
  Forall (fun top => position_score top = NegInf) tops ->
  best_of tops i None NegInf = (None, NegInf).
Proof.
  intros Hall. revert i. induction Hall as [|top tops Htop _ IH]; intros i;
    [done|].
  cbn [best_of]. rewrite Htop. cbn [score_gt]. apply IH.
Qed.

(** X11.  When every edge can be peeked and every peeked hypothesis scores
    minus infinity, no edge is selected, since the comparison with the
    initial best score is strict: the round stops on
    [assert(bestEdge != NULL)] after the peeks, without a pop. *)
Theorem FindKBestHypotheses_all_minus_infinity
    (c : BitmapContainer SquareMatrix)
    (edges' : list (EdgePtr * BackwardsEdge SquareMatrix))
    (tops : list SquarePosition) :
  m_edges c <> [] ->
  peeked CalcTotalScore (m_edges c) edges' tops ->
  Forall (fun top => position_score top = NegInf) tops ->
  FindKBestHypotheses CalcTotalScore c
  = (peek_events tops, Crash AssertionViolated).
Proof.
  intros Hne Hpeek Hall.
  rewrite FindKBestHypotheses_unfold by done.
  rewrite <- (right_id_L [] (++) (m_edges c)).
  rewrite (FindBestEdge_app CalcTotalScore _ _ _ [] _ _ _ Hpeek).
  rewrite best_of_minus_infinity by done.
  cbn [FindBestEdge mret traced_ret]. by rewrite (right_id_L [] (++)).
Qed.

End RoundEdges.

(** ** The examples of the operations of an edge and of a round *)

(** The five rounds on [edge_3x3] leave the nine marks of its vector in
    place, and the mark of the first cell set. *)
Lemma run_edge_keeps_seen_marks_witness :
  length (m_seenPosition run_3x3.2) = 9%nat
  /\ SeenPosition 0 0 run_3x3.2 = Ok true.
Proof.
  destruct (run_edge_keeps_seen_marks sum_score [OpPop; OpPop; OpPop; OpPop; OpPop]
              peek_3x3.2 run_3x3.2 run_3x3.1) as (Hlen & _ & _ & Hseen).
  - vm_compute. reflexivity.
  - split; [exact Hlen|]. apply Hseen. reflexivity.
Defined.

(** The five pops of [edge_3x3] are the cells (0,0), (1,0), (0,1), (1,1) and
    (0,2): five different cells. *)
Lemma run_edge_pops_each_cell_once_witness :
  snd <$> run_3x3.1 = [(0, 0); (1, 0); (0, 1); (1, 1); (0, 2)]
  /\ NoDup (snd <$> filter real_position run_3x3.1).
Proof.
  split; [reflexivity|].
  apply (run_edge_pops_each_cell_once sum_score [hypo_a; hypo_b; hypo_c]
           [opt_1 (-1); opt_1 (-3); opt_1 (-4)] tt 3 five_pops edge_3x3
           run_3x3.2 run_3x3.1).
  - reflexivity.
  - reflexivity.
  - vm_compute. reflexivity.
Defined.

(** [PushSuccessors(0, 0)] on the edge whose cell (0,1) cannot be built
    queues the one position (1,0). *)
Lemma PushSuccessors_queues_at_most_two_witness :
  exists new,
    m_queue (from_ok edge_none (PushSuccessors sum_score 0 0 edge_clash_popped))
    = m_queue edge_clash_popped ++ new
    /\ (length new <= 2)%nat.
Proof.
  destruct (PushSuccessors_queues_at_most_two sum_score edge_clash_popped
              (from_ok edge_none
                 (PushSuccessors sum_score 0 0 edge_clash_popped))
              0 0 eq_refl) as (new & Hq & Hl & _).
  exists new. split; [exact Hq|exact Hl].
Defined.

(** Peeking [edge_3x3] a second time gives the position of the first peek. *)
Lemma Dequeue_peek_repeatable_witness :
  Dequeue sum_score true peek_3x3.2 = Ok (peek_3x3.1, peek_3x3.2).
Proof.
  apply (Dequeue_peek_repeatable sum_score edge_3x3 peek_3x3.2 peek_3x3.1).
  reflexivity.
Defined.

(** The pop of the peeked [edge_3x3] takes its one queued position. *)
Lemma Dequeue_pop_initialised_witness :
  exists pos e',
    Dequeue sum_score false peek_3x3.2 = Ok (pos, e')
    /\ S (Size e') = Size peek_3x3.2.
Proof.
  destruct (Dequeue_pop_initialised sum_score peek_3x3.2 eq_refl)
    as (pos & e' & Hd & _ & _ & Hpop).
  change (Empty peek_3x3.2) with false in Hpop.
  exists pos, e'. split; [exact Hd|]. apply Hpop.
Defined.

(** No hypothesis in the predecessor container: the first [Dequeue] reads
    slot 0 of a snapshot that has none. *)
Lemma Dequeue_empty_snapshot_witness :
  exists b, Dequeue sum_score true edge_no_hypotheses
            = Crash (OutOfBounds b 0).
Proof.
  apply (Dequeue_empty_snapshot sum_score [] [opt_1 (-1)] tt 3
           edge_no_hypotheses true).
  - reflexivity.
  - left. reflexivity.
Defined.

(** The round of a container whose only edge cannot build its first cell. *)
Lemma FindKBestHypotheses_null_first_cell_witness :
  FindKBestHypotheses sum_score (container [(1%nat, edge_null_first)])
  = ([EvDequeue 0 true (None, (0, 0))], Crash NullDereference).
Proof.
  apply (FindKBestHypotheses_null_first_cell sum_score
           (container [(1%nat, edge_null_first)]) 1%nat edge_null_first []).
  - reflexivity.
  - reflexivity.
  - reflexivity.
  - vm_compute. lia.
  - reflexivity.
Defined.

(** After the round of the container of two edges both edges are
    initialised and are held under the addresses they had. *)
Lemma FindKBestHypotheses_initialises_edges_witness :
  fst <$> m_edges round_two_edges.2 = [1%nat; 2%nat]
  /\ Forall (fun pe => m_initialized pe.2 = true) (m_edges round_two_edges.2).
Proof.
  destruct (FindKBestHypotheses_initialises_edges sum_score
              container_two_edges round_two_edges.2 round_two_edges.1)
    as (Hfst & Hinit & _).
  - vm_compute. reflexivity.
  - split; [exact Hfst|]. apply Hinit. discriminate.
Defined.

(** Under a scoring that gives every hypothesis minus infinity the round
    stops on the assertion after the peek. *)
Lemma FindKBestHypotheses_all_minus_infinity_witness :
  FindKBestHypotheses minus_infinity_score (container [(1%nat, edge_3x3)])
  = (peek_events [peek_minus_infinity.1], Crash AssertionViolated).
Proof.
  apply (FindKBestHypotheses_all_minus_infinity minus_infinity_score
           (container [(1%nat, edge_3x3)])
           [(1%nat, peek_minus_infinity.2)] [peek_minus_infinity.1]).
  - discriminate.
  - repeat constructor. by eexists.
  - repeat constructor.
Defined.

(** ** The marks of the cells of the grid *)

Lemma seen_index_grid {SquareMatrix} (e : BackwardsEdge SquareMatrix)
    (x y : Z) :
  Z.of_nat (m_kbest e) * Z.of_nat (m_kbest e) < 2 ^ 64 ->
  0 <= x < Z.of_nat (m_kbest e) -> 0 <= y < Z.of_nat (m_kbest e) ->
  seen_index e x y = Z.of_nat (m_kbest e) * x + y
  /\ 0 <= Z.of_nat (m_kbest e) * x + y
     < Z.of_nat (m_kbest e) * Z.of_nat (m_kbest e).
Proof.
  intros HK Hx Hy.
  assert (0 <= Z.of_nat (m_kbest e) * x + y
          < Z.of_nat (m_kbest e) * Z.of_nat (m_kbest e)) as Hin.
  { pose proof (Z.mul_nonneg_nonneg (Z.of_nat (m_kbest e)) x) as H0.
    pose proof (Z.mul_le_mono_nonneg_l x (Z.of_nat (m_kbest e) - 1)
                  (Z.of_nat (m_kbest e))) as H1.
    rewrite Z.mul_sub_distr_l in H1. clear HK. lia. }
  split; [|done]. rewrite seen_index_mod. apply Z.mod_small. lia.
Qed.

(** X19.  On a freshly constructed edge whose K * K fits a [size_t], every
    cell [(x, y)] with [0 <= x, y < K] has a mark inside the vector, not yet
    set, and two such cells with the same index of the vector are the same
    cell. *)
Theorem seen_index_in_grid {SquareMatrix} (hypotheses : list Hypo)
    (translations : list TranslationOption) (futureScore : SquareMatrix)
    (K : nat) (e : BackwardsEdge SquareMatrix) (x y x' y' : Z) :
  new_BackwardsEdge hypotheses translations futureScore K = Ok e ->
  Z.of_nat K * Z.of_nat K < 2 ^ 64 ->
  0 <= x < Z.of_nat K -> 0 <= y < Z.of_nat K ->
  0 <= x' < Z.of_nat K -> 0 <= y' < Z.of_nat K ->
  SeenPosition x y e = Ok false
  /\ (seen_index e x y = seen_index e x' y' -> x = x' /\ y = y').
Proof.
  rewrite new_BackwardsEdge_eq. intros [= He] HK Hx Hy Hx' Hy'.
  assert (m_kbest e = K) as Hk by (by rewrite <- He).
  assert (m_seenPosition e
          = replicate (Z.to_nat (to_size_t (Z.of_nat K * Z.of_nat K))) false)
    as Hseen by (by rewrite <- He).
  clear He. rewrite <- Hk in HK, Hx, Hy, Hx', Hy'.
  destruct (seen_index_grid e x y HK Hx Hy) as [Hi Hin].
  destruct (seen_index_grid e x' y' HK Hx' Hy') as [Hi' Hin'].
  rewrite Hk in *. split.
  - unfold SeenPosition, bits_at. rewrite Hi, Hseen.
    rewrite lookup_replicate_2; [done|].
    unfold to_size_t. rewrite Z.mod_small by lia. lia.
  - rewrite Hi, Hi'. intros Heq. clear HK Hi Hi' Hin Hin' Hseen.
    assert (x = x') as ->; [|lia].
    destruct (Z.lt_trichotomy x x') as [Hlt|[?|Hgt]]; [|done|].
    + pose proof (Z.mul_le_mono_nonneg_l (x + 1) x' (Z.of_nat K)) as H1.
      rewrite Z.mul_add_distr_l in H1. lia.
    + pose proof (Z.mul_le_mono_nonneg_l (x' + 1) x (Z.of_nat K)) as H1.
      rewrite Z.mul_add_distr_l in H1. lia.
Qed.

(** In the grid of [edge_3x3] no cell is marked at first, and the cells
    (0,1) and (1,0) have different marks. *)
Lemma seen_index_in_grid_witness :
  SeenPosition 0 1 edge_3x3 = Ok false
  /\ (seen_index edge_3x3 0 1 = seen_index edge_3x3 1 0 -> 0 = 1 /\ 1 = 0).
Proof.
  apply (seen_index_in_grid [hypo_a; hypo_b; hypo_c]
           [opt_1 (-1); opt_1 (-3); opt_1 (-4)] tt 3 edge_3x3 0 1 1 0).
  - reflexivity.
  - reflexivity.
  - lia.
  - lia.
  - lia.
  - lia.
Defined.

(** ** The directory of the executable and the check of the weights *)

Lemma string_rfind_None (c : ascii) (s : string) :
  has_char c s = false -> string_rfind c s = None.
Proof.
  induction s as [|a s IH]; [done|]. cbn [has_char string_rfind].
  intros [Ha Hs]%orb_false_elim. by rewrite (IH Hs), Ha.
Qed.

Lemma string_rfind_last (c : ascii) (dir file : string) :
  has_char c file = false ->
  string_rfind c (dir ++ String c file) = Some (String.length dir).
Proof.
  intros Hfile. induction dir as [|a dir IH].
  - change (EmptyString +:+ String c file) with (String c file).
    cbn [string_rfind String.length].
    by rewrite (string_rfind_None _ _ Hfile), Ascii.eqb_refl.
  - change (String a dir +:+ String c file)
      with (String a (dir +:+ String c file)).
    cbn [string_rfind String.length]. by rewrite IH.
Qed.

Lemma substring_0_append (s rest : string) :
  String.substring 0 (String.length s) (s ++ rest) = s.
Proof.
  induction s as [|a s IH].
  - change (EmptyString +:+ rest) with rest. by destruct rest.
  - change (String a s +:+ rest) with (String a (s +:+ rest)).
    cbn [String.length String.substring]. by rewrite IH.
Qed.

(** X12.  [SetExecPath] sets the directory of the executable to what comes
    before the last slash of the path: for a file name without a slash,
    [dir/file] gives [dir] (the empty string for a file in the root
    directory).  A path without a slash leaves the directory as it was. *)
Theorem SetExecPath_directory (dir file old : string) :
  has_char "/" file = false ->
  SetExecPath (dir ++ String "/" file) old = dir
  /\ SetExecPath file old = old.
Proof.
  intros Hfile. unfold SetExecPath, substr_0. split.
  - by rewrite (string_rfind_last _ _ _ Hfile), substring_0_append.
  - by rewrite (string_rfind_None _ _ Hfile).
Qed.

(** The directory of "/opt/moses/bin/moses"; the path "moses". *)
Lemma SetExecPath_directory_witness :
  SetExecPath "/opt/moses/bin/moses" "." = "/opt/moses/bin"%string
  /\ SetExecPath "moses" "." = "."%string.
Proof.
  exact (SetExecPath_directory "/opt/moses/bin" "moses" "." eq_refl).
Defined.

Lemma CheckWeights_features_spec (ffs : list string)
    (weightNames featureNames : gset string) :
  foldl (fun '(weightNames, featureNames) descr =>
           (weightNames ∖ {[descr]}, featureNames ∪ {[descr]}))
        (weightNames, featureNames) ffs
  = (weightNames ∖ list_to_set ffs, featureNames ∪ list_to_set ffs).
Proof.
  revert weightNames featureNames.
  induction ffs as [|descr ffs IH]; intros weightNames featureNames.
  - cbn [foldl list_to_set].
    by rewrite difference_empty_L, (right_id_L ∅ (∪)).
  - cbn [foldl list_to_set].
    by rewrite IH, difference_difference_l_L, (assoc_L (∪)).
Qed.

(** X13.  [CheckWeights] returns true exactly when every weight name is the
    description of a feature function or its part before the first
    underscore is one.  Feature functions without weights do not make it
    fail. *)
Theorem CheckWeights_accepts (weightNames : gset string) (ffs : list string) :
  CheckWeights weightNames ffs = true
  <-> forall weight, weight ∈ weightNames ->
                     weight ∈ ffs \/ sparse_feature_name weight ∈ ffs.
Proof.
  unfold CheckWeights, CheckWeights_features.
  rewrite CheckWeights_features_spec, bool_decide_eq_true.
  rewrite (left_id_L ∅ (∪)). split.
  - intros Hempty weight Hw.
    destruct (decide (weight ∈ ffs)) as [?|Hn]; [by left|right].
    destruct (decide (sparse_feature_name weight ∈ ffs)) as [?|Hs]; [done|].
    assert (weight ∈ (∅ : gset string)) as []%elem_of_empty.
    rewrite <- Hempty. apply elem_of_filter. set_solver.
  - intros Hall. apply set_eq. intros weight. split; [|set_solver].
    intros [Hs [Hw Hn]%elem_of_difference]%elem_of_filter.
    destruct (Hall weight Hw); set_solver.
Qed.

(** ** The format checks and the accepted stack diversity *)

Section LoadDataChecks.

Context (ScanInt : string -> Z) (ScanSizeT : string -> nat)
        (Tokenize InputFileStream : string -> list string)
        (HAVE_PROTOBUF : bool) (Normal : Z) (IsChart : Z -> bool)
        (LoadData_rest : PARAMS -> StaticData -> outcome (bool * StaticData)).

(** X14.  Once the chart-decoding parameters are loaded without an
    exception: when one of the format checks that come first does not hold,
    LoadData returns false at once: of the members only the input type has
    been assigned, the distortion limit and the minimum stack diversity are
    what they were, and none of the later settings is read. *)
Theorem LoadData_rejects_format (parameter : PARAMS) (sd : StaticData) :
  LoadData_search_algorithm ScanInt Tokenize InputFileStream Normal IsChart
    parameter = Returned tt ->
  format_ok HAVE_PROTOBUF parameter = false ->
  LoadData ScanInt ScanSizeT Tokenize InputFileStream HAVE_PROTOBUF Normal
    IsChart LoadData_rest parameter sd
  = Returned
      (false,
       mkStaticData (SetParameter ScanInt parameter "inputtype" SentenceInput)
                    (m_maxDistortion sd) (m_minHypoStackDiversity sd)).
Proof.
  unfold format_ok, LoadData. intros -> Hbad.
  cbn [mbind outcome_bind mret outcome_ret].
  destruct (n_best_list_ok parameter); [|done].
  destruct (lattice_samples_ok parameter); [|done].
  destruct (output_search_graph_ok parameter); [|done].
  destruct (output_search_graph_pb_ok HAVE_PROTOBUF parameter); done.
Qed.

(** X15.  Once the chart-decoding parameters are loaded without an
    exception: when the format checks hold and "stack-diversity" is given
    with a distortion limit of at most 15 and an input that is not a word
    lattice, the statements that follow find the minimum stack diversity set
    to the first value of the parameter, scanned. *)
Theorem LoadData_accepts_stack_diversity (parameter : PARAMS) (sd : StaticData)
    (value : string) (more : list string) :
  let maxDistortion := SetParameter ScanInt parameter "distortion-limit" (-1) in
  let inputType := SetParameter ScanInt parameter "inputtype" SentenceInput in
  LoadData_search_algorithm ScanInt Tokenize InputFileStream Normal IsChart
    parameter = Returned tt ->
  format_ok HAVE_PROTOBUF parameter = true ->
  GetParam parameter "stack-diversity" = Some (value :: more) ->
  maxDistortion <= 15 -> inputType <> WordLatticeInput ->
  LoadData ScanInt ScanSizeT Tokenize InputFileStream HAVE_PROTOBUF Normal
    IsChart LoadData_rest parameter sd
  = LoadData_rest parameter
      (mkStaticData inputType maxDistortion (ScanSizeT value)).
Proof.
  intros maxDistortion inputType Hchart Hok Hgiven Hmax Hinput.
  unfold LoadData, format_ok in *. rewrite Hchart.
  cbn [mbind outcome_bind mret outcome_ret]. fold maxDistortion inputType.
  apply andb_prop in Hok as [Hok ->]. apply andb_prop in Hok as [Hok ->].
  apply andb_prop in Hok as [-> ->]. rewrite Hgiven.
  cbn [negb given m_inputType m_maxDistortion default head].
  destruct (Z.ltb_spec 15 maxDistortion); [lia|].
  destruct (Z.eqb_spec inputType WordLatticeInput); done.
Qed.

End LoadDataChecks.

(** "n-best-list" with one value: LoadData returns false and leaves the
    distortion limit and the stack diversity as they were, although
    "stack-diversity" is given. *)
Lemma LoadData_rejects_format_witness :
  LoadData scan_int scan_size_t tokenize unknown_lhs_file false 0
    chart_search no_rest params_short_n_best (mkStaticData 0 0 7)
  = Returned (false, mkStaticData 0 0 7).
Proof.
  exact (LoadData_rejects_format scan_int scan_size_t tokenize
           unknown_lhs_file false 0 chart_search no_rest
           params_short_n_best (mkStaticData 0 0 7) eq_refl eq_refl).
Defined.

(** "stack-diversity" 5 with a distortion limit of 6 and sentence input. *)
Lemma LoadData_accepts_stack_diversity_witness :
  LoadData scan_int scan_size_t tokenize unknown_lhs_file false 0
    chart_search no_rest params_diversity_near (mkStaticData 0 0 7)
  = Returned (true, mkStaticData 0 6 5).
Proof.
  apply (LoadData_accepts_stack_diversity scan_int scan_size_t tokenize
           unknown_lhs_file false 0 chart_search no_rest
           params_diversity_near (mkStaticData 0 0 7) "5" ["9"%string]).
  - reflexivity.
  - reflexivity.
  - reflexivity.
  - vm_compute. discriminate.
  - vm_compute. discriminate.
Defined.

(** ** The decoding graphs *)

Section LoadDecodeGraphsProperties.

Context (Tokenize : string -> list string) (ScanSizeT : string -> nat)
        (VERBOSE : nat -> bool)
        {Features : Type} (GetFeatureFunctions : Features) (IsChart : bool)
        (DEFAULT_MAX_CHART_SPAN pts_size gens_size : nat)
        (GetFeaturesRemaining : DecodeStep Features -> Features).

Lemma size_t_succ_small (n : nat) :
  Z.of_nat n + 1 < 2 ^ 64 -> size_t_succ n = (n + 1)%nat.
Proof.
  intros Hn. unfold size_t_succ, to_size_t. rewrite Z.mod_small by lia. lia.
Qed.

Lemma count_steps_app (graphs graphs' : list (DecodeGraph Features)) :
  count_steps (graphs ++ graphs') = (count_steps graphs + count_steps graphs')%nat.
Proof.
  unfold count_steps. induction graphs as [|g graphs IH]; [done|].
  cbn [app sum_list_with]. rewrite IH. lia.
Qed.

Lemma count_steps_insert (graphs : list (DecodeGraph Features)) (d : nat)
    (g g' : DecodeGraph Features) :
  graphs !! d = Some g ->
  (count_steps (<[d := g']> graphs) + length (dg_steps g)
   = count_steps graphs + length (dg_steps g'))%nat.
Proof.
  unfold count_steps. revert d.
  induction graphs as [|g0 graphs IH]; intros d; [done|].
  destruct d as [|d].
  - intros [= ->]. change (<[0%nat := g']> (g :: graphs)) with (g' :: graphs).
    cbn [sum_list_with]. lia.
  - intros Hd.
    change (<[S d := g']> (g0 :: graphs)) with (g0 :: <[d := g']> graphs).
    cbn [sum_list_with]. specialize (IH d Hd). lia.
Qed.

Lemma graphs_ok_add (graphs : list (DecodeGraph Features)) (d : nat)
    (g : DecodeGraph Features) (decodeStep : DecodeStep Features) :
  graphs !! d = Some g ->
  (forall k g', k <> d -> graphs !! k = Some g' ->
                dg_position g' = k /\ dg_steps g' <> []) ->
  dg_position g = d ->
  graphs_ok (<[d := Add decodeStep g]> graphs).
Proof.
  intros Hd Hok Hpos k g' Hk.
  destruct (decide (k = d)) as [->|Hne].
  - rewrite list_lookup_insert_eq in Hk by (by eapply lookup_lt_Some).
    injection Hk as <-. cbn [Add dg_position dg_steps].
    split; [done|]. by destruct (dg_steps g).
  - rewrite list_lookup_insert_ne in Hk by done. by apply Hok.
Qed.

(** The end of the body of the loop: the graph [d] is created if it is the
    next one, and the step is added to it. *)
Lemma add_to_graph (graphs : list (DecodeGraph Features)) (d : nat)
    (maxChartSpan : option nat) (decodeStep : DecodeStep Features) :
  (d <= length graphs)%nat -> Z.of_nat d + 1 < 2 ^ 64 -> graphs_ok graphs ->
  let graphs' :=
    if (length graphs <? size_t_succ d)%nat
    then graphs ++ [mkDecodeGraph (length graphs) maxChartSpan [] None]
    else graphs in
  exists g,
    graphs' !! d = Some g
    /\ graphs_ok (<[d := Add decodeStep g]> graphs')
    /\ count_steps (<[d := Add decodeStep g]> graphs') = S (count_steps graphs)
    /\ (length (<[d := Add decodeStep g]> graphs') <= S (length graphs))%nat
    /\ (d < length (<[d := Add decodeStep g]> graphs'))%nat.
Proof.
  intros Hd Hsmall Hok. rewrite size_t_succ_small by done. cbn zeta.
  destruct (Nat.ltb_spec (length graphs) (d + 1)) as [Hnew|Hold].
  - assert (d = length graphs) as -> by lia.
    eexists. split.
    { rewrite lookup_app_r by done. by rewrite Nat.sub_diag. }
    split_and!.
    + eapply graphs_ok_add; [|  |done].
      * rewrite lookup_app_r by done. by rewrite Nat.sub_diag.
      * intros k g' Hne Hk. apply Hok.
        rewrite lookup_app_l in Hk; [done|].
        apply lookup_lt_Some in Hk. rewrite length_app in Hk.
        cbn [length] in Hk. lia.
    + pose proof (count_steps_insert
                    (graphs ++ [mkDecodeGraph (length graphs) maxChartSpan [] None])
                    (length graphs) _
                    (Add decodeStep
                       (mkDecodeGraph (length graphs) maxChartSpan [] None))
                    ltac:(rewrite lookup_app_r by done; by rewrite Nat.sub_diag))
        as Hc.
      rewrite count_steps_app in Hc. unfold count_steps at 3 in Hc.
      cbn [sum_list_with Add dg_steps length app] in Hc. lia.
    + rewrite length_insert, length_app. cbn [length]. lia.
    + rewrite length_insert, length_app. cbn [length]. lia.
  - destruct (lookup_lt_is_Some_2 graphs d ltac:(lia)) as [g Hg].
    exists g. split; [done|]. destruct (Hok d g Hg) as [Hpos Hsteps].
    split_and!.
    + eapply graphs_ok_add; [done| |done]. intros k g' _. apply Hok.
    + pose proof (count_steps_insert graphs d g (Add decodeStep g) Hg) as Hc.
      cbn [Add dg_steps] in Hc. rewrite length_app in Hc.
      cbn [length] in Hc. lia.
    + rewrite length_insert. lia.
    + rewrite length_insert. lia.
Qed.

Lemma mapping_inv_added (maxChartSpans : list nat)
    (graphs : list (DecodeGraph Features)) (d n : nat)
    (decodeStep : DecodeStep Features) (features : Features) :
  (d <= length graphs)%nat -> Z.of_nat (S n) < 2 ^ 64 -> graphs_ok graphs ->
  (length graphs <= n)%nat -> count_steps graphs = n ->
  graphs_outcome IsChart VERBOSE maxChartSpans
    (fun st' => mapping_inv st' (S n))
    (graphs' ←
       (if (length graphs <? size_t_succ d)%nat then
          maxChartSpan ←
            (if IsChart then
               let maxChartSpan :=
                 default DEFAULT_MAX_CHART_SPAN (maxChartSpans !! d) in
               if VERBOSE 1 && (length maxChartSpans <=? d)%nat
               then SpanOutOfRange d (length maxChartSpans)
               else mret (Some maxChartSpan)
             else mret None);
          mret (graphs ++ [mkDecodeGraph (length graphs) maxChartSpan [] None])
        else mret graphs);
     match graphs' !! d with
     | Some g =>
         mret (mkMappingState (<[d := Add decodeStep g]> graphs')
                              (Some decodeStep) d features)
     | None => OutOfRange d (length graphs')
     end).
Proof.
  intros Hd Hn Hok Hlen Hcount.
  assert (forall maxChartSpan,
            graphs_outcome IsChart VERBOSE maxChartSpans
              (fun st' => mapping_inv st' (S n))
              (let graphs' :=
                 if (length graphs <? size_t_succ d)%nat
                 then graphs ++ [mkDecodeGraph (length graphs) maxChartSpan
                                               [] None]
                 else graphs in
               match graphs' !! d with
               | Some g =>
                   mret (mkMappingState (<[d := Add decodeStep g]> graphs')
                                        (Some decodeStep) d features)
               | None => OutOfRange d (length graphs')
               end)) as Hadd.
  { intros maxChartSpan.
    destruct (add_to_graph graphs d maxChartSpan decodeStep Hd ltac:(lia) Hok)
      as (g & Hg & Hok' & Hcount' & Hlen' & Hd').
    cbn zeta in *. rewrite Hg.
    cbn [graphs_outcome mret outcome_ret].
    split_and!; cbn [m_decodeGraphs prevDecodeGraphInd]; [done|lia|done|lia]. }
  destruct (length graphs <? size_t_succ d)%nat eqn:Hnew.
  - destruct IsChart eqn:Hchart.
    + cbn zeta. destruct (VERBOSE 1) eqn:Hverbose; cbn [andb].
      * destruct (Nat.leb_spec (length maxChartSpans) d) as [Hle|Hgt].
        -- cbn [mbind outcome_bind graphs_outcome]. done.
        -- cbn [mbind outcome_bind mret outcome_ret].
           specialize (Hadd (Some (default DEFAULT_MAX_CHART_SPAN
                                             (maxChartSpans !! d)))).
           exact Hadd.
      * cbn [mbind outcome_bind mret outcome_ret].
        specialize (Hadd (Some (default DEFAULT_MAX_CHART_SPAN
                                          (maxChartSpans !! d)))).
        exact Hadd.
    + cbn [mbind outcome_bind mret outcome_ret].
      specialize (Hadd None). exact Hadd.
  - cbn [mbind outcome_bind mret outcome_ret].
    specialize (Hadd None). exact Hadd.
Qed.

Lemma LoadDecodeGraphs_line_spec (maxChartSpans : list nat) (mapping : string)
    (st : MappingState Features) (n : nat) :
  Z.of_nat (S n) < 2 ^ 64 ->
  mapping_inv st n
  \/ (m_decodeGraphs st = [] /\ prevDecodeGraphInd st = 0%nat /\ n = 0%nat
      /\ starts_at_graph_one Tokenize ScanSizeT [mapping] = false) ->
  graphs_outcome IsChart VERBOSE maxChartSpans
    (fun st' => mapping_inv st' (S n))
    (LoadDecodeGraphs_line Tokenize ScanSizeT VERBOSE GetFeatureFunctions
       IsChart DEFAULT_MAX_CHART_SPAN pts_size gens_size GetFeaturesRemaining
       maxChartSpans mapping st).
Proof.
  intros Hn Hst.
  assert (graphs_ok (m_decodeGraphs st)
          /\ (length (m_decodeGraphs st) <= n)%nat
          /\ count_steps (m_decodeGraphs st) = n) as (Hok & Hlen & Hcount).
  { destruct Hst as [(_ & ? & ? & ?)|(-> & _ & -> & _)]; [done|].
    split_and!; [by intros k g ?|done|done]. }
  unfold LoadDecodeGraphs_line, starts_at_graph_one in *.
  destruct (Tokenize mapping) as [|token0 [|token1 [|token2 [|token3 token]]]];
    cbn [mbind outcome_bind mret outcome_ret]; try done.
  - destruct (String.eqb token0 "T").
    + destruct (pts_size <=? ScanSizeT token1)%nat; [done|].
      cbn [mbind outcome_bind mret outcome_ret].
      apply mapping_inv_added; [lia|done..].
    + destruct (gens_size <=? ScanSizeT token1)%nat; [done|].
      cbn [mbind outcome_bind mret outcome_ret].
      apply mapping_inv_added; [lia|done..].
  - destruct (negb _ && negb _) eqn:Hind;
      cbn [mbind outcome_bind mret outcome_ret]; [done|].
    assert (ScanSizeT token0 <= length (m_decodeGraphs st))%nat as Hd.
    { apply andb_false_iff in Hind as [Hind|Hind];
        apply negb_false_iff, Nat.eqb_eq in Hind.
      - destruct Hst as [(? & _)|(-> & Hp & _)]; [lia|].
        rewrite Hp in Hind. cbn [length]. lia.
      - destruct Hst as [(Hp & _)|(-> & Hp & _ & Hone)].
        + rewrite size_t_succ_small in Hind by lia. lia.
        + rewrite Hp in Hind. change (size_t_succ 0) with 1%nat in Hind.
          apply Nat.eqb_neq in Hone. done. }
    destruct (String.eqb token1 "T").
    + destruct (pts_size <=? ScanSizeT token2)%nat; [done|].
      cbn [mbind outcome_bind mret outcome_ret].
      apply mapping_inv_added; done.
    + destruct (gens_size <=? ScanSizeT token2)%nat; [done|].
      cbn [mbind outcome_bind mret outcome_ret].
      apply mapping_inv_added; done.
Qed.

Lemma LoadDecodeGraphs_loop_spec (maxChartSpans : list nat)
    (mappingVector : list string) (st : MappingState Features) (n : nat) :
  Z.of_nat (n + length mappingVector) < 2 ^ 64 -> mapping_inv st n ->
  graphs_outcome IsChart VERBOSE maxChartSpans
    (fun st' => mapping_inv st' (n + length mappingVector))
    (LoadDecodeGraphs_loop Tokenize ScanSizeT VERBOSE GetFeatureFunctions
       IsChart DEFAULT_MAX_CHART_SPAN pts_size gens_size GetFeaturesRemaining
       maxChartSpans mappingVector st).
Proof.
  revert st n. induction mappingVector as [|mapping mappingVector IH];
    intros st n Hn Hinv; cbn [LoadDecodeGraphs_loop length] in *.
  - cbn [mret outcome_ret graphs_outcome]. by rewrite Nat.add_0_r.
  - pose proof (LoadDecodeGraphs_line_spec maxChartSpans mapping st n
                  ltac:(lia) (or_introl Hinv)) as Hline.
    destruct (LoadDecodeGraphs_line _ _ _ _ _ _ _ _ _ _ _ _) as [st'| | |];
      cbn [mbind outcome_bind]; [|done..].
    replace (n + S (length mappingVector))%nat
      with (S n + length mappingVector)%nat by lia.
    apply IH; [lia|done].
Qed.

Lemma count_steps_imap (f : nat -> DecodeGraph Features -> DecodeGraph Features)
    (graphs : list (DecodeGraph Features)) :
  (forall i g, dg_steps (f i g) = dg_steps g) ->
  count_steps (imap f graphs) = count_steps graphs.
Proof.
  unfold count_steps. revert f.
  induction graphs as [|g graphs IH]; intros f Hf; [done|].
  cbn [imap sum_list_with]. rewrite Hf, IH; [done|]. intros i g'. apply Hf.
Qed.

(** X16.  Called with no decoding graph yet and a first mapping line that
    does not name graph 1, [LoadDecodeGraphs] never indexes
    [m_decodeGraphs] out of range.  The one read outside a vector it can
    make is that of [maxChartSpans[decodeGraphInd]] for the log: with the
    chart decoder, when [VERBOSE(1, ...)] writes, for a graph that has no
    value of "max-chart-span".  When it returns, it returns true, every
    graph is at the position it was constructed for and holds a step, and
    the graphs hold as many steps as there are mapping lines. *)
Theorem LoadDecodeGraphs_graphs (parameter : PARAMS) :
  let mappingVector := default [] (GetParam parameter "mapping") in
  Z.of_nat (length mappingVector) < 2 ^ 64 - 1 ->
  starts_at_graph_one Tokenize ScanSizeT mappingVector = false ->
  match LoadDecodeGraphs Tokenize ScanSizeT VERBOSE GetFeatureFunctions
          IsChart DEFAULT_MAX_CHART_SPAN pts_size gens_size
          GetFeaturesRemaining parameter [] with
  | Returned (ok, graphs) =>
      ok = true /\ graphs_ok graphs
      /\ count_steps graphs = length mappingVector
  | Thrown _ => True
  | OutOfRange _ _ => False
  | SpanOutOfRange index size =>
      IsChart = true /\ VERBOSE 1 = true
      /\ size = length (default [] (GetParam parameter "max-chart-span"))
      /\ (size <= index)%nat
  end.
Proof.
  intros mappingVector Hlen Hfirst. unfold LoadDecodeGraphs.
  assert ((if given (GetParam parameter "mapping")
           then default [] (GetParam parameter "mapping") else [])
          = mappingVector) as ->.
  { unfold mappingVector. by destruct (GetParam parameter "mapping") as [[]|]. }
  set (maxChartSpans := if given (GetParam parameter "max-chart-span")
                        then _ else _).
  assert (length maxChartSpans
          = length (default [] (GetParam parameter "max-chart-span")))
    as Hspans.
  { unfold maxChartSpans.
    destruct (GetParam parameter "max-chart-span") as [[]|]; [done| |done].
    cbn [given default from_option]. unfold id. by rewrite length_fmap. }
  assert (graphs_outcome IsChart VERBOSE maxChartSpans
            (fun st' => graphs_ok (m_decodeGraphs st')
                        /\ count_steps (m_decodeGraphs st')
                           = length mappingVector)
            (LoadDecodeGraphs_loop Tokenize ScanSizeT VERBOSE
               GetFeatureFunctions IsChart DEFAULT_MAX_CHART_SPAN pts_size
               gens_size GetFeaturesRemaining maxChartSpans mappingVector
               (mkMappingState [] None 0 GetFeatureFunctions))) as Hloop.
  { destruct mappingVector as [|mapping rest].
    - cbn [LoadDecodeGraphs_loop mret outcome_ret m_decodeGraphs
           graphs_outcome].
      split; [by intros k g ?|done].
    - cbn [LoadDecodeGraphs_loop length] in *.
      pose proof (LoadDecodeGraphs_line_spec maxChartSpans mapping
                    (mkMappingState [] None 0 GetFeatureFunctions) 0
                    ltac:(lia)
                    (or_intror (conj eq_refl (conj eq_refl
                                  (conj eq_refl Hfirst))))) as Hline.
      destruct (LoadDecodeGraphs_line _ _ _ _ _ _ _ _ _ _ _ _) as [st'| | |];
        cbn [mbind outcome_bind]; [|done..].
      pose proof (LoadDecodeGraphs_loop_spec maxChartSpans rest st' 1
                    ltac:(lia) Hline) as Hrest.
      destruct (LoadDecodeGraphs_loop _ _ _ _ _ _ _ _ _ _ _ _)
        as [st''| | |]; [|done..].
      by destruct Hrest as (_ & _ & ? & ?). }
  destruct (LoadDecodeGraphs_loop _ _ _ _ _ _ _ _ _ _ _ _) as [st'| | |];
    cbn [mbind outcome_bind mret outcome_ret graphs_outcome] in *;
    [|done|done|by rewrite <- Hspans].
  destruct Hloop as [Hok Hcount]. split_and!; [done| |].
  - intros k g. rewrite list_lookup_imap.
    destruct (m_decodeGraphs st' !! k) as [g0|] eqn:Hk; [|done].
    cbn [fmap option_fmap option_map]. intros [= <-].
    destruct (Hok k g0 Hk) as [Hpos Hsteps].
    by destruct (default [] (GetParam parameter "decoding-graph-backoff") !! k).
  - rewrite count_steps_imap; [done|]. intros i g.
    by destruct (default [] (GetParam parameter "decoding-graph-backoff") !! i).
Qed.

(** X17.  Called with no decoding graph yet and a first mapping line of
    three tokens that names graph 1 and an available dictionary,
    [LoadDecodeGraphs] passes the check of the graph number and then reads
    outside a vector: with the chart decoder, when [VERBOSE(1, ...)] writes
    and fewer than two values of "max-chart-span" are given, it reads
    [maxChartSpans[1]]; otherwise it creates one graph and indexes
    [m_decodeGraphs[1]], one past the end. *)
Theorem LoadDecodeGraphs_first_line_graph_one (parameter : PARAMS)
    (mapping : string) (rest : list string) (token0 token1 token2 : string) :
  let spans := length (default [] (GetParam parameter "max-chart-span")) in
  GetParam parameter "mapping" = Some (mapping :: rest) ->
  Tokenize mapping = [token0; token1; token2] ->
  ScanSizeT token0 = 1%nat ->
  (ScanSizeT token2
   < if String.eqb token1 "T" then pts_size else gens_size)%nat ->
  LoadDecodeGraphs Tokenize ScanSizeT VERBOSE GetFeatureFunctions IsChart
    DEFAULT_MAX_CHART_SPAN pts_size gens_size GetFeaturesRemaining
    parameter []
  = if IsChart && VERBOSE 1 && (spans <=? 1)%nat
    then SpanOutOfRange 1 spans
    else OutOfRange 1 1.
Proof.
  intros spans Hparam Htok Hone Hindex. unfold LoadDecodeGraphs.
  set (maxChartSpans := if given (GetParam parameter "max-chart-span")
                        then _ else _).
  assert (length maxChartSpans = spans) as Hspans.
  { unfold maxChartSpans, spans.
    destruct (GetParam parameter "max-chart-span") as [[]|]; [done| |done].
    cbn [given default from_option]. unfold id. by rewrite length_fmap. }
  rewrite Hparam. cbn [given default from_option]. unfold id.
  cbn [LoadDecodeGraphs_loop]. unfold LoadDecodeGraphs_line.
  rewrite Htok, Hone.
  cbn [prevDecodeGraphInd m_decodeGraphs length].
  change (size_t_succ 0) with 1%nat. change (size_t_succ 1) with 2%nat.
  cbn [Nat.eqb Nat.ltb Nat.leb negb andb mbind outcome_bind mret outcome_ret].
  rewrite Hspans.
  destruct (String.eqb token1 "T");
    [destruct (Nat.leb_spec pts_size (ScanSizeT token2)); [lia|]
    |destruct (Nat.leb_spec gens_size (ScanSizeT token2)); [lia|]];
    cbn [mbind outcome_bind mret outcome_ret];
    (destruct IsChart; [|done]); cbn [andb];
    by destruct (VERBOSE 1 && (spans <=? 1)%nat).
Qed.

Lemma overwrite_names_tokens (pairs : list (string * string))
    (toks : list string) (ret : gmap string string) :
  overwrite_names (tokens_of pairs ++ toks) ret
  = overwrite_names toks
      (foldl (fun ret pair => <[pair.1 := pair.2]> ret) ret pairs).
Proof.
  revert ret. induction pairs as [|[oldName newName] pairs IH]; intros ret;
    [done|].
  cbn [tokens_of app overwrite_names foldl fst snd]. apply IH.
Qed.

Lemma foldl_insert_other (pairs : list (string * string))
    (ret : gmap string string) (name : string) :
  name ∉ pairs.*1 ->
  foldl (fun ret pair => <[pair.1 := pair.2]> ret) ret pairs !! name
  = ret !! name.
Proof.
  revert ret. induction pairs as [|[oldName newName] pairs IH]; intros ret;
    [done|].
  cbn [fmap list_fmap fst]. intros [Hne Hin]%not_elem_of_cons.
  cbn [foldl fst snd]. rewrite IH by done. by rewrite lookup_insert_ne.
Qed.

Lemma length_tokens_of (pairs : list (string * string)) :
  length (tokens_of pairs) = (2 * length pairs)%nat.
Proof.
  induction pairs as [|[oldName newName] pairs IH]; [done|].
  cbn [tokens_of length]. lia.
Qed.

(** X18.  In the line of "feature-name-overwrite" the last pair for an old
    name decides its new name.  With the S2T decoder
    PhraseDictionaryMemory and PhraseDictionaryScope3 are renamed to
    RuleTable whatever the line says, and the other names keep the new names
    of the line. *)
Theorem OverrideFeatureNames_last_wins (parameter : PARAMS)
    (m_useS2TDecoder : bool) (line : string)
    (before after : list (string * string)) (oldName newName : string) :
  GetParam parameter "feature-name-overwrite" = Some [line] ->
  Tokenize line = tokens_of (before ++ (oldName, newName) :: after) ->
  oldName ∉ after.*1 ->
  exists ret,
    OverrideFeatureNames Tokenize parameter m_useS2TDecoder = Returned ret
    /\ (if m_useS2TDecoder
        then ret !! "PhraseDictionaryMemory" = Some "RuleTable"
             /\ ret !! "PhraseDictionaryScope3" = Some "RuleTable"
             /\ (oldName <> "PhraseDictionaryMemory" ->
                 oldName <> "PhraseDictionaryScope3" ->
                 ret !! oldName = Some newName)
        else ret !! oldName = Some newName).
Proof.
  intros Hparam Htok Hlast. unfold OverrideFeatureNames.
  rewrite Hparam. cbn [given default from_option]. unfold id.
  cbn [head length Nat.eqb negb from_option]. unfold id. rewrite Htok.
  rewrite length_tokens_of, Nat.mul_comm, Nat.Div0.mod_mul.
  cbn [Nat.eqb negb mbind outcome_bind mret outcome_ret].
  eexists. split; [done|].
  assert (overwrite_names (tokens_of (before ++ (oldName, newName) :: after)) ∅
          !! oldName = Some newName) as Hret.
  { rewrite <- (right_id_L [] (++) (tokens_of _)), overwrite_names_tokens.
    cbn [overwrite_names]. rewrite foldl_app. cbn [foldl fst snd].
    rewrite foldl_insert_other by done. by rewrite lookup_insert_eq. }
  destruct m_useS2TDecoder; [|done]. split_and!.
  - rewrite lookup_insert_ne by done. by rewrite lookup_insert_eq.
  - by rewrite lookup_insert_eq.
  - intros Hm Hs. by rewrite !lookup_insert_ne.
Qed.

End LoadDecodeGraphsProperties.

(** ** The examples of the decoding graphs and of the feature names *)

(** The lines "0 T 0", "1 T 1" and "1 G 0", with two phrase dictionaries and
    one generation dictionary, for the chart decoder with two values of
    "max-chart-span": two graphs that hold the three steps. *)
Lemma LoadDecodeGraphs_graphs_witness :
  exists graphs,
    LoadDecodeGraphs tokenize scan_size_t verbose_1 tt true 0 2 1 no_features
      params_mapping_chart []
    = Returned (true, graphs)
    /\ length graphs = 2%nat
    /\ graphs_ok graphs /\ count_steps graphs = 3%nat.
Proof.
  eexists. split; [reflexivity|]. split; [reflexivity|].
  refine (proj2 (LoadDecodeGraphs_graphs tokenize scan_size_t verbose_1 tt
                   true 0 2 1 no_features params_mapping_chart _ _)).
  - vm_compute. reflexivity.
  - reflexivity.
Defined.

(** The same lines without "max-chart-span": the second graph has no span
    to write to the log. *)
Example LoadDecodeGraphs_no_span :
  LoadDecodeGraphs tokenize scan_size_t verbose_1 tt true 0 2 1 no_features
    params_mapping []
  = SpanOutOfRange 0 0.
Proof. reflexivity. Qed.

(** The one line "1 T 0" for the chart decoder, without "max-chart-span":
    [maxChartSpans[1]] is read. *)
Lemma LoadDecodeGraphs_first_line_graph_one_witness :
  LoadDecodeGraphs tokenize scan_size_t verbose_1 tt true 0 2 1 no_features
    params_mapping_from_one []
  = SpanOutOfRange 1 0.
Proof.
  apply (LoadDecodeGraphs_first_line_graph_one tokenize scan_size_t verbose_1
           tt true 0 2 1 no_features params_mapping_from_one
           "1 T 0" [] "1" "T" "0").
  - reflexivity.
  - reflexivity.
  - reflexivity.
  - vm_compute. lia.
Defined.

(** The same line for a decoder that is no chart decoder: graph 1 is indexed
    when one graph exists. *)
Example LoadDecodeGraphs_one_past_the_end :
  LoadDecodeGraphs tokenize scan_size_t verbose_1 tt false 0 2 1 no_features
    params_mapping_from_one []
  = OutOfRange 1 1.
Proof. reflexivity. Qed.

(** "KENLM LM0 Distortion D0 KENLM LM1": KENLM is renamed to LM1. *)
Lemma OverrideFeatureNames_last_wins_witness :
  exists ret,
    OverrideFeatureNames tokenize params_overwrite false = Returned ret
    /\ ret !! "KENLM"%string = Some "LM1"%string.
Proof.
  apply (OverrideFeatureNames_last_wins tokenize params_overwrite false
           "KENLM LM0 Distortion D0 KENLM LM1"
           [("KENLM", "LM0"); ("Distortion", "D0")]%string []
           "KENLM" "LM1").
  - reflexivity.
  - reflexivity.
  - apply not_elem_of_nil.
Defined.
